(** * Connection lifecycle and caching layer of the Baileys example client

    Shallow embedding of
    - [src/Example/redis-client.ts]: the [RedisClient] wrapper (constructor,
      reconnect strategy, [connect], [disconnect], [isReady] and the
      operations [set], [get], [delete], [exists], [ttl], [expire],
      [flushAll], [flushDb], [keys], [mset], [mget], [incr], [decr]) together
      with the value codec it applies on [set], [get], [mset] and [mget];
    - the example controller ([startSock] and the handler it passes to
      [sock.ev.process]).

    JavaScript strings are sequences of UTF-16 code units, values are JSON
    values, [JSON.stringify] and [JSON.parse] follow ECMA-262 (sections
    25.5.1 and 25.5.2, and Number::toString for numbers). *)

From Stdlib Require Import ZArith NArith Lia String Ascii.
From stdpp Require Import gmap list fin_maps.

Local Open Scope N_scope.

(** ** JavaScript strings *)

(** A string is its list of UTF-16 code units. *)
Abbreviation jsstring := (list N).

Fixpoint str (s : string) : jsstring :=
  match s with
  | EmptyString => []
  | String a r => N_of_ascii a :: str r
  end.

Definition wf_string (s : jsstring) : Prop := Forall (λ c, c < 65536) s.

Module Ch.
Definition backspace : N := 8.
Definition tab : N := 9.
Definition lf : N := 10.
Definition ff : N := 12.
Definition cr : N := 13.
Definition space : N := 32.
Definition quote : N := 34.
Definition plus : N := 43.
Definition comma : N := 44.
Definition minus : N := 45.
Definition dot : N := 46.
Definition slash : N := 47.
Definition zero : N := 48.
Definition colon : N := 58.
Definition upper_e : N := 69.
Definition lbracket : N := 91.
Definition backslash : N := 92.
Definition rbracket : N := 93.
Definition lower_b : N := 98.
Definition lower_e : N := 101.
Definition lower_f : N := 102.
Definition lower_n : N := 110.
Definition lower_r : N := 114.
Definition lower_t : N := 116.
Definition lower_u : N := 117.
Definition lbrace : N := 123.
Definition rbrace : N := 125.
End Ch.

(** ** Decimal digits *)

Definition is_digit (c : N) : bool := (48 <=? c) && (c <=? 57).

(** Digit values, least significant first. *)
Fixpoint digits_le (fuel : nat) (n : N) : list N :=
  match fuel with
  | O => []
  | S f => if n =? 0 then [] else n mod 10 :: digits_le f (n / 10)
  end.

(** The decimal digits of [n], most significant first; ["0"] for zero. *)
Definition digits (n : N) : list N :=
  if n =? 0 then [0] else rev (digits_le (N.to_nat (N.size n)) n).

(** Value of a digit sequence, most significant first. *)
Definition val (ds : list N) : N := fold_left (λ a d, 10 * a + d) ds 0.

Definition chars (ds : list N) : jsstring := map (λ d, 48 + d) ds.

(** The longest prefix of decimal digits, as digit values, and the rest. *)
Fixpoint take_digits (s : jsstring) : list N * jsstring :=
  match s with
  | c :: r =>
      if is_digit c then let '(ds, r') := take_digits r in (c - 48 :: ds, r')
      else ([], s)
  | [] => ([], [])
  end.

Fixpoint drop_zeros (ds : list N) : list N :=
  match ds with
  | d :: r => if d =? 0 then drop_zeros r else ds
  | [] => []
  end.

(** Drops the zeros at the end of a digit sequence. *)
Definition strip_zeros (ds : list N) : list N := rev (drop_zeros (rev ds)).

(** ** Numbers

    A finite number is kept as the decimal [m * 10 ^ e] that
    Number::toString prints for it: [m] carries the significant digits
    ([m] is not a multiple of ten) and zero is [(0, 0)].  [-0] and [0] are
    the same number, as they are for [==] and in the text [JSON.stringify]
    prints.  Rounding of longer literals to the nearest double is outside
    the model: [lex_number] keeps the exact value of the literal. *)

Definition normal_number (m e : Z) : Prop :=
  if (m =? 0)%Z then e = 0%Z else (m mod 10 ≠ 0)%Z.

(** Number::toString(x, 10), ECMA-262 6.1.6.1.20, with [k] the number of
    significant digits and [n] the position of the decimal point. *)
Definition show_number (m e : Z) : jsstring :=
  if (m =? 0)%Z then str "0" else
  let ds := digits (Z.abs_N m) in
  let k := Z.of_nat (length ds) in
  let n := (k + e)%Z in
  (if (m <? 0)%Z then [Ch.minus] else []) ++
  if (k <=? n)%Z && (n <=? 21)%Z then
    chars ds ++ replicate (Z.to_nat (n - k)) Ch.zero
  else if (0 <? n)%Z && (n <=? 21)%Z then
    chars (take (Z.to_nat n) ds) ++ Ch.dot :: chars (drop (Z.to_nat n) ds)
  else if (-6 <? n)%Z && (n <=? 0)%Z then
    Ch.zero :: Ch.dot :: replicate (Z.to_nat (- n)) Ch.zero ++ chars ds
  else
    let x := (n - 1)%Z in
    let es := Ch.lower_e :: (if (x <? 0)%Z then Ch.minus else Ch.plus)
              :: chars (digits (Z.abs_N x)) in
    match ds with
    | [] => []
    | [d] => chars [d] ++ es
    | d :: r => chars [d] ++ Ch.dot :: chars r ++ es
    end.

(** The number denoted by the digits [ds] scaled by [10 ^ e]. *)
Definition normalize (neg : bool) (ds : list N) (e : Z) : Z * Z :=
  let ds' := strip_zeros ds in
  let m := Z.of_N (val ds') in
  if (m =? 0)%Z then (0, 0)%Z
  else ((if neg then - m else m)%Z,
        (e + Z.of_nat (length ds) - Z.of_nat (length ds'))%Z).

(** JSON number grammar: [-? int frac? exp?]. *)
Definition lex_int (s : jsstring) : option (list N * jsstring) :=
  match s with
  | c :: r =>
      if c =? Ch.zero then Some ([0], r)
      else if is_digit c then Some (take_digits s)
      else None
  | [] => None
  end.

Definition lex_frac (s : jsstring) : option (list N * jsstring) :=
  match s with
  | c :: r =>
      if c =? Ch.dot then
        match take_digits r with
        | ([], _) => None
        | (ds, r') => Some (ds, r')
        end
      else Some ([], s)
  | [] => Some ([], [])
  end.

Definition lex_sign (s : jsstring) : bool * jsstring :=
  match s with
  | c :: r =>
      if c =? Ch.minus then (true, r)
      else if c =? Ch.plus then (false, r)
      else (false, s)
  | [] => (false, [])
  end.

Definition lex_exp (s : jsstring) : option (Z * jsstring) :=
  match s with
  | c :: r =>
      if (c =? Ch.lower_e) || (c =? Ch.upper_e) then
        let '(neg, r1) := lex_sign r in
        match take_digits r1 with
        | ([], _) => None
        | (ds, r2) =>
            Some ((if neg then - Z.of_N (val ds) else Z.of_N (val ds))%Z, r2)
        end
      else Some (0%Z, s)
  | [] => Some (0%Z, [])
  end.

Definition lex_number (s : jsstring) : option (Z * Z * jsstring) :=
  let '(neg, s0) :=
    match s with
    | c :: r => if c =? Ch.minus then (true, r) else (false, s)
    | [] => (false, [])
    end in
  '(ip, s1) ← lex_int s0;
  '(fp, s2) ← lex_frac s1;
  '(x, s3) ← lex_exp s2;
  Some (normalize neg (ip ++ fp) (x - Z.of_nat (length fp)), s3).

(** ** Strings in JSON text *)

Definition is_high_surrogate (c : N) : bool := (55296 <=? c) && (c <=? 56319).
Definition is_low_surrogate (c : N) : bool := (56320 <=? c) && (c <=? 57343).

Definition hex_digit (d : N) : N := if d <? 10 then 48 + d else 87 + d.

(** UnicodeEscape: [\uXXXX] with lower-case hexadecimal digits. *)
Definition unicode_escape (c : N) : jsstring :=
  [Ch.backslash; Ch.lower_u; hex_digit (c / 4096 mod 16);
   hex_digit (c / 256 mod 16); hex_digit (c / 16 mod 16); hex_digit (c mod 16)].

(** The two-character escapes of QuoteJSONString (table 75). *)
Definition escape_short (c : N) : option N :=
  if c =? Ch.backspace then Some Ch.lower_b
  else if c =? Ch.tab then Some Ch.lower_t
  else if c =? Ch.lf then Some Ch.lower_n
  else if c =? Ch.ff then Some Ch.lower_f
  else if c =? Ch.cr then Some Ch.lower_r
  else if c =? Ch.quote then Some Ch.quote
  else if c =? Ch.backslash then Some Ch.backslash
  else None.

Fixpoint quote_body (s : jsstring) : jsstring :=
  match s with
  | [] => []
  | c :: r =>
      match escape_short c with
      | Some e => Ch.backslash :: e :: quote_body r
      | None =>
          if c <? 32 then unicode_escape c ++ quote_body r
          else if is_high_surrogate c then
            match r with
            | c2 :: r2 =>
                if is_low_surrogate c2 then c :: c2 :: quote_body r2
                else unicode_escape c ++ quote_body r
            | [] => unicode_escape c
            end
          else if is_low_surrogate c then unicode_escape c ++ quote_body r
          else c :: quote_body r
      end
  end.

(** QuoteJSONString, ECMA-262 25.5.2.3. *)
Definition quote (s : jsstring) : jsstring :=
  Ch.quote :: quote_body s ++ [Ch.quote].

Definition hex_val (c : N) : option N :=
  if is_digit c then Some (c - 48)
  else if (97 <=? c) && (c <=? 102) then Some (c - 87)
  else if (65 <=? c) && (c <=? 70) then Some (c - 55)
  else None.

Definition hex4 (h1 h2 h3 h4 : N) : option N :=
  a ← hex_val h1; b ← hex_val h2; c ← hex_val h3; d ← hex_val h4;
  Some (((a * 16 + b) * 16 + c) * 16 + d).

Definition unescape (c : N) : option N :=
  if c =? Ch.quote then Some Ch.quote
  else if c =? Ch.backslash then Some Ch.backslash
  else if c =? Ch.slash then Some Ch.slash
  else if c =? Ch.lower_b then Some Ch.backspace
  else if c =? Ch.lower_f then Some Ch.ff
  else if c =? Ch.lower_n then Some Ch.lf
  else if c =? Ch.lower_r then Some Ch.cr
  else if c =? Ch.lower_t then Some Ch.tab
  else None.

(** The characters of a JSON string after its opening quote, up to and
    including the closing quote. *)
Fixpoint lex_string (s : jsstring) : option (jsstring * jsstring) :=
  match s with
  | [] => None
  | c :: r =>
      if c =? Ch.quote then Some ([], r)
      else if c =? Ch.backslash then
        match r with
        | x :: r1 =>
            if x =? Ch.lower_u then
              match r1 with
              | h1 :: h2 :: h3 :: h4 :: r2 =>
                  u ← hex4 h1 h2 h3 h4;
                  '(t, rest) ← lex_string r2;
                  Some (u :: t, rest)
              | _ => None
              end
            else
              u ← unescape x;
              '(t, rest) ← lex_string r1;
              Some (u :: t, rest)
        | [] => None
        end
      else if c <? 32 then None
      else '(t, rest) ← lex_string r; Some (c :: t, rest)
  end.

(** ** JSON values, JSON.stringify and JSON.parse *)

(** The numbers that are not finite. *)
Inductive non_finite : Type := NaN | Infinity | NegInfinity.

(** The values the codec is applied to.  An object is the list of its own
    properties in enumeration order. *)
Unset Elimination Schemes.
Inductive json : Type :=
| JNull
| JBool (b : bool)
| JNum (m e : Z)
| JStr (s : jsstring)
| JArr (l : list json)
| JObj (l : list (jsstring * json))
| JNonFinite (x : non_finite).
Set Elimination Schemes.

Fixpoint join_comma (l : list jsstring) : jsstring :=
  match l with
  | [] => []
  | [x] => x
  | x :: l' => x ++ Ch.comma :: join_comma l'
  end.

(** JSON.stringify(value) without replacer and indentation
    (SerializeJSONProperty, SerializeJSONArray, SerializeJSONObject). *)
Fixpoint stringify (v : json) : jsstring :=
  match v with
  | JNull => str "null"
  | JBool true => str "true"
  | JBool false => str "false"
  | JNum m e => show_number m e
  | JStr s => quote s
  | JArr l => Ch.lbracket :: join_comma (map stringify l) ++ [Ch.rbracket]
  | JObj l =>
      Ch.lbrace
      :: join_comma (map (λ kv, quote kv.1 ++ Ch.colon :: stringify kv.2) l)
      ++ [Ch.rbrace]
  | JNonFinite _ => str "null"
  end.

Definition is_ws (c : N) : bool :=
  (c =? Ch.tab) || (c =? Ch.lf) || (c =? Ch.cr) || (c =? Ch.space).

Fixpoint skip_ws (s : jsstring) : jsstring :=
  match s with
  | c :: r => if is_ws c then skip_ws r else s
  | [] => []
  end.

Fixpoint strip_prefix (p s : jsstring) : option jsstring :=
  match p, s with
  | [], _ => Some s
  | a :: p', b :: s' => if a =? b then strip_prefix p' s' else None
  | _ :: _, [] => None
  end.

(** CreateDataProperty on the object under construction: a repeated key
    keeps its place and takes the later value. *)
Fixpoint obj_set (k : jsstring) (v : json) (l : list (jsstring * json))
  : list (jsstring * json) :=
  match l with
  | [] => [(k, v)]
  | (k', v') :: l' =>
      if decide (k = k') then (k, v) :: l' else (k', v') :: obj_set k v l'
  end.

Definition obj_of_members (l : list (jsstring * json)) : list (jsstring * json) :=
  fold_left (λ acc kv, obj_set kv.1 kv.2 acc) l [].

(** Recursive descent over the JSON grammar (ECMA-404).  [fuel] bounds the
    number of nested calls; [JSON_parse] supplies more than any text needs. *)
Fixpoint parse_value (fuel : nat) (s : jsstring) : option (json * jsstring) :=
  match fuel with
  | O => None
  | S f =>
      match skip_ws s with
      | [] => None
      | c :: r =>
          if c =? Ch.lbrace then
            match skip_ws r with
            | c' :: r' =>
                if c' =? Ch.rbrace then Some (JObj [], r')
                else '(l, rest) ← parse_members f (c' :: r');
                     Some (JObj (obj_of_members l), rest)
            | [] => None
            end
          else if c =? Ch.lbracket then
            match skip_ws r with
            | c' :: r' =>
                if c' =? Ch.rbracket then Some (JArr [], r')
                else '(l, rest) ← parse_elems f (c' :: r');
                     Some (JArr l, rest)
            | [] => None
            end
          else if c =? Ch.quote then
            '(t, rest) ← lex_string r; Some (JStr t, rest)
          else if c =? Ch.lower_t then
            rest ← strip_prefix (str "rue") r; Some (JBool true, rest)
          else if c =? Ch.lower_f then
            rest ← strip_prefix (str "alse") r; Some (JBool false, rest)
          else if c =? Ch.lower_n then
            rest ← strip_prefix (str "ull") r; Some (JNull, rest)
          else
            '(m, e, rest) ← lex_number (c :: r); Some (JNum m e, rest)
      end
  end
with parse_elems (fuel : nat) (s : jsstring) : option (list json * jsstring) :=
  match fuel with
  | O => None
  | S f =>
      '(v, r) ← parse_value f s;
      match skip_ws r with
      | c :: r' =>
          if c =? Ch.comma then
            '(l, rest) ← parse_elems f r'; Some (v :: l, rest)
          else if c =? Ch.rbracket then Some ([v], r')
          else None
      | [] => None
      end
  end
with parse_members (fuel : nat) (s : jsstring)
  : option (list (jsstring * json) * jsstring) :=
  match fuel with
  | O => None
  | S f =>
      match skip_ws s with
      | c :: r =>
          if c =? Ch.quote then
            '(k, r1) ← lex_string r;
            match skip_ws r1 with
            | c1 :: r2 =>
                if c1 =? Ch.colon then
                  '(v, r3) ← parse_value f r2;
                  match skip_ws r3 with
                  | c3 :: r4 =>
                      if c3 =? Ch.comma then
                        '(l, rest) ← parse_members f r4;
                        Some ((k, v) :: l, rest)
                      else if c3 =? Ch.rbrace then Some ([(k, v)], r4)
                      else None
                  | [] => None
                  end
                else None
            | [] => None
            end
          else None
      | [] => None
      end
  end.

(** JSON.parse(text) without reviver: [None] stands for the SyntaxError. *)
Definition JSON_parse (s : jsstring) : option json :=
  match parse_value (S (length s)) s with
  | Some (v, rest) =>
      match skip_ws rest with
      | [] => Some v
      | _ :: _ => None
      end
  | None => None
  end.

(** ** The codec of [RedisClient.set] and [RedisClient.get] *)

(** [typeof value === 'string' ? value : JSON.stringify(value)] *)
Definition encode (v : json) : jsstring :=
  match v with
  | JStr s => s
  | _ => stringify v
  end.

(** [try { return JSON.parse(value) } catch { return value }] *)
Definition decode (t : jsstring) : json :=
  match JSON_parse t with
  | Some v => v
  | None => JStr t
  end.


(** ** Errors and results *)

Inductive error : Type :=
| NotConnected        (* Error('Redis 客户端未连接'): the guard of every operation *)
| ConnectionFailure   (* Error('Redis 连接失败: ...') thrown by connect() *)
| TransportError      (* a rejection coming from the node-redis client itself *)
| OperationFailed.    (* a rejected request to the session collaborators *)

Inductive result (A : Type) : Type :=
| Ok (a : A)
| Throw (e : error).
Arguments Ok {A} a.
Arguments Throw {A} e.

(** ** The store behind the node-redis client

    Modelled from the spec: the remote key-value store and its wire
    protocol (textual values, keys unique in the database, expiry in whole
    seconds), reached through the node-redis client in [this.client].  An
    entry expires when the clock reaches its expiry; a command sent while
    the link is down rejects. *)

Record entry : Type := { e_text : jsstring; e_expiry : option Z }.

Record server : Type := {
  db : gmap jsstring entry;
  now : Z;
  link_up : bool
}.

Definition live (t : Z) (e : entry) : bool :=
  match e_expiry e with
  | Some x => (t <? x)%Z
  | None => true
  end.

Definition lookup_live (s : server) (k : jsstring) : option entry :=
  match db s !! k with
  | Some e => if live (now s) e then Some e else None
  | None => None
  end.

Definition with_db (s : server) (d : gmap jsstring entry) : server :=
  {| db := d; now := now s; link_up := link_up s |}.

Module NodeRedis.

(** SET key value *)
Definition set (k t : jsstring) (s : server) : result unit * server :=
  if link_up s
  then (Ok (), with_db s (<[k := {| e_text := t; e_expiry := None |}]> (db s)))
  else (Throw TransportError, s).

(** SETEX key seconds value: the server refuses a non-positive expiry. *)
Definition setEx (k : jsstring) (seconds : Z) (t : jsstring) (s : server)
  : result unit * server :=
  if link_up s && (0 <? seconds)%Z
  then (Ok (), with_db s (<[k := {| e_text := t;
                                    e_expiry := Some (now s + seconds)%Z |}]> (db s)))
  else (Throw TransportError, s).

(** GET key: the text, or [None] for the null reply. *)
Definition get (k : jsstring) (s : server) : result (option jsstring) * server :=
  if link_up s then (Ok (e_text <$> lookup_live s k), s)
  else (Throw TransportError, s).

Definition del_one (s : server) (acc : Z * gmap jsstring entry) (k : jsstring)
  : Z * gmap jsstring entry :=
  match lookup_live (with_db s acc.2) k with
  | Some _ => ((acc.1 + 1)%Z, delete k acc.2)
  | None => (acc.1, delete k acc.2)
  end.

(** DEL key [key ...]: the number of keys that were removed. *)
Definition del (ks : list jsstring) (s : server) : result Z * server :=
  if link_up s
  then let r := fold_left (del_one s) ks (0%Z, db s) in (Ok r.1, with_db s r.2)
  else (Throw TransportError, s).

(** EXISTS key *)
Definition exists_ (k : jsstring) (s : server) : result Z * server :=
  if link_up s
  then (Ok match lookup_live s k with Some _ => 1%Z | None => 0%Z end, s)
  else (Throw TransportError, s).

(** TTL key: -2 without the key, -1 without expiry, else seconds left. *)
Definition ttl (k : jsstring) (s : server) : result Z * server :=
  if link_up s
  then (Ok match lookup_live s k with
           | None => (-2)%Z
           | Some e => match e_expiry e with
                       | None => (-1)%Z
                       | Some x => (x - now s)%Z
                       end
           end, s)
  else (Throw TransportError, s).

(** EXPIRE key seconds: 0 without the key; with it 1, and the key is
    deleted at once when [seconds] is not positive. *)
Definition expire (k : jsstring) (seconds : Z) (s : server) : result Z * server :=
  if link_up s
  then match lookup_live s k with
       | None => (Ok 0%Z, s)
       | Some e =>
           if (0 <? seconds)%Z
           then (Ok 1%Z,
                 with_db s (<[k := {| e_text := e_text e;
                                      e_expiry := Some (now s + seconds)%Z |}]>
                              (db s)))
           else (Ok 1%Z, with_db s (delete k (db s)))
       end
  else (Throw TransportError, s).

(** FLUSHDB and FLUSHALL, as seen from the database of the client. *)
Definition flushDb (s : server) : result unit * server :=
  if link_up s then (Ok (), with_db s ∅) else (Throw TransportError, s).

Definition flushAll (s : server) : result unit * server :=
  if link_up s then (Ok (), with_db s ∅) else (Throw TransportError, s).

(** KEYS pattern: the keys the store holds that the glob-style matcher
    [glob] of the server accepts, in no particular order. *)
Definition keys (glob : jsstring → jsstring → bool) (pattern : jsstring)
    (s : server) : result (list jsstring) * server :=
  if link_up s
  then (Ok (fst <$> filter (λ kv, live (now s) kv.2 && glob pattern kv.1)
                      (map_to_list (db s))), s)
  else (Throw TransportError, s).

(** The arguments [k1; v1; k2; v2; ...] of MSET as pairs. *)
Fixpoint pairs (args : list jsstring) : option (list (jsstring * jsstring)) :=
  match args with
  | [] => Some []
  | k :: v :: r => ((k, v) ::.) <$> pairs r
  | [_] => None
  end.

Definition put (d : gmap jsstring entry) (kv : jsstring * jsstring)
  : gmap jsstring entry :=
  <[kv.1 := {| e_text := kv.2; e_expiry := None |}]> d.

(** MSET key value [key value ...]: at least one pair. *)
Definition mSet (args : list jsstring) (s : server) : result unit * server :=
  if link_up s
  then match args, pairs args with
       | _ :: _, Some kvs => (Ok (), with_db s (fold_left put kvs (db s)))
       | _, _ => (Throw TransportError, s)
       end
  else (Throw TransportError, s).

(** MGET key [key ...]: at least one key; one reply per key, in order. *)
Definition mGet (ks : list jsstring) (s : server)
  : result (list (option jsstring)) * server :=
  if link_up s
  then match ks with
       | [] => (Throw TransportError, s)
       | _ :: _ => (Ok ((λ k, e_text <$> lookup_live s k) <$> ks), s)
       end
  else (Throw TransportError, s).

Definition in_int64 (z : Z) : bool :=
  (- 2 ^ 63 <=? z)%Z && (z <? 2 ^ 63)%Z.

(** The decimal text of an integer. *)
Definition show_int (z : Z) : jsstring :=
  (if (z <? 0)%Z then [Ch.minus] else []) ++ chars (digits (Z.abs_N z)).

(** The integer a stored text stands for, as INCRBY reads it: an optional
    minus sign and digits without leading zero, within 64 bits. *)
Definition parse_ll (t : jsstring) : option Z :=
  let '(neg, r) :=
    match t with
    | c :: r => if c =? Ch.minus then (true, r) else (false, t)
    | [] => (false, [])
    end in
  match take_digits r with
  | (d :: ds, []) =>
      if d =? 0 then
        match neg, ds with
        | false, [] => Some 0%Z
        | _, _ => None
        end
      else
        let z := (if neg then - Z.of_N (val (d :: ds))
                  else Z.of_N (val (d :: ds)))%Z in
        if in_int64 z then Some z else None
  | _ => None
  end.

(** The number a key stands for and its expiry: a missing key counts as
    0, a text that is no integer has none. *)
Definition counter_state (s : server) (k : jsstring) : option (Z * option Z) :=
  match lookup_live s k with
  | None => Some (0%Z, None)
  | Some e => (λ z, (z, e_expiry e)) <$> parse_ll (e_text e)
  end.

(** INCRBY key increment: the expiry of the key stays; a text that is no
    integer, or a sum outside 64 bits, is refused. *)
Definition incrBy (k : jsstring) (increment : Z) (s : server)
  : result Z * server :=
  if link_up s && in_int64 increment
  then
    match counter_state s k with
    | Some (z, expiry) =>
        if in_int64 (z + increment)
        then (Ok (z + increment)%Z,
              with_db s (<[k := {| e_text := show_int (z + increment);
                                   e_expiry := expiry |}]> (db s)))
        else (Throw TransportError, s)
    | None => (Throw TransportError, s)
    end
  else (Throw TransportError, s).

(** DECRBY key decrement: INCRBY of the opposite; the least 64-bit
    integer has no opposite and is refused. *)
Definition decrBy (k : jsstring) (decrement : Z) (s : server)
  : result Z * server :=
  if (decrement =? - 2 ^ 63)%Z then (Throw TransportError, s)
  else incrBy k (- decrement) s.

(** QUIT *)
Definition quit (s : server) : result unit :=
  if link_up s then Ok () else Throw TransportError.

End NodeRedis.

(** [seconds] pass on the server's clock. *)
Definition elapse (seconds : Z) (s : server) : server :=
  {| db := db s; now := (now s + seconds)%Z; link_up := link_up s |}.

(** ** RedisClient (src/Example/redis-client.ts)

    Calls to the pino logger have no effect on the client or the store and
    are left out. *)

Record RedisConfig : Type := {
  host : jsstring;
  port : Z;
  password : option jsstring;
  cfg_db : option Z;
  cfg_maxRetries : option Z;
  connectTimeout : option Z
}.

(** [Array.isArray(keys) ? keys : [keys]]: [inl key] is the single-key
    argument of [delete], [inr keys] the array. *)
Definition key_array (keys : jsstring + list jsstring) : list jsstring :=
  match keys with
  | inl k => [k]
  | inr ks => ks
  end.

(** What the reconnect strategy hands back to the socket: a delay in
    milliseconds, or the Error that ends reconnection. *)
Inductive strategy_result : Type :=
| RetryIn (delay : Z)
| GiveUp.

Module RedisClient.

(** The fields of the class; [client] is [undefined] until [connect]
    has called [createClient]. *)
Record t : Type := {
  config : RedisConfig;
  client : option RedisConfig;
  isConnected : bool;
  retryCount : Z;
  maxRetries : Z
}.

(** [a || b] on an optional number: [undefined] and [0] are falsy. *)
Definition or_default (a : option Z) (b : Z) : Z :=
  match a with
  | Some n => if (n =? 0)%Z then b else n
  | None => b
  end.

(** [{ ...defaults, ...config }] *)
Definition with_defaults (c : RedisConfig) : RedisConfig :=
  {| host := host c; port := port c; password := password c;
     cfg_db := Some (default 0%Z (cfg_db c));
     cfg_maxRetries := cfg_maxRetries c;
     connectTimeout := Some (default 5000%Z (connectTimeout c)) |}.

Definition constructor (c : RedisConfig) : t :=
  {| config := with_defaults c;
     client := None;
     isConnected := false;
     retryCount := 0;
     maxRetries := or_default (cfg_maxRetries c) 3 |}.

(** [socket.reconnectStrategy] of the client made in [connect]. *)
Definition reconnectStrategy (c : t) (retries : Z) : strategy_result :=
  if (maxRetries c <? retries)%Z then GiveUp
  else RetryIn (Z.min (retries * 50) 500).

(** The handlers registered on the client's [error] and [connect] events. *)
Definition on_error (c : t) : t :=
  {| config := config c; client := client c; isConnected := false;
     retryCount := retryCount c; maxRetries := maxRetries c |}.

Definition on_connect (c : t) : t :=
  {| config := config c; client := client c; isConnected := true;
     retryCount := 0; maxRetries := maxRetries c |}.

(** [connect()]: [redis_pkg] tells whether [import('redis')] resolves,
    the link of the server whether [client.connect()] does. *)
Definition connect (redis_pkg : bool) (s : server) (c : t) : result unit * t :=
  if redis_pkg then
    let c1 := {| config := config c; client := Some (config c);
                 isConnected := isConnected c; retryCount := retryCount c;
                 maxRetries := maxRetries c |} in
    if link_up s then
      (Ok (), {| config := config c1; client := client c1; isConnected := true;
                 retryCount := 0; maxRetries := maxRetries c1 |})
    else (Throw ConnectionFailure, on_error c1)
  else (Throw ConnectionFailure, on_error c).

Definition isReady (c : t) : bool :=
  isConnected c && bool_decide (client c ≠ None).

(** [if (expiresIn)]: an absent or zero expiry takes the plain SET. *)
Definition truthy (n : option Z) : option Z :=
  match n with
  | Some x => if (x =? 0)%Z then None else Some x
  | None => None
  end.

Definition set (c : t) (key : jsstring) (value : json) (expiresIn : option Z)
    (s : server) : result unit * server :=
  if negb (isReady c) then (Throw NotConnected, s)
  else
    let stringValue := encode value in
    match truthy expiresIn with
    | Some seconds => NodeRedis.setEx key seconds stringValue s
    | None => NodeRedis.set key stringValue s
    end.

Definition get (c : t) (key : jsstring) (s : server) : result json * server :=
  if negb (isReady c) then (Throw NotConnected, s)
  else
    match NodeRedis.get key s with
    | (Ok None, s') => (Ok JNull, s')
    | (Ok (Some value), s') => (Ok (decode value), s')
    | (Throw e, s') => (Throw e, s')
    end.

Definition delete (c : t) (keys : jsstring + list jsstring) (s : server)
  : result Z * server :=
  if negb (isReady c) then (Throw NotConnected, s)
  else
    let keyArray := key_array keys in
    if decide (length keyArray = 0%nat) then (Ok 0%Z, s)
    else NodeRedis.del keyArray s.

Definition exists_ (c : t) (key : jsstring) (s : server) : result bool * server :=
  if negb (isReady c) then (Throw NotConnected, s)
  else
    match NodeRedis.exists_ key s with
    | (Ok n, s') => (Ok (n =? 1)%Z, s')
    | (Throw e, s') => (Throw e, s')
    end.

Definition ttl (c : t) (key : jsstring) (s : server) : result Z * server :=
  if negb (isReady c) then (Throw NotConnected, s)
  else NodeRedis.ttl key s.

(** [disconnect()]: [quit] is sent only by a client that is connected. *)
Definition disconnect (c : t) (s : server) : result unit * t :=
  if bool_decide (client c ≠ None) && isConnected c then
    match NodeRedis.quit s with
    | Ok _ => (Ok (), {| config := config c; client := client c;
                         isConnected := false; retryCount := retryCount c;
                         maxRetries := maxRetries c |})
    | Throw e => (Throw e, c)
    end
  else (Ok (), c).

Definition expire (c : t) (key : jsstring) (seconds : Z) (s : server)
  : result bool * server :=
  if negb (isReady c) then (Throw NotConnected, s)
  else
    match NodeRedis.expire key seconds s with
    | (Ok n, s') => (Ok (n =? 1)%Z, s')
    | (Throw e, s') => (Throw e, s')
    end.

Definition flushAll (c : t) (s : server) : result unit * server :=
  if negb (isReady c) then (Throw NotConnected, s) else NodeRedis.flushAll s.

Definition flushDb (c : t) (s : server) : result unit * server :=
  if negb (isReady c) then (Throw NotConnected, s) else NodeRedis.flushDb s.

(** [keys(pattern = '*')] *)
Definition keys (glob : jsstring → jsstring → bool) (c : t)
    (pattern : option jsstring) (s : server) : result (list jsstring) * server :=
  if negb (isReady c) then (Throw NotConnected, s)
  else NodeRedis.keys glob (default (str "*") pattern) s.

(** [mset(data)]: [data] is the list of the entries of the object. *)
Definition mset (c : t) (data : list (jsstring * json)) (s : server)
  : result unit * server :=
  if negb (isReady c) then (Throw NotConnected, s)
  else
    let entries := flat_map (λ kv, [kv.1; encode kv.2]) data in
    NodeRedis.mSet entries s.

Definition mget (c : t) (keys : list jsstring) (s : server)
  : result (list json) * server :=
  if negb (isReady c) then (Throw NotConnected, s)
  else
    match NodeRedis.mGet keys s with
    | (Ok values, s') =>
        (Ok ((λ value, match value with
                       | None => JNull
                       | Some text => decode text
                       end) <$> values), s')
    | (Throw e, s') => (Throw e, s')
    end.

(** [incr(key, increment = 1)] and [decr(key, decrement = 1)]; the
    numbers are exact integers (the rounding of a reply beyond 2^53 to a
    double is not modelled). *)
Definition incr (c : t) (key : jsstring) (increment : option Z) (s : server)
  : result Z * server :=
  if negb (isReady c) then (Throw NotConnected, s)
  else NodeRedis.incrBy key (default 1%Z increment) s.

Definition decr (c : t) (key : jsstring) (decrement : option Z) (s : server)
  : result Z * server :=
  if negb (isReady c) then (Throw NotConnected, s)
  else NodeRedis.decrBy key (default 1%Z decrement) s.

End RedisClient.

(** [createRedisClient(config, logger)] *)
Definition createRedisClient (config : RedisConfig) : RedisClient.t :=
  RedisClient.constructor config.

(** Modelled from the spec: the low-level transport that owns the
    reconnection loop (the node-redis socket).  While every attempt fails it
    asks the strategy about attempt number [n], waits the delay it returns,
    tries again and asks about [n + 1], until the strategy gives up.  The
    result lists the delays waited, one per reconnection attempt; [None]
    when [fuel] runs out before the strategy gives up.  The number the
    socket starts with is its own: node-redis hands the strategy the number
    of retries made so far, 0 on the first call. *)
Fixpoint reconnect_loop (fuel : nat) (c : RedisClient.t) (n : Z) : option (list Z) :=
  match fuel with
  | O => None
  | S f =>
      match RedisClient.reconnectStrategy c n with
      | GiveUp => Some []
      | RetryIn d => (d ::.) <$> reconnect_loop f c (n + 1)
      end
  end.

(** ** The example controller: [startSock] and its event handler *)

Record WAMessageKey : Type := {
  remoteJid : option jsstring;
  fromMe : bool;
  id : jsstring
}.

(** [conversation] is [msg.message?.conversation], [extendedText] is
    [msg.message?.extendedTextMessage?.text]. *)
Record WAMessage : Type := {
  key : WAMessageKey;
  conversation : option jsstring;
  extendedText : option jsstring;
  messageTimestamp : Z
}.

Inductive connection_state : Type := close | open | connecting.

#[global] Instance connection_state_eq_dec : EqDecision connection_state.
Proof. solve_decision. Defined.

(** [statusCode] is [(lastDisconnect?.error as Boom)?.output?.statusCode]. *)
Record ConnectionUpdate : Type := {
  connection : option connection_state;
  statusCode : option Z;
  qr : option jsstring
}.

Inductive upsert_type : Type := notify | append.

Record MessagesUpsert : Type := {
  upsert_kind : upsert_type;
  messages : list WAMessage;
  requestId : option jsstring
}.

Record MessageUpdate : Type := {
  update_key : WAMessageKey;
  pollUpdates : bool
}.

(** [contact.imgUrl]: [undefined], [null] or ['changed']. *)
Inductive img_field : Type := img_undefined | img_null | img_changed.

Record Contact : Type := { contact_id : jsstring; imgUrl : img_field }.

Record HistorySet : Type := {
  chats : nat;
  contacts : nat;
  history_messages : nat;
  on_demand : bool
}.

(** The map from event name to event data handed to the handler; the
    events that are only printed carry their printed form. *)
Record BaileysEventMap : Type := {
  connection_update : option ConnectionUpdate;
  creds_update : option jsstring;
  labels_association : option jsstring;
  labels_edit : option jsstring;
  call : option jsstring;
  messaging_history_set : option HistorySet;
  messages_upsert : option MessagesUpsert;
  messages_update : option (list MessageUpdate);
  message_receipt_update : option jsstring;
  messages_reaction : option jsstring;
  presence_update : option jsstring;
  chats_update : option jsstring;
  contacts_update : option (list Contact);
  chats_delete : option jsstring
}.

Inductive presence : Type := composing | paused.

(** The requests the handler awaits: the commands of the session handle,
    and [saveCreds] of the credential store. *)
Inductive request : Type :=
| presenceSubscribe (jid : option jsstring)
| sendPresenceUpdate (p : presence) (jid : option jsstring)
| sendMessage (jid : option jsstring) (text : jsstring)
| readMessages (keys : list WAMessageKey)
| requestPairingCode (phone : option jsstring)
| requestPlaceholderResend (k : WAMessageKey)
| fetchMessageHistory (count : Z) (k : WAMessageKey) (timestamp : Z)
| profilePictureUrl (jid : jsstring)
| saveCreds.

Inductive log_line : Type :=
| log_using_version
| log_logged_out
| log_connection_update
| log_pairing_code (code : jsstring)
| log_qr (qr : jsstring)
| log_opened
| log_event (printed : jsstring)
| log_history (on_demand : bool)
| log_recv_messages
| log_placeholder_received (request_id : jsstring)
| log_placeholder_requested (message_id : jsstring)
| log_on_demand_requested (message_id : jsstring)
| log_replying (jid : option jsstring)
| log_poll_update
| log_profile_pic (jid : jsstring) (url : option jsstring).

(** What the program does to the outside, in the order it does it. *)
Inductive effect : Type :=
| Call (handle : nat) (r : request)
| Delay (ms : Z)
| Log (l : log_line)
| MakeSocket (handle : nat).

(** How a request ends. *)
Inductive reply : Type :=
| Resolve (v : jsstring)
| Reject.

Record world : Type := {
  handles : nat;            (* session handles made so far *)
  creds_file : jsstring;    (* the credentials persisted in baileys_auth_info *)
  redisClient : RedisClient.t;
  redis : server;
  trace : list effect
}.

Definition M (A : Type) : Type := world → result A * world.

Definition ret {A} (a : A) : M A := λ w, (Ok a, w).

Definition bind {A B} (m : M A) (k : A → M B) : M B :=
  λ w, match m w with
       | (Ok a, w') => k a w'
       | (Throw e, w') => (Throw e, w')
       end.

Notation "'let*' x := m 'in' k" := (bind m (λ x, k))
  (at level 10, x name, m at level 100, k at level 200).
Notation "m ;;; k" := (bind m (λ _, k))
  (at level 100, k at level 200, right associativity).

Definition when (b : bool) (m : M unit) : M unit := if b then m else ret ().

(** [for (const x of l) { await body(x) }] *)
Fixpoint for_of {A} (l : list A) (body : A → M unit) : M unit :=
  match l with
  | [] => ret ()
  | x :: l' => body x ;;; for_of l' body
  end.

(** [promise.catch(() => null)] *)
Definition catch_null {A} (m : M A) : M (option A) :=
  λ w, match m w with
       | (Ok a, w') => (Ok (Some a), w')
       | (Throw _, w') => (Ok None, w')
       end.

Definition emit (e : effect) : M unit :=
  λ w, (Ok (), {| handles := handles w; creds_file := creds_file w;
                  redisClient := redisClient w; redis := redis w;
                  trace := trace w ++ [e] |}).

Definition console_log (l : log_line) : M unit := emit (Log l).

(** Modelled from the spec: [delay] of the protocol library, the wait of
    [ms] milliseconds of the presence choreography. *)
Definition delay (ms : Z) : M unit := emit (Delay ms).

(** [await redisClient.<op>(...)] on the process-wide client. *)
Definition on_redis {A} (op : RedisClient.t → server → result A * server) : M A :=
  λ w, let '(r, s') := op (redisClient w) (redis w) in
       (r, {| handles := handles w; creds_file := creds_file w;
              redisClient := redisClient w; redis := s'; trace := trace w |}).

Definition write_creds (c : jsstring) : M unit :=
  λ w, (Ok (), {| handles := handles w; creds_file := c;
                  redisClient := redisClient w; redis := redis w;
                  trace := trace w |}).

(** A string is truthy when it is present and not empty. *)
Definition truthy_str (s : option jsstring) : bool :=
  match s with
  | Some (_ :: _) => true
  | _ => false
  end.

(** [a || b] on optional strings. *)
Definition or_str (a b : option jsstring) : option jsstring :=
  if truthy_str a then a else b.

(** The template literal [`pairing_code:${phoneNumber}`]. *)
Definition pairing_key (phoneNumber : option jsstring) : jsstring :=
  str "pairing_code:" ++ default (str "undefined") phoneNumber.

Section Controller.

(** [DisconnectReason.loggedOut] and [isJidNewsletter] of the protocol
    library, the two feature flags and the phone number
    [process.argv.slice(3)[1]]. *)
Variable loggedOut : Z.
Variable isJidNewsletter : option jsstring → bool.
Variable doReplies : bool.
Variable usePairingCode : bool.
Variable phoneNumber : option jsstring.

(** The collaborators: how a request ends, given all that happened
    before it. *)
Variable env : list effect → request → reply.

(** [await sock.<command>(...)] on the handle [h], [await saveCreds()]. *)
Definition await (h : nat) (r : request) : M jsstring :=
  λ w, let w' := {| handles := handles w; creds_file := creds_file w;
                    redisClient := redisClient w; redis := redis w;
                    trace := trace w ++ [Call h r] |} in
       match env (trace w) r with
       | Resolve v => (Ok v, w')
       | Reject => (Throw OperationFailed, w')
       end.

(** [startSock()] up to [return sock]: the credentials are read, the
    version is fetched and printed, and [makeWASocket] makes the next
    handle, on which the handler below is registered.  Modelled from the
    spec: [useMultiFileAuthState] only loads the persisted credentials and
    [makeWASocket] gives a fresh session handle.  The call in the handler
    is not awaited; it is recorded where it is made. *)
Definition startSock : M nat :=
  λ w, (Ok (handles w),
        {| handles := S (handles w); creds_file := creds_file w;
           redisClient := redisClient w; redis := redis w;
           trace := trace w ++ [Log log_using_version; MakeSocket (handles w)] |}).

Definition sendMessageWTyping (h : nat) (msg : jsstring) (jid : option jsstring)
  : M unit :=
  await h (presenceSubscribe jid) ;;;
  delay 500 ;;;
  await h (sendPresenceUpdate composing jid) ;;;
  delay 2000 ;;;
  await h (sendPresenceUpdate paused jid) ;;;
  await h (sendMessage jid msg) ;;;
  ret ().

(** The body of [if (events['connection.update'])]; [registered] is
    [sock.authState.creds.registered] when the batch is handled. *)
Definition on_connection_update (h : nat) (registered : bool)
    (update : ConnectionUpdate) : M unit :=
  when (bool_decide (connection update = Some close))
    (if bool_decide (statusCode update ≠ Some loggedOut)
     then startSock ;;; ret ()
     else console_log log_logged_out) ;;;
  console_log log_connection_update ;;;
  when (bool_decide (connection update = None) && negb registered)
    (when usePairingCode
       (let* code := await h (requestPairingCode phoneNumber) in
        on_redis (λ c, RedisClient.set c (pairing_key phoneNumber)
                         (JStr code) (Some (60 * 5)%Z)) ;;;
        console_log (log_pairing_code code)) ;;;
     match qr update with
     | Some (c :: q) => console_log (log_qr (c :: q))
     | _ => ret ()
     end) ;;;
  when (bool_decide (connection update = Some open))
    (console_log log_opened).

Definition on_creds_update (h : nat) (creds : jsstring) : M unit :=
  await h saveCreds ;;; write_creds creds.

(** The auto-reply of the [messages.upsert] branch. *)
Definition reply_to (h : nat) (msg : WAMessage) : M unit :=
  console_log (log_replying (remoteJid (key msg))) ;;;
  await h (readMessages [key msg]) ;;;
  sendMessageWTyping h (str "Hello there!") (remoteJid (key msg)).

(** The body of [for (const msg of upsert.messages)]. *)
Definition on_message (h : nat) (upsert : MessagesUpsert) (msg : WAMessage)
  : M unit :=
  when (truthy_str (conversation msg) || truthy_str (extendedText msg))
    (let text := or_str (conversation msg) (extendedText msg) in
     when (bool_decide (text = Some (str "requestPlaceholder"))
           && negb (truthy_str (requestId upsert)))
       (let* messageId := await h (requestPlaceholderResend (key msg)) in
        console_log (log_placeholder_requested messageId)) ;;;
     when (bool_decide (text = Some (str "onDemandHistSync")))
       (let* messageId :=
          await h (fetchMessageHistory 50 (key msg) (messageTimestamp msg)) in
        console_log (log_on_demand_requested messageId)) ;;;
     when (negb (fromMe (key msg)) && doReplies
           && negb (isJidNewsletter (remoteJid (key msg))))
       (reply_to h msg)).

Definition on_messages_upsert (h : nat) (upsert : MessagesUpsert) : M unit :=
  console_log log_recv_messages ;;;
  match requestId upsert with
  | Some (c :: r) => console_log (log_placeholder_received (c :: r))
  | _ => ret ()
  end ;;;
  match upsert_kind upsert with
  | notify => for_of (messages upsert) (on_message h upsert)
  | append => ret ()
  end.

Definition on_messages_update (l : list MessageUpdate) : M unit :=
  console_log (log_event (str "messages.update")) ;;;
  for_of l (λ u, when (pollUpdates u) (console_log log_poll_update)).

Definition on_contacts_update (h : nat) (l : list Contact) : M unit :=
  for_of l (λ contact,
    match imgUrl contact with
    | img_undefined => ret ()
    | img_null => console_log (log_profile_pic (contact_id contact) None)
    | img_changed =>
        let* newUrl := catch_null (await h (profilePictureUrl (contact_id contact))) in
        console_log (log_profile_pic (contact_id contact) newUrl)
    end).

(** [if (events[name]) { ... }] *)
Definition on_event {A} (e : option A) (handler : A → M unit) : M unit :=
  match e with
  | Some data => handler data
  | None => ret ()
  end.

Definition print_event (e : option jsstring) : M unit :=
  on_event e (λ printed, console_log (log_event printed)).

(** The handler given to [sock.ev.process] for the handle [h]. *)
Definition process (h : nat) (registered : bool) (events : BaileysEventMap)
  : M unit :=
  on_event (connection_update events) (on_connection_update h registered) ;;;
  on_event (creds_update events) (on_creds_update h) ;;;
  print_event (labels_association events) ;;;
  print_event (labels_edit events) ;;;
  print_event (call events) ;;;
  on_event (messaging_history_set events)
    (λ hs, when (on_demand hs) (console_log (log_history true)) ;;;
           console_log (log_history false)) ;;;
  on_event (messages_upsert events) (on_messages_upsert h) ;;;
  on_event (messages_update events) on_messages_update ;;;
  print_event (message_receipt_update events) ;;;
  print_event (messages_reaction events) ;;;
  print_event (presence_update events) ;;;
  print_event (chats_update events) ;;;
  on_event (contacts_update events) (on_contacts_update h) ;;;
  print_event (chats_delete events).

End Controller.

(** ** The running program *)

Definition init_world (cfg : RedisConfig) (srv : server) (creds : jsstring) : world :=
  {| handles := 0; creds_file := creds;
     redisClient := RedisClient.constructor cfg; redis := srv; trace := [] |}.

(** The world together with the session handles that are still connected.
    Modelled from the spec: the lifetime of a session handle is one
    connection attempt, so a handle whose connection closed delivers no
    further batch. *)
Record system : Type := { sys_world : world; live_handles : list nat }.

Definition is_close (events : BaileysEventMap) : bool :=
  match connection_update events with
  | Some u => bool_decide (connection u = Some close)
  | None => false
  end.

Section Program.

Variable loggedOut : Z.
Variable isJidNewsletter : option jsstring → bool.
Variable doReplies : bool.
Variable usePairingCode : bool.
Variable phoneNumber : option jsstring.
Variable env : list effect → request → reply.

Definition run_process (h : nat) (registered : bool) (events : BaileysEventMap)
  : M unit :=
  process loggedOut isJidNewsletter doReplies usePairingCode phoneNumber env
    h registered events.

(** The last line of the program: [startSock()]. *)
Definition program_start (cfg : RedisConfig) (srv : server) (creds : jsstring)
  : system :=
  {| sys_world := (startSock (init_world cfg srv creds)).2; live_handles := [0%nat] |}.

(** The handle [h] delivers a batch: the handler runs, [h] is gone when
    the batch reports its close, and the handles made meanwhile are live. *)
Definition deliver (h : nat) (registered : bool) (events : BaileysEventMap)
    (sys : system) : system :=
  let w := sys_world sys in
  let w' := (run_process h registered events w).2 in
  {| sys_world := w';
     live_handles :=
       (if is_close events
        then filter (λ x, x ≠ h) (live_handles sys)
        else live_handles sys)
       ++ seq (handles w) (handles w' - handles w) |}.

Definition with_store (s : server) (sys : system) : system :=
  {| sys_world := {| handles := handles (sys_world sys);
                     creds_file := creds_file (sys_world sys);
                     redisClient := redisClient (sys_world sys);
                     redis := s;
                     trace := trace (sys_world sys) |};
     live_handles := live_handles sys |}.

Inductive step : system → system → Prop :=
| step_deliver h registered events sys :
    h ∈ live_handles sys → step sys (deliver h registered events sys)
| step_store s sys :
    step sys (with_store s sys).

End Program.

(** The requests and delays among the effects, without the console lines. *)
Definition is_action (e : effect) : bool :=
  match e with
  | Call _ _ | Delay _ => true
  | Log _ | MakeSocket _ => false
  end.

Definition actions_since (w w' : world) : list effect :=
  List.filter is_action (drop (length (trace w)) (trace w')).

(** The choreography of an automatic reply to [msg] on the handle [h]. *)
Definition choreography (h : nat) (msg : WAMessage) : list effect :=
  let jid := remoteJid (key msg) in
  [Call h (readMessages [key msg]);
   Call h (presenceSubscribe jid);
   Delay 500;
   Call h (sendPresenceUpdate composing jid);
   Delay 2000;
   Call h (sendPresenceUpdate paused jid);
   Call h (sendMessage jid (str "Hello there!"))].

(** ** Well-formed values *)

(** The values JSON text can carry: strings hold code units, numbers are
    finite and in normal form, and an object has each property once. *)
Fixpoint js_value (v : json) : Prop :=
  match v with
  | JNull | JBool _ => True
  | JNum m e => normal_number m e
  | JStr s => wf_string s
  | JArr l => fold_right (λ x P, js_value x ∧ P) True l
  | JObj l =>
      NoDup (map fst l)
      ∧ fold_right (λ kv P, wf_string kv.1 ∧ js_value kv.2 ∧ P) True l
  | JNonFinite _ => False
  end.

Definition is_string (v : json) : bool :=
  match v with
  | JStr _ => true
  | _ => false
  end.

(** The values [get] gives back as they were [set]: every value but the
    strings that are themselves JSON text. *)
Definition survives (v : json) : Prop :=
  match v with
  | JStr s => JSON_parse s = None
  | _ => True
  end.

(** ** Shapes of JSON text used in the proofs *)

(** Digit sequences without leading and trailing zero: the significant
    digits of a number in normal form. *)
Definition significant (ds : list N) : Prop :=
  Forall (λ d, d < 10) ds ∧ (∃ d r, ds = d :: r ∧ d ≠ 0) ∧ last ds ≠ Some 0.

Definition no_digit_head (s : jsstring) : Prop :=
  match s with
  | c :: _ => is_digit c = false
  | [] => True
  end.

(** What follows a value inside JSON text: the end of the text, a comma,
    or a closing bracket or brace. *)
Definition delimited (s : jsstring) : Prop :=
  match s with
  | [] => True
  | c :: _ => c = Ch.comma ∨ c = Ch.rbracket ∨ c = Ch.rbrace
  end.

(** The shape of a number literal: sign, integer digits, fraction digits
    and exponent. *)
Definition int_digits (ip : list N) : Prop :=
  ip = [0] ∨ (Forall (λ d, d < 10) ip ∧ ∃ d r, ip = d :: r ∧ d ≠ 0).

Definition frac_text (fp : list N) : jsstring :=
  match fp with
  | [] => []
  | _ :: _ => Ch.dot :: chars fp
  end.

Definition exp_text (x : option (bool * list N)) : jsstring :=
  match x with
  | None => []
  | Some (neg, xs) => Ch.lower_e :: (if neg then Ch.minus else Ch.plus) :: chars xs
  end.

Definition exp_val (x : option (bool * list N)) : Z :=
  match x with
  | None => 0
  | Some (neg, xs) => if neg then - Z.of_N (val xs) else Z.of_N (val xs)
  end.

Definition exp_ok (x : option (bool * list N)) : Prop :=
  match x with
  | None => True
  | Some (_, xs) => Forall (λ d, d < 10) xs ∧ xs ≠ []
  end.

Definition literal (neg : bool) (ip fp : list N) (x : option (bool * list N))
  : jsstring :=
  (if neg then [Ch.minus] else []) ++ chars ip ++ frac_text fp ++ exp_text x.

(** The step of [lex_string] after one character of the string. *)
Definition then_cons (c : N) (r : option (jsstring * jsstring))
  : option (jsstring * jsstring) :=
  '(t, rest) ← r; Some (c :: t, rest).

(** The number of parser calls a value needs. *)
Fixpoint json_size (v : json) : nat :=
  match v with
  | JArr l => S (fold_right (λ x n, S (json_size x + n)) 0%nat l)
  | JObj l => S (fold_right (λ kv n, S (json_size kv.2 + n)) 0%nat l)
  | _ => 1
  end.

(** The first character of a value's text: no white space, no closing
    bracket. *)
Definition starts_value (s : jsstring) : Prop :=
  match s with
  | [] => False
  | c :: _ => is_ws c = false ∧ c ≠ Ch.rbracket ∧ c ≠ Ch.rbrace
  end.

(** The text of a value parses back to it, whatever follows. *)
Definition parses_back (v : json) : Prop :=
  js_value v → ∀ f rest, (json_size v ≤ f)%nat → delimited rest →
  parse_value f (stringify v ++ rest) = Some (v, rest).

(** ** Views of the store, sample clients and stores *)

(** The keys the store holds at its present time. *)
Definition live_keys (t : Z) (d : gmap jsstring entry) : gset jsstring :=
  dom (filter (λ kv, live t kv.2 = true) d).

(** A client after a successful [connect()], and a store to reach. *)
Definition sample_config : RedisConfig :=
  {| host := str "localhost"; port := 6379; password := None;
     cfg_db := Some 0%Z; cfg_maxRetries := Some 3%Z;
     connectTimeout := Some 5000%Z |}.

Definition empty_store : server := {| db := ∅; now := 0; link_up := true |}.

Definition store_down : server := {| db := ∅; now := 0; link_up := false |}.

Definition ready_client : RedisClient.t :=
  (RedisClient.connect true empty_store (RedisClient.constructor sample_config)).2.

(** The delay the strategy returns for attempt [n] within the cap. *)
Definition backoff (n : Z) : Z := Z.min (n * 50) 500.

(** ** Following the world through the handler *)

(** The computation [m] leaves [w] and its final world related by [R]. *)
Definition keeps {A} (R : world → world → Prop) (m : M A) : Prop :=
  ∀ w, R w (m w).2.

(** The component [f] of the world is the same before and after. *)
Definition same {B} (f : world → B) (w w' : world) : Prop := f w' = f w.

(** The batch closes the connection for another reason than logout. *)
Definition is_restart (loggedOut : Z) (events : BaileysEventMap) : bool :=
  match connection_update events with
  | Some u =>
      bool_decide (connection u = Some close)
      && bool_decide (statusCode u ≠ Some loggedOut)
  | None => false
  end.

(** Collaborators that resolve every request, with an empty answer. *)
Definition env_resolves : list effect → request → reply := λ _ _, Resolve [].

(** Collaborators that reject [readMessages] and resolve the rest. *)
Definition env_rejects_read : list effect → request → reply :=
  λ _ r, match r with
         | readMessages _ => Reject
         | _ => Resolve []
         end.

(** Collaborators that reject [profilePictureUrl] and resolve the rest. *)
Definition env_rejects_picture : list effect → request → reply :=
  λ _ r, match r with
         | profilePictureUrl _ => Reject
         | _ => Resolve []
         end.

(** Collaborators that answer [requestPairingCode] with the code
    [ABCD1234]. *)
Definition env_pairing : list effect → request → reply :=
  λ _ r, match r with
         | requestPairingCode _ => Resolve (str "ABCD1234")
         | _ => Resolve []
         end.

Definition text_message (from : string) (text : string) : WAMessage :=
  {| key := {| remoteJid := Some (str from); fromMe := false; id := str text |};
     conversation := Some (str text); extendedText := None;
     messageTimestamp := 0 |}.

Definition connection_event (u : ConnectionUpdate) : BaileysEventMap :=
  {| connection_update := Some u; creds_update := None;
     labels_association := None; labels_edit := None; call := None;
     messaging_history_set := None; messages_upsert := None;
     messages_update := None; message_receipt_update := None;
     messages_reaction := None; presence_update := None;
     chats_update := None; contacts_update := None; chats_delete := None |}.

(** Two text messages to answer, then a contact with a new picture. *)
Definition two_messages_batch : BaileysEventMap :=
  {| connection_update := None; creds_update := None;
     labels_association := None; labels_edit := None; call := None;
     messaging_history_set := None;
     messages_upsert :=
       Some {| upsert_kind := notify;
               messages := [text_message "alice" "hi"; text_message "bob" "hello"];
               requestId := None |};
     messages_update := None; message_receipt_update := None;
     messages_reaction := None; presence_update := None;
     chats_update := None;
     contacts_update :=
       Some [{| contact_id := str "carol"; imgUrl := img_changed |};
             {| contact_id := str "dave"; imgUrl := img_changed |}];
     chats_delete := None |}.

Definition never_newsletter : option jsstring → bool := λ _, false.

(** ** What a call or a batch does and does not *)

(** [Number.isSafeInteger]: the integers a JavaScript number holds exactly. *)
Definition safe_integer (z : Z) : Prop := (Z.abs z < 2 ^ 53)%Z.

(** The effects [w'] has after those of [w] all satisfy [P]. *)
Definition adds (P : effect → Prop) (w w' : world) : Prop :=
  ∃ new, trace w' = trace w ++ new ∧ Forall P new.

(** The computation ends without throwing, whatever the world. *)
Definition completes {A} (m : M A) : Prop := ∀ w, ∃ a, (m w).1 = Ok a.

(** The requests and delays of the automatic reply. *)
Definition is_reply_effect (e : effect) : bool :=
  match e with
  | Call _ (readMessages _) | Call _ (presenceSubscribe _)
  | Call _ (sendPresenceUpdate _ _) | Call _ (sendMessage _ _) | Delay _ => true
  | _ => false
  end.

Definition is_log (e : effect) : bool :=
  match e with
  | Log _ => true
  | _ => false
  end.

(** The batch takes the handler into the pairing-code branch. *)
Definition pairing_due (usePairingCode registered : bool) (events : BaileysEventMap)
  : bool :=
  match connection_update events with
  | Some u => bool_decide (connection u = None) && negb registered && usePairingCode
  | None => false
  end.
(** * Properties *)

Ltac Zify.zify_post_hook ::= Z.to_euclidean_division_equations.

(** ** Decimal digits *)

Lemma val_snoc ds d : val (ds ++ [d]) = 10 * val ds + d.
Proof. unfold val. by rewrite fold_left_app. Qed.

Lemma val_app ds1 ds2 :
  val (ds1 ++ ds2) = val ds1 * 10 ^ N.of_nat (length ds2) + val ds2.
Proof.
  induction ds2 as [|d ds2 IH] using rev_ind.
  - rewrite app_nil_r. simpl. unfold val at 3. simpl. lia.
  - rewrite app_assoc, !val_snoc, IH, length_app. simpl.
    replace (N.of_nat (length ds2 + 1)) with (N.succ (N.of_nat (length ds2))) by lia.
    rewrite N.pow_succ_r'. lia.
Qed.

Lemma val_digits_le f n :
  n < 2 ^ N.of_nat f → val (rev (digits_le f n)) = n.
Proof.
  revert n. induction f as [|f IH]; intros n Hn.
  - simpl in *. unfold val. simpl. lia.
  - cbn [digits_le]. destruct (N.eqb_spec n 0) as [->|Hz]; [done|].
    cbn [rev]. rewrite val_snoc, IH.
    + lia.
    + replace (N.of_nat (S f)) with (N.succ (N.of_nat f)) in Hn by lia.
      rewrite N.pow_succ_r' in Hn. lia.
Qed.

Lemma digits_le_lt f n : Forall (λ d, d < 10) (digits_le f n).
Proof.
  revert n. induction f as [|f IH]; intros n; cbn [digits_le]; [constructor|].
  destruct (n =? 0); constructor; [lia | apply IH].
Qed.

Lemma digits_le_last f n d :
  n < 2 ^ N.of_nat f → last (digits_le f n) = Some d → d ≠ 0.
Proof.
  revert n. induction f as [|f IH]; intros n Hn; cbn [digits_le]; [done|].
  destruct (N.eqb_spec n 0) as [->|Hz]; [done|].
  replace (N.of_nat (S f)) with (N.succ (N.of_nat f)) in Hn by lia.
  rewrite N.pow_succ_r' in Hn.
  assert (Hq : n / 10 < 2 ^ N.of_nat f) by lia.
  destruct (digits_le f (n / 10)) as [|d' l] eqn:E.
  - intros [= <-]. destruct f; cbn [digits_le] in E.
    + simpl in Hq. lia.
    + destruct (N.eqb_spec (n / 10) 0); [lia | done].
  - rewrite last_cons_cons. rewrite <- E. by apply IH.
Qed.

Lemma digits_le_head f n d l :
  digits_le f n = d :: l → d = n mod 10.
Proof.
  destruct f; cbn [digits_le]; [done|]. destruct (n =? 0); [done|]. congruence.
Qed.

Lemma digits_le_nonempty n :
  n ≠ 0 → digits_le (N.to_nat (N.size n)) n ≠ [].
Proof.
  intros Hn. pose proof (N.size_gt n) as Hs.
  destruct (N.to_nat (N.size n)) as [|f] eqn:E.
  - assert (N.size n = 0) as Hz by lia. rewrite Hz in Hs. simpl in Hs. lia.
  - cbn [digits_le]. destruct (N.eqb_spec n 0); [lia | done].
Qed.

Lemma val_digits n : val (digits n) = n.
Proof.
  unfold digits. destruct (N.eqb_spec n 0) as [->|Hn]; [done|].
  apply val_digits_le. rewrite N2Nat.id. apply N.size_gt.
Qed.

Lemma digits_lt n : Forall (λ d, d < 10) (digits n).
Proof.
  unfold digits. destruct (n =? 0).
  - repeat constructor.
  - apply Forall_rev, digits_le_lt.
Qed.

Lemma digits_head n :
  n ≠ 0 → ∃ d r, digits n = d :: r ∧ d ≠ 0.
Proof.
  intros Hn. unfold digits. destruct (N.eqb_spec n 0); [done|].
  pose proof (digits_le_nonempty n Hn) as Hne.
  destruct (digits_le (N.to_nat (N.size n)) n) as [|x l] eqn:E using rev_ind; [done|].
  clear IHl. rewrite rev_unit. exists x, (rev l). split; [done|].
  eapply (digits_le_last (N.to_nat (N.size n)) n).
  - rewrite N2Nat.id. apply N.size_gt.
  - rewrite E. apply last_snoc.
Qed.

Lemma digits_last n : n ≠ 0 → last (digits n) = Some (n mod 10).
Proof.
  intros Hn. unfold digits. destruct (N.eqb_spec n 0); [done|].
  pose proof (digits_le_nonempty n Hn) as Hne.
  destruct (digits_le (N.to_nat (N.size n)) n) as [|x l] eqn:E; [done|].
  apply digits_le_head in E as ->. cbn [rev]. apply last_snoc.
Qed.

Lemma digits_significant n :
  n mod 10 ≠ 0 → significant (digits n).
Proof.
  intros Hn. assert (n ≠ 0) as Hz by (intros ->; done).
  split; [apply digits_lt|]. split; [by apply digits_head|].
  rewrite digits_last by done. congruence.
Qed.

Lemma digits_nonempty n : digits n ≠ [].
Proof.
  unfold digits. destruct (N.eqb_spec n 0) as [|Hn]; [done|].
  intros H. apply (f_equal (@rev N)) in H. rewrite rev_involutive in H.
  by apply digits_le_nonempty in H.
Qed.

(** ** Number literals *)

Ltac char_cases :=
  repeat match goal with
  | |- context [N.eqb ?a ?b] => destruct (N.eqb_spec a b); try lia
  | |- context [N.ltb ?a ?b] => destruct (N.ltb_spec a b); try lia
  | |- context [N.leb ?a ?b] => destruct (N.leb_spec a b); try lia
  end.

Lemma is_digit_char d : d < 10 → is_digit (48 + d) = true.
Proof. intros. unfold is_digit. by char_cases. Qed.

Lemma chars_app a b : chars (a ++ b) = chars a ++ chars b.
Proof. apply map_app. Qed.

Lemma chars_replicate n : chars (replicate n 0) = replicate n Ch.zero.
Proof. induction n; simpl; [done | by f_equal]. Qed.

Lemma take_digits_chars ds rest :
  Forall (λ d, d < 10) ds → no_digit_head rest →
  take_digits (chars ds ++ rest) = (ds, rest).
Proof.
  intros Hds Hrest. induction Hds as [|d ds Hd _ IH]; cbn [chars map app].
  - destruct rest as [|c r]; [done|]. cbn [no_digit_head take_digits] in *.
    by rewrite Hrest.
  - cbn [take_digits]. rewrite is_digit_char by done.
    fold (chars ds). rewrite IH. f_equal. f_equal. lia.
Qed.

Lemma delimited_no_digit s : delimited s → no_digit_head s.
Proof. destruct s as [|c r]; [done|]. by intros [-> | [-> | ->]]. Qed.

Lemma lex_int_text ip rest :
  int_digits ip → no_digit_head rest → lex_int (chars ip ++ rest) = Some (ip, rest).
Proof.
  intros [-> | [Hds (d & r & -> & Hd)]] Hrest; [done|].
  pose proof (Forall_inv Hds) as Hlt. cbn beta in Hlt.
  change (chars (d :: r) ++ rest) with ((48 + d) :: (chars r ++ rest)).
  unfold lex_int. unfold Ch.zero. destruct (N.eqb_spec (48 + d) 48); [lia|].
  rewrite is_digit_char by done.
  change ((48 + d) :: (chars r ++ rest)) with (chars (d :: r) ++ rest).
  by rewrite take_digits_chars.
Qed.

Lemma lex_frac_text fp rest :
  Forall (λ d, d < 10) fp → no_digit_head rest →
  (match rest with c :: _ => c ≠ Ch.dot | [] => True end) →
  lex_frac (frac_text fp ++ rest) = Some (fp, rest).
Proof.
  intros Hfp Hrest Hdot. destruct fp as [|d r].
  - simpl. destruct rest as [|c rest']; [done|]. simpl.
    by destruct (N.eqb_spec c Ch.dot).
  - cbn [frac_text app lex_frac]. rewrite N.eqb_refl.
    by rewrite take_digits_chars.
Qed.

Lemma lex_exp_text x rest :
  exp_ok x → no_digit_head rest →
  (match rest with c :: _ => c ≠ Ch.lower_e ∧ c ≠ Ch.upper_e | [] => True end) →
  lex_exp (exp_text x ++ rest) = Some (exp_val x, rest).
Proof.
  intros Hx Hrest He. destruct x as [[neg xs]|].
  - destruct Hx as [Hxs Hne]. cbn [exp_text app lex_exp].
    rewrite N.eqb_refl. cbn [orb].
    assert (lex_sign ((if neg then Ch.minus else Ch.plus) :: chars xs ++ rest)
            = (neg, chars xs ++ rest)) as -> by by destruct neg.
    rewrite take_digits_chars by done.
    destruct xs; [done|]. by destruct neg.
  - simpl. destruct rest as [|c rest']; [done|]. simpl.
    destruct He as [He1 He2].
    destruct (N.eqb_spec c Ch.lower_e); [done|].
    by destruct (N.eqb_spec c Ch.upper_e).
Qed.

Lemma exp_text_head x rest :
  delimited rest →
  no_digit_head (exp_text x ++ rest)
  ∧ match exp_text x ++ rest with c :: _ => c ≠ Ch.dot | [] => True end.
Proof.
  intros Hrest. destruct x as [[neg xs]|]; [done|]. simpl.
  split; [by apply delimited_no_digit|].
  destruct rest as [|c r]; [done|]. by destruct Hrest as [-> | [-> | ->]].
Qed.

Lemma frac_text_head fp rest :
  no_digit_head rest → no_digit_head (frac_text fp ++ rest).
Proof. by destruct fp. Qed.

Lemma lex_number_literal neg ip fp x rest :
  int_digits ip → Forall (λ d, d < 10) fp → exp_ok x → delimited rest →
  lex_number (literal neg ip fp x ++ rest)
  = Some (normalize neg (ip ++ fp) (exp_val x - Z.of_nat (length fp)), rest).
Proof.
  intros Hip Hfp Hx Hrest. unfold literal, lex_number.
  destruct (exp_text_head x rest Hrest) as [Hx1 Hx2].
  assert (lex_int (chars ip ++ frac_text fp ++ exp_text x ++ rest)
          = Some (ip, frac_text fp ++ exp_text x ++ rest)) as Hint.
  { apply lex_int_text; [done|]. by apply frac_text_head. }
  assert (lex_frac (frac_text fp ++ exp_text x ++ rest)
          = Some (fp, exp_text x ++ rest)) as Hfrac by by apply lex_frac_text.
  assert (lex_exp (exp_text x ++ rest) = Some (exp_val x, rest)) as Hexp.
  { apply lex_exp_text; [done | by apply delimited_no_digit|].
    destruct rest as [|c r]; [done|]. by destruct Hrest as [-> | [-> | ->]]. }
  destruct neg.
  - cbn [app]. rewrite N.eqb_refl. rewrite <- !app_assoc, Hint. simpl.
    rewrite Hfrac. simpl. by rewrite Hexp.
  - cbn [app]. rewrite <- !app_assoc.
    destruct (chars ip ++ frac_text fp ++ exp_text x ++ rest) as [|c r] eqn:E.
    { by destruct Hip as [-> | [_ (d & r & -> & _)]]. }
    assert ((c =? Ch.minus) = false) as ->.
    { destruct Hip as [-> | [Hds (d & r' & -> & _)]].
      - by injection E as <- _.
      - pose proof (Forall_inv Hds). injection E as <- _.
        apply N.eqb_neq. unfold Ch.minus. cbn beta in *. lia. }
    rewrite Hint. simpl. rewrite Hfrac. simpl. by rewrite Hexp.
Qed.

Lemma drop_zeros_replicate z l : drop_zeros (replicate z 0 ++ l) = drop_zeros l.
Proof. induction z; simpl; done. Qed.

Lemma rev_replicate {A} n (x : A) : rev (replicate n x) = replicate n x.
Proof.
  induction n as [|n IH]; [done|]. cbn [replicate rev]. rewrite IH.
  clear IH. induction n; simpl; [done | by f_equal].
Qed.

Lemma strip_zeros_replicate l z : strip_zeros (l ++ replicate z 0) = strip_zeros l.
Proof.
  unfold strip_zeros. by rewrite rev_app_distr, rev_replicate, drop_zeros_replicate.
Qed.

Lemma strip_zeros_id l : last l ≠ Some 0 → strip_zeros l = l.
Proof.
  unfold strip_zeros. destruct l as [|x l _] using rev_ind; [done|].
  rewrite last_snoc, rev_unit. intros Hx. cbn [drop_zeros].
  destruct (N.eqb_spec x 0) as [->|_]; [done|].
  by rewrite <- rev_unit, rev_involutive.
Qed.

Lemma val_replicate_0 a ds : val (replicate a 0 ++ ds) = val ds.
Proof.
  rewrite val_app. assert (val (replicate a 0) = 0) as ->; [|lia].
  induction a as [|a IH]; [done|]. rewrite <- IH at 2. done.
Qed.

Lemma val_significant ds : significant ds → val ds ≠ 0.
Proof.
  intros (_ & (d & r & -> & Hd) & _).
  change (d :: r) with ([d] ++ r). rewrite val_app.
  assert (val [d] = d) as -> by (unfold val; simpl; lia).
  pose proof (N.pow_nonzero 10 (N.of_nat (length r))). nia.
Qed.

Lemma normalize_significant neg a ds z e :
  significant ds →
  normalize neg (replicate a 0 ++ ds ++ replicate z 0) e
  = ((if neg then - Z.of_N (val ds) else Z.of_N (val ds))%Z, (e + Z.of_nat z)%Z).
Proof.
  intros Hs. pose proof (val_significant ds Hs) as Hv.
  destruct Hs as (_ & (d & r & Hds & _) & Hlast).
  unfold normalize. rewrite app_assoc, strip_zeros_replicate.
  rewrite strip_zeros_id.
  - rewrite val_replicate_0. destruct (Z.eqb_spec (Z.of_N (val ds)) 0); [lia|].
    f_equal. rewrite !length_app, !length_replicate. lia.
  - rewrite Hds. rewrite last_app_cons. by rewrite <- Hds.
Qed.

Lemma significant_abs m :
  (m mod 10 ≠ 0)%Z → significant (digits (Z.abs_N m)).
Proof. intros Hm. apply digits_significant. lia. Qed.

Lemma lex_show_number m e rest :
  normal_number m e → delimited rest →
  lex_number (show_number m e ++ rest) = Some (m, e, rest).
Proof.
  unfold normal_number, show_number. intros Hn Hrest.
  destruct (Z.eqb_spec m 0) as [->|Hm].
  { subst e. change (str "0") with (literal false [0] [] None).
    rewrite lex_number_literal; try done. by left. }
  pose proof (significant_abs m Hn) as Hs.
  pose proof (val_digits (Z.abs_N m)) as Hv.
  set (ds := digits (Z.abs_N m)) in *.
  set (neg := (m <? 0)%Z).
  assert (Hsgn : (if neg then - Z.of_N (val ds) else Z.of_N (val ds))%Z = m).
  { subst neg. rewrite Hv. destruct (Z.ltb_spec m 0); lia. }
  pose proof (λ a z x, normalize_significant neg a ds z x Hs) as Hnorm.
  rewrite Hsgn in Hnorm.
  destruct Hs as (Hlt & (d & r & Hds & Hd) & Hlast).
  assert (Hlen : (0 < length ds)%nat) by (rewrite Hds; simpl; lia).
  set (k := Z.of_nat (length ds)) in *.
  set (n := (k + e)%Z) in *.
  destruct ((k <=? n)%Z && (n <=? 21)%Z) eqn:C1.
  { (* the digits followed by zeros *)
    pose proof (lex_number_literal neg (ds ++ replicate (Z.to_nat (n - k)) 0) [] None rest) as H.
    unfold literal in H. cbn [frac_text exp_text exp_val exp_ok length] in H.
    rewrite !app_nil_r, chars_app, chars_replicate in H.
    rewrite <- !app_assoc in *. rewrite H; clear H; try done.
    - specialize (Hnorm 0%nat). cbn [replicate app] in Hnorm.
      rewrite Hnorm. do 3 f_equal. lia.
    - right. split.
      + apply Forall_app. split; [done|]. apply Forall_replicate. lia.
      + exists d, (r ++ replicate (Z.to_nat (n - k)) 0). by rewrite Hds. }
  destruct ((0 <? n)%Z && (n <=? 21)%Z) eqn:C2.
  { (* the decimal point inside the digits *)
    assert (Hnk : (Z.to_nat n < length ds)%nat) by lia.
    pose proof (lex_number_literal neg (take (Z.to_nat n) ds) (drop (Z.to_nat n) ds) None rest) as H.
    unfold literal in H. cbn [exp_text exp_val exp_ok] in H.
    destruct (drop (Z.to_nat n) ds) as [|f fs] eqn:Hdrop.
    { apply (f_equal length) in Hdrop. rewrite length_drop in Hdrop. simpl in Hdrop. lia. }
    cbn [frac_text] in H. rewrite !app_nil_r in H.
    rewrite <- !app_assoc in *. cbn [app] in *. rewrite H; clear H; try done.
    - rewrite <- Hdrop, take_drop. specialize (Hnorm 0%nat 0%nat).
      cbn [replicate app] in Hnorm. rewrite app_nil_r in Hnorm.
      rewrite Hnorm. do 3 f_equal. rewrite length_drop. lia.
    - right. split; [by apply Forall_take|].
      rewrite Hds. destruct (Z.to_nat n) as [|n'] eqn:En; [lia|].
      cbn [take]. by eexists _, _.
    - rewrite <- Hdrop. by apply Forall_drop. }
  destruct ((-6 <? n)%Z && (n <=? 0)%Z) eqn:C3.
  { (* zeros between the decimal point and the digits *)
    pose proof (lex_number_literal neg [0] (replicate (Z.to_nat (- n)) 0 ++ ds) None rest) as H.
    unfold literal in H. cbn [exp_text exp_val exp_ok] in H.
    assert (frac_text (replicate (Z.to_nat (- n)) 0 ++ ds)
            = Ch.dot :: replicate (Z.to_nat (- n)) Ch.zero ++ chars ds) as Hf.
    { rewrite <- chars_replicate, <- chars_app.
      destruct (replicate (Z.to_nat (- n)) 0 ++ ds) eqn:E; [|done].
      apply (f_equal length) in E. rewrite length_app in E. simpl in E. lia. }
    rewrite Hf, !app_nil_r in H. cbn [chars map] in H.
    change (48 + 0) with Ch.zero in H.
    rewrite <- !app_assoc in *. cbn [app] in *. rewrite <- !app_assoc in *.
    rewrite H; clear H; try done.
    - specialize (Hnorm (S (Z.to_nat (- n))) 0%nat).
      cbn [replicate app] in Hnorm. rewrite app_nil_r in Hnorm.
      rewrite Hnorm. do 3 f_equal. rewrite length_app, length_replicate. lia.
    - by left.
    - apply Forall_app. split; [|done]. apply Forall_replicate. lia. }
  (* exponent notation *)
  set (x := (n - 1)%Z).
  pose proof (lex_number_literal neg [d] r
                (Some ((x <? 0)%Z, digits (Z.abs_N x))) rest) as H.
  unfold literal in H. cbn [exp_text exp_val exp_ok] in H.
  rewrite val_digits in H.
  assert ((if (x <? 0)%Z then (- Z.of_N (Z.abs_N x))%Z else Z.of_N (Z.abs_N x)) = x) as Hx.
  { destruct (Z.ltb_spec x 0); lia. }
  rewrite Hx in H. change ([d] ++ r) with (d :: r) in H. rewrite <- Hds in H.
  specialize (Hnorm 0%nat 0%nat). cbn [replicate app] in Hnorm.
  rewrite app_nil_r in Hnorm. rewrite Hnorm in H.
  assert ((x - Z.of_nat (length r) + Z.of_nat 0)%Z = e) as He.
  { subst x n k. rewrite Hds. simpl length. lia. }
  rewrite He in H.
  assert (Hok : Forall (λ d, d < 10) r ∧ d < 10).
  { rewrite Hds in Hlt. by inversion Hlt. }
  rewrite Hds. destruct r as [|r0 r1].
  - cbn [frac_text] in H. rewrite <- ?app_assoc in *. cbn [app] in *.
    rewrite <- ?app_assoc in *. cbn [app] in *.
    apply H; try done.
    + right. split; [repeat constructor; apply Hok | by eexists _, _].
    + split; [apply digits_lt | apply digits_nonempty].
  - cbn [frac_text] in H. rewrite <- ?app_assoc in *. cbn [app] in *.
    rewrite <- ?app_assoc in *. cbn [app] in *.
    apply H; try done.
    + right. split; [repeat constructor; apply Hok | by eexists _, _].
    + apply Hok.
    + split; [apply digits_lt | apply digits_nonempty].
Qed.

(** ** String literals *)

Lemma hex_val_digit d : d < 16 → hex_val (hex_digit d) = Some d.
Proof.
  intros Hd. unfold hex_val, hex_digit, is_digit.
  destruct (N.ltb_spec d 10).
  - destruct (N.leb_spec 48 (48 + d)); [|lia].
    destruct (N.leb_spec (48 + d) 57); [|lia]. simpl. f_equal. lia.
  - destruct (N.leb_spec (87 + d) 57); [lia|]. rewrite andb_false_r.
    destruct (N.leb_spec 97 (87 + d)); [|lia].
    destruct (N.leb_spec (87 + d) 102); [|lia]. simpl. f_equal. lia.
Qed.

Lemma hex4_escape c :
  c < 65536 →
  hex4 (hex_digit (c / 4096 mod 16)) (hex_digit (c / 256 mod 16))
       (hex_digit (c / 16 mod 16)) (hex_digit (c mod 16)) = Some c.
Proof.
  intros Hc. unfold hex4. rewrite !hex_val_digit by lia. simpl. f_equal. lia.
Qed.

Lemma lex_string_raw c s :
  32 ≤ c → c ≠ Ch.quote → c ≠ Ch.backslash →
  lex_string (c :: s) = then_cons c (lex_string s).
Proof.
  intros H1 H2 H3. cbn [lex_string].
  destruct (N.eqb_spec c Ch.quote); [done|].
  destruct (N.eqb_spec c Ch.backslash); [done|].
  destruct (N.ltb_spec c 32); [lia|]. done.
Qed.

Lemma lex_string_unicode c s :
  c < 65536 → lex_string (unicode_escape c ++ s) = then_cons c (lex_string s).
Proof.
  intros Hc. unfold unicode_escape. cbn [app lex_string].
  change (Ch.backslash =? Ch.quote) with false.
  change (Ch.backslash =? Ch.backslash) with true.
  change (Ch.lower_u =? Ch.lower_u) with true. cbn iota.
  by rewrite hex4_escape.
Qed.

Lemma lex_string_short c e s :
  escape_short c = Some e →
  lex_string (Ch.backslash :: e :: s) = then_cons c (lex_string s).
Proof.
  unfold escape_short. intros He.
  repeat match type of He with
  | (if ?a =? ?b then _ else _) = _ =>
      destruct (N.eqb_spec a b) as [->|?]; [by injection He as <-|]
  end. done.
Qed.

Lemma escape_short_none c :
  escape_short c = None → c ≠ Ch.quote ∧ c ≠ Ch.backslash.
Proof.
  unfold escape_short. intros He.
  repeat match type of He with
  | (if ?a =? ?b then _ else _) = _ =>
      destruct (N.eqb_spec a b) as [?|?]; [discriminate He|]
  end. by split.
Qed.

Lemma lex_quote_body_bounded n s rest :
  (length s ≤ n)%nat → wf_string s →
  lex_string (quote_body s ++ Ch.quote :: rest) = Some (s, rest).
Proof.
  revert s. induction n as [|n IH]; intros s Hlen Hwf.
  { destruct s; [done | simpl in Hlen; lia]. }
  destruct s as [|c r]; [done|].
  apply Forall_cons in Hwf as [Hc Hr]. cbn beta in Hc. simpl in Hlen.
  assert (IHr : lex_string (quote_body r ++ Ch.quote :: rest) = Some (r, rest))
    by (apply IH; [lia | done]).
  cbn [quote_body]. destruct (escape_short c) as [e|] eqn:Esc.
  { cbn [app]. by rewrite (lex_string_short c), IHr. }
  apply escape_short_none in Esc as [Hq Hb].
  destruct (N.ltb_spec c 32) as [Hlow|Hlow].
  { by rewrite <- app_assoc, lex_string_unicode, IHr. }
  destruct (is_high_surrogate c) eqn:Hhi.
  - destruct r as [|c2 r2].
    + by rewrite lex_string_unicode.
    + destruct (is_low_surrogate c2) eqn:Hlo.
      * apply Forall_cons in Hr as [Hc2 Hr2]. simpl in Hlen.
        cbn [app]. rewrite lex_string_raw by done.
        unfold is_low_surrogate in Hlo.
        apply andb_true_iff in Hlo as [Hlo%N.leb_le _].
        rewrite (lex_string_raw c2);
          [| lia | unfold Ch.quote; lia | unfold Ch.backslash; lia].
        rewrite IH; [done | lia | done].
      * by rewrite <- app_assoc, lex_string_unicode, IHr.
  - destruct (is_low_surrogate c).
    + by rewrite <- app_assoc, lex_string_unicode, IHr.
    + cbn [app]. by rewrite lex_string_raw, IHr.
Qed.

Lemma lex_quote_body s rest :
  wf_string s → lex_string (quote_body s ++ Ch.quote :: rest) = Some (s, rest).
Proof. by apply (lex_quote_body_bounded (length s)). Qed.

(** ** Values *)

Lemma json_ind (P : json → Prop) :
  P JNull → (∀ b, P (JBool b)) → (∀ m e, P (JNum m e)) → (∀ s, P (JStr s)) →
  (∀ l, Forall P l → P (JArr l)) →
  (∀ l, Forall (λ kv, P kv.2) l → P (JObj l)) →
  (∀ x, P (JNonFinite x)) →
  ∀ v, P v.
Proof.
  intros Hnull Hbool Hnum Hstr Harr Hobj Hnf. fix IH 1. intros [| | | |l|l|x].
  - exact Hnull.
  - apply Hbool.
  - apply Hnum.
  - apply Hstr.
  - apply Harr. induction l as [|x l IHl]; constructor; [apply IH | exact IHl].
  - apply Hobj. induction l as [|[k x] l IHl]; constructor; [apply IH | exact IHl].
  - apply Hnf.
Qed.

Lemma js_value_arr l : js_value (JArr l) ↔ Forall js_value l.
Proof.
  cbn [js_value]. induction l as [|x l IH]; cbn [fold_right].
  - split; [constructor | done].
  - rewrite Forall_cons. by rewrite IH.
Qed.

Lemma js_value_obj l :
  js_value (JObj l)
  ↔ NoDup (map fst l) ∧ Forall (λ kv, wf_string kv.1 ∧ js_value kv.2) l.
Proof.
  cbn [js_value]. apply and_iff_compat_l.
  induction l as [|x l IH]; cbn [fold_right].
  - split; [constructor | done].
  - rewrite Forall_cons. rewrite IH. tauto.
Qed.

Lemma obj_set_fresh k v acc :
  k ∉ map fst acc → obj_set k v acc = acc ++ [(k, v)].
Proof.
  induction acc as [|[k' v'] acc IH]; [done|]. cbn [map fst obj_set app].
  intros Hk. apply not_elem_of_cons in Hk as [Hne Hk].
  destruct (decide (k = k')); [done|]. by rewrite IH.
Qed.

Lemma obj_of_members_acc acc l :
  NoDup (map fst (acc ++ l)) →
  fold_left (λ acc kv, obj_set kv.1 kv.2 acc) l acc = acc ++ l.
Proof.
  revert acc. induction l as [|[k v] l IH]; intros acc Hnd.
  - by rewrite app_nil_r.
  - cbn [fold_left fst snd]. rewrite obj_set_fresh.
    + rewrite IH; rewrite <- app_assoc; done.
    + rewrite map_app in Hnd. apply NoDup_app in Hnd as (_ & Hdisj & _).
      intros Hin. apply (Hdisj k Hin). cbn [map fst]. apply elem_of_cons. by left.
Qed.

Lemma obj_of_members_nodup l : NoDup (map fst l) → obj_of_members l = l.
Proof. intros H. unfold obj_of_members. by rewrite obj_of_members_acc. Qed.

Lemma show_number_head m e :
  normal_number m e →
  ∃ c s, show_number m e = c :: s ∧ (c = Ch.minus ∨ is_digit c = true).
Proof.
  unfold normal_number, show_number. intros Hn.
  destruct (Z.eqb_spec m 0) as [->|Hm]; [by eexists _, _; split; [|right]|].
  destruct (m <? 0)%Z; [by eexists _, _; split; [|left]|].
  cbn [app].
  destruct (significant_abs m Hn) as (Hlt & (d & r & Hds & Hd) & _).
  rewrite Hds in *. apply Forall_cons in Hlt as [Hd10 _]. cbn beta in Hd10.
  set (k := Z.of_nat (length (d :: r))).
  set (n := (k + e)%Z).
  assert (is_digit (48 + d) = true) as Hdig by by apply is_digit_char.
  destruct ((k <=? n)%Z && (n <=? 21)%Z) eqn:C1; [by eexists _, _; split; [|right]|].
  destruct ((0 <? n)%Z && (n <=? 21)%Z) eqn:C2.
  { destruct (Z.to_nat n) as [|n'] eqn:En; [lia|].
    by eexists _, _; split; [|right]. }
  destruct ((-6 <? n)%Z && (n <=? 0)%Z) eqn:C3; [by eexists _, _; split; [|right]|].
  destruct r; by eexists _, _; split; [|right].
Qed.

Lemma stringify_starts v rest :
  js_value v → starts_value (stringify v ++ rest).
Proof.
  destruct v as [|[]|m e|s|l|l|x]; try done.
  intros Hn. destruct (show_number_head m e Hn) as (c & s & Hshow & Hc).
  cbn [stringify]. rewrite Hshow. cbn [app starts_value]. unfold is_ws, is_digit in *.
  destruct Hc as [->|Hc]; [done|].
  apply andb_true_iff in Hc as [H1%N.leb_le H2%N.leb_le].
  unfold Ch.tab, Ch.lf, Ch.cr, Ch.space, Ch.rbracket, Ch.rbrace.
  repeat split; [|lia|lia]. by char_cases.
Qed.

Lemma skip_ws_start s : starts_value s → skip_ws s = s.
Proof. destruct s as [|c r]; [done|]. intros (Hc & _). simpl. by rewrite Hc. Qed.

Lemma parse_elems_S f s :
  parse_elems (S f) s
  = '(v, r) ← parse_value f s;
    match skip_ws r with
    | c :: r' =>
        if c =? Ch.comma then '(l, rest) ← parse_elems f r'; Some (v :: l, rest)
        else if c =? Ch.rbracket then Some ([v], r')
        else None
    | [] => None
    end.
Proof. done. Qed.

Lemma parse_members_S f s :
  parse_members (S f) s
  = match skip_ws s with
    | c :: r =>
        if c =? Ch.quote then
          '(k, r1) ← lex_string r;
          match skip_ws r1 with
          | c1 :: r2 =>
              if c1 =? Ch.colon then
                '(v, r3) ← parse_value f r2;
                match skip_ws r3 with
                | c3 :: r4 =>
                    if c3 =? Ch.comma then
                      '(l, rest) ← parse_members f r4; Some ((k, v) :: l, rest)
                    else if c3 =? Ch.rbrace then Some ([(k, v)], r4)
                    else None
                | [] => None
                end
              else None
          | [] => None
          end
        else None
    | [] => None
    end.
Proof. done. Qed.

Lemma parse_value_number f c r :
  c = Ch.minus ∨ is_digit c = true →
  parse_value (S f) (c :: r)
  = '(m, e, rest) ← lex_number (c :: r); Some (JNum m e, rest).
Proof.
  intros Hc. cbn [parse_value skip_ws].
  assert (is_ws c = false ∧ (c =? Ch.lbrace) = false ∧ (c =? Ch.lbracket) = false
          ∧ (c =? Ch.quote) = false ∧ (c =? Ch.lower_t) = false
          ∧ (c =? Ch.lower_f) = false ∧ (c =? Ch.lower_n) = false)
    as (-> & -> & -> & -> & -> & -> & ->); [|done].
  destruct Hc as [->|Hc]; [done|]. unfold is_digit in Hc.
  apply andb_true_iff in Hc as [H1%N.leb_le H2%N.leb_le].
  unfold is_ws, Ch.tab, Ch.lf, Ch.cr, Ch.space, Ch.lbrace, Ch.lbracket, Ch.quote,
    Ch.lower_t, Ch.lower_f, Ch.lower_n.
  repeat split; by char_cases.
Qed.

Lemma parse_value_array f c r :
  starts_value (c :: r) →
  parse_value (S f) (Ch.lbracket :: c :: r)
  = '(l, rest) ← parse_elems f (c :: r); Some (JArr l, rest).
Proof.
  intros (Hws & Hb & _). cbn [parse_value skip_ws].
  change (is_ws Ch.lbracket) with false. cbn iota.
  change (Ch.lbracket =? Ch.lbrace) with false.
  change (Ch.lbracket =? Ch.lbracket) with true. cbn iota.
  cbn [skip_ws]. rewrite Hws. by destruct (N.eqb_spec c Ch.rbracket).
Qed.

Lemma parse_value_object f c r :
  starts_value (c :: r) →
  parse_value (S f) (Ch.lbrace :: c :: r)
  = '(l, rest) ← parse_members f (c :: r); Some (JObj (obj_of_members l), rest).
Proof.
  intros (Hws & _ & Hb). cbn [parse_value skip_ws].
  change (is_ws Ch.lbrace) with false. cbn iota.
  change (Ch.lbrace =? Ch.lbrace) with true. cbn iota.
  cbn [skip_ws]. rewrite Hws. by destruct (N.eqb_spec c Ch.rbrace).
Qed.

Lemma parse_elems_join l :
  l ≠ [] → Forall parses_back l → Forall js_value l →
  ∀ f rest,
    (fold_right (λ x n, S (json_size x + n)) 0 l ≤ f)%nat →
    parse_elems f (join_comma (map stringify l) ++ Ch.rbracket :: rest)
    = Some (l, rest).
Proof.
  intros Hne HP. induction HP as [|x l Hx HP IH]; [done|]. clear Hne.
  intros Hv f rest Hf. apply Forall_cons in Hv as [Hvx Hvl].
  cbn [fold_right] in Hf. destruct f as [|f]; [lia|].
  rewrite parse_elems_S. destruct l as [|y l]; cbn [fold_right] in Hf.
  - cbn [map join_comma]. rewrite (Hx Hvx); [done | lia | by right; left].
  - change (join_comma (map stringify (x :: y :: l)))
      with (stringify x ++ Ch.comma :: join_comma (map stringify (y :: l))).
    rewrite <- app_assoc. cbn [app].
    rewrite (Hx Hvx); [| lia | by left]. cbn.
    rewrite IH; [done | done | done | cbn [fold_right]; lia].
Qed.

Lemma parse_member_step f k v tail :
  wf_string k →
  parse_value f (stringify v ++ tail) = Some (v, tail) →
  parse_members (S f) ((quote k ++ Ch.colon :: stringify v) ++ tail)
  = match skip_ws tail with
    | c3 :: r4 =>
        if c3 =? Ch.comma then
          '(l, rest) ← parse_members f r4; Some ((k, v) :: l, rest)
        else if c3 =? Ch.rbrace then Some ([(k, v)], r4)
        else None
    | [] => None
    end.
Proof.
  intros Hk Hv. rewrite parse_members_S. unfold quote.
  cbn [app skip_ws]. change (is_ws Ch.quote) with false. cbn iota.
  change (Ch.quote =? Ch.quote) with true. cbn iota.
  rewrite <- !app_assoc. cbn [app].
  rewrite lex_quote_body by done. cbn [mbind option_bind skip_ws].
  change (is_ws Ch.colon) with false. cbn iota.
  change (Ch.colon =? Ch.colon) with true. cbn iota.
  by rewrite Hv.
Qed.

Lemma parse_members_join l :
  l ≠ [] → Forall (λ kv, parses_back kv.2) l →
  Forall (λ kv, wf_string kv.1 ∧ js_value kv.2) l →
  ∀ f rest,
    (fold_right (λ kv n, S (json_size kv.2 + n)) 0 l ≤ f)%nat →
    parse_members f
      (join_comma (map (λ kv, quote kv.1 ++ Ch.colon :: stringify kv.2) l)
       ++ Ch.rbrace :: rest)
    = Some (l, rest).
Proof.
  intros Hne HP. induction HP as [|[k x] l Hx HP IH]; [done|]. clear Hne.
  intros Hv f rest Hf. apply Forall_cons in Hv as [[Hk Hvx] Hvl].
  cbn [fst snd] in *. cbn [fold_right snd] in Hf. destruct f as [|f]; [lia|].
  destruct l as [|y l]; cbn [fold_right] in Hf.
  - cbn [map join_comma fst snd].
    rewrite parse_member_step; [done | done |].
    apply (Hx Hvx); [lia | by right; right].
  - cbn [map join_comma fst snd]. rewrite <- app_assoc. cbn [app].
    rewrite parse_member_step; [| done | apply (Hx Hvx); [lia | by left]].
    cbn [skip_ws]. change (is_ws Ch.comma) with false. cbn iota.
    change (Ch.comma =? Ch.comma) with true. cbn iota.
    cbn [map join_comma fst snd] in IH.
    rewrite IH; [done | done | done | cbn [fold_right]; lia].
Qed.

Lemma join_comma_starts {A} (text : A → jsstring) l rest :
  l ≠ [] → (∀ x r, x ∈ l → starts_value (text x ++ r)) →
  starts_value (join_comma (map text l) ++ rest).
Proof.
  destruct l as [|x [|y l]]; [done | |]; intros _ H; cbn [map join_comma].
  - apply H. by left.
  - rewrite <- app_assoc. apply H. by left.
Qed.

Lemma stringify_arr l rest :
  stringify (JArr l) ++ rest
  = Ch.lbracket :: join_comma (map stringify l) ++ Ch.rbracket :: rest.
Proof. cbn [stringify app]. by rewrite <- app_assoc. Qed.

Lemma stringify_obj l rest :
  stringify (JObj l) ++ rest
  = Ch.lbrace
    :: join_comma (map (λ kv, quote kv.1 ++ Ch.colon :: stringify kv.2) l)
    ++ Ch.rbrace :: rest.
Proof. cbn [stringify app]. by rewrite <- app_assoc. Qed.

(** [JSON.parse] undoes [JSON.stringify], whatever fuel beyond the size of
    the value the parser is given. *)
Lemma parse_stringify v : parses_back v.
Proof.
  induction v as [|b|m e|s|l IH|l IH|x] using json_ind;
    intros Hv f rest Hf Hrest; (destruct f as [|f]; [simpl in Hf; lia|]).
  - done.
  - by destruct b.
  - destruct (show_number_head m e Hv) as (c & s & Hs & Hc).
    cbn [stringify]. rewrite Hs. cbn [app].
    rewrite parse_value_number by done.
    change (c :: s ++ rest) with ((c :: s) ++ rest). rewrite <- Hs.
    by rewrite lex_show_number.
  - cbn [stringify]. unfold quote. cbn [app parse_value skip_ws].
    change (is_ws Ch.quote) with false. cbn iota.
    change (Ch.quote =? Ch.lbrace) with false.
    change (Ch.quote =? Ch.lbracket) with false.
    change (Ch.quote =? Ch.quote) with true. cbn iota.
    rewrite <- app_assoc. cbn [app]. by rewrite lex_quote_body.
  - apply js_value_arr in Hv. rewrite stringify_arr. cbn [json_size] in Hf.
    destruct l as [|x l]; [done|].
    pose proof (join_comma_starts stringify (x :: l)
                  (Ch.rbracket :: rest)) as Hst.
    destruct (join_comma (map stringify (x :: l)) ++ Ch.rbracket :: rest)
      as [|c r] eqn:E.
    { exfalso. apply Hst; [done|]. intros y r' Hy. apply stringify_starts.
      by eapply Forall_forall in Hv. }
    rewrite parse_value_array.
    + rewrite <- E. rewrite parse_elems_join; [done | done | done | done | lia].
    + apply Hst; [done|]. intros y r' Hy. apply stringify_starts.
      by eapply Forall_forall in Hv.
  - apply js_value_obj in Hv as [Hnd Hv]. rewrite stringify_obj.
    cbn [json_size] in Hf. destruct l as [|x l]; [done|].
    pose proof (join_comma_starts (λ kv, quote kv.1 ++ Ch.colon :: stringify kv.2)
                  (x :: l) (Ch.rbrace :: rest)) as Hst.
    destruct (join_comma (map _ (x :: l)) ++ Ch.rbrace :: rest)
      as [|c r] eqn:E.
    { exfalso. apply Hst; done. }
    rewrite parse_value_object.
    + rewrite <- E. rewrite parse_members_join; [| done | done | done | lia].
      cbn [mbind option_bind]. by rewrite obj_of_members_nodup.
    + apply Hst; done.
  - destruct Hv.
Qed.

Lemma size_elems_le {A} (text : A → jsstring) (sz : A → nat) l :
  Forall (λ x, (sz x ≤ length (text x))%nat) l →
  (fold_right (λ x n, S (sz x + n)) 0 l ≤ S (length (join_comma (map text l))))%nat.
Proof.
  induction 1 as [|x l Hx Hl IH]; [simpl; lia|].
  cbn [fold_right map]. destruct l as [|y l].
  - simpl. lia.
  - change (join_comma (text x :: map text (y :: l)))
      with (text x ++ Ch.comma :: join_comma (map text (y :: l))).
    rewrite length_app. cbn [length]. lia.
Qed.

Lemma size_le_length v : js_value v → (json_size v ≤ length (stringify v))%nat.
Proof.
  induction v as [|b|m e|s|l IH|l IH|x] using json_ind; intros Hv.
  - simpl. lia.
  - destruct b; simpl; lia.
  - destruct (show_number_head m e Hv) as (c & s & Hs & _).
    cbn [stringify json_size]. rewrite Hs. simpl. lia.
  - cbn [stringify json_size]. unfold quote. simpl. lia.
  - apply js_value_arr in Hv. cbn [stringify json_size length].
    rewrite length_app. cbn [length].
    pose proof (size_elems_le stringify json_size l) as H.
    etrans; [apply le_n_S, H|lia].
    apply Forall_forall. intros x Hx.
    eapply Forall_forall in IH; [|done]. apply IH.
    by eapply Forall_forall in Hv.
  - apply js_value_obj in Hv as [_ Hv]. cbn [stringify json_size length].
    rewrite length_app. cbn [length].
    pose proof (size_elems_le (λ kv, quote kv.1 ++ Ch.colon :: stringify kv.2)
                  (λ kv, json_size kv.2) l) as H.
    etrans; [apply le_n_S, H|lia].
    apply Forall_forall. intros x Hx.
    eapply Forall_forall in IH; [|done]. eapply Forall_forall in Hv; [|done].
    rewrite length_app. cbn [length]. specialize (IH (proj2 Hv)). lia.
  - destruct Hv.
Qed.

(** [JSON.parse(JSON.stringify(v))] is [v]. *)
Lemma JSON_parse_stringify v : js_value v → JSON_parse (stringify v) = Some v.
Proof.
  intros Hv. unfold JSON_parse.
  pose proof (parse_stringify v Hv (S (length (stringify v))) []) as H.
  rewrite app_nil_r in H. rewrite H; [done| |done].
  pose proof (size_le_length v Hv). lia.
Qed.

Lemma decode_encode_structured v :
  js_value v → is_string v = false → decode (encode v) = v.
Proof.
  intros Hv Hs. unfold decode.
  assert (encode v = stringify v) as -> by by destruct v.
  by rewrite JSON_parse_stringify.
Qed.

Lemma decode_encode_plain s :
  JSON_parse s = None → decode (encode (JStr s)) = JStr s.
Proof. intros H. cbn [encode]. unfold decode. by rewrite H. Qed.

Lemma lex_string_length_bounded n s t rest :
  (length s ≤ n)%nat → lex_string s = Some (t, rest) →
  (length t + length rest < length s)%nat.
Proof.
  revert s t rest. induction n as [|n IH]; intros s t rest Hn.
  { destruct s; [done | simpl in Hn; lia]. }
  destruct s as [|c r]; [done|]. cbn [lex_string]. simpl in Hn.
  destruct (c =? Ch.quote). { intros [= <- <-]. simpl. lia. }
  destruct (c =? Ch.backslash).
  - destruct r as [|x r1]; [done|]. simpl in Hn. destruct (x =? Ch.lower_u).
    + destruct r1 as [|h1 [|h2 [|h3 [|h4 r2]]]]; try done.
      destruct (hex4 h1 h2 h3 h4); [|done]. cbn [mbind option_bind].
      destruct (lex_string r2) as [[t' rest']|] eqn:E; [|done].
      intros [= <- <-]. simpl in Hn. apply IH in E; [|lia]. simpl. lia.
    + destruct (unescape x); [|done]. cbn [mbind option_bind].
      destruct (lex_string r1) as [[t' rest']|] eqn:E; [|done].
      intros [= <- <-]. apply IH in E; [|lia]. simpl. lia.
  - destruct (c <? 32); [done|].
    destruct (lex_string r) as [[t' rest']|] eqn:E; [|done].
    intros [= <- <-]. apply IH in E; [|lia]. simpl. lia.
Qed.

Lemma skip_ws_length s : (length (skip_ws s) ≤ length s)%nat.
Proof.
  induction s as [|c r IH]; [done|]. cbn [skip_ws].
  destruct (is_ws c); simpl; lia.
Qed.

Lemma parse_value_string f s t rest :
  parse_value f s = Some (JStr t, rest) → (length t < length s)%nat.
Proof.
  destruct f as [|f]; [done|]. cbn [parse_value].
  pose proof (skip_ws_length s) as Hws.
  destruct (skip_ws s) as [|c r]; [done|].
  repeat match goal with
  | |- context [if ?b then _ else _] => destruct b
  | |- context [match skip_ws ?x with _ => _ end] => destruct (skip_ws x)
  | |- context [mbind _ ?x] =>
      let E := fresh "E" in destruct x as [[]|] eqn:E; cbn [mbind option_bind]
  | |- context [mbind _ ?x] =>
      let E := fresh "E" in destruct x as [|] eqn:E; cbn [mbind option_bind]
  end; try done; [|by destruct p].
  intros [= <- <-].
  match goal with
  | E : lex_string _ = Some _ |- _ =>
      apply (lex_string_length_bounded _ _ _ _ (le_n _)) in E
  end.
  simpl in Hws. lia.
Qed.

(** No text is the JSON text of the very string it is. *)
Lemma JSON_parse_not_self s : JSON_parse s ≠ Some (JStr s).
Proof.
  unfold JSON_parse.
  destruct (parse_value (S (length s)) s) as [[v rest]|] eqn:E; [|done].
  destruct (skip_ws rest); [|done]. intros [= ->].
  apply parse_value_string in E. lia.
Qed.

Lemma decode_encode_iff v :
  js_value v → decode (encode v) = v ↔ survives v.
Proof.
  intros Hv. split.
  - destruct v as [| | |s| | |]; try done. cbn [encode survives]. unfold decode.
    destruct (JSON_parse s) eqn:E; [|done]. intros ->.
    by apply JSON_parse_not_self in E.
  - destruct v as [| | |s| | |]; intros Hs;
      try (by apply decode_encode_structured).
    by apply decode_encode_plain.
Qed.

(** The model on sample texts. *)

Example stringify_numbers :
  stringify (JArr [JNum 15 (-1); JNum (-1) 21; JNum 1 (-7); JNum 123 18;
                   JNum 12 (-7); JNum 12 (-8); JNum 0 0])
  = str "[1.5,-1e+21,1e-7,123000000000000000000,0.0000012,1.2e-7,0]".
Proof. by vm_compute. Qed.

Example parse_with_white_space :
  JSON_parse (str " [1, 2.50e1, -0, 1E-2, true, null, {}, [ ]] ")
  = Some (JArr [JNum 1 0; JNum 25 0; JNum 0 0; JNum 1 (-2); JBool true; JNull;
                JObj []; JArr []]).
Proof. by vm_compute. Qed.

Example parse_repeated_key :
  JSON_parse (str "{" ++ quote (str "a") ++ str ":1," ++ quote (str "b")
              ++ str ":2," ++ quote (str "a") ++ str ":3}")
  = Some (JObj [(str "a", JNum 3 0); (str "b", JNum 2 0)]).
Proof. by vm_compute. Qed.

Example parse_escapes :
  JSON_parse (Ch.quote :: str "a\n\u00e9\/" ++ [Ch.quote])
  = Some (JStr [97; 10; 233; 47]).
Proof. by vm_compute. Qed.

Example parse_rejects :
  JSON_parse (str "012") = None ∧ JSON_parse (str "1.") = None
  ∧ JSON_parse (str "[1,]") = None ∧ JSON_parse (str "nul") = None
  ∧ JSON_parse (str "{}x") = None ∧ JSON_parse (str "-") = None
  ∧ JSON_parse (str "") = None ∧ JSON_parse (str "+5") = None
  ∧ JSON_parse (str "hello") = None.
Proof. by vm_compute. Qed.

(** ** RedisClient: the guard, the codec through the store *)

Lemma isReady_ready_client : RedisClient.isReady ready_client = true.
Proof. done. Qed.

Lemma set_get c k v srv :
  RedisClient.isReady c = true → link_up srv = true →
  ∃ srv', RedisClient.set c k v None srv = (Ok (), srv')
          ∧ RedisClient.get c k srv' = (Ok (decode (encode v)), srv').
Proof.
  intros Hc Hs. unfold RedisClient.set, RedisClient.get. rewrite Hc. cbn [negb].
  cbn [RedisClient.truthy]. unfold NodeRedis.set, NodeRedis.get. rewrite Hs.
  eexists. split; [done|]. cbn [link_up with_db]. rewrite Hs.
  unfold lookup_live. cbn [db with_db now]. rewrite lookup_insert_eq. done.
Qed.

(** C1 as stated fails: the string ["null"] is stored as the text [null],
    which reads back as the value [null]; the string ["{}"] reads back as an
    empty object; the number NaN is stored as the text [null] too. *)
Lemma string_of_json_text_not_round_trip :
  js_value (JStr (str "null"))
  ∧ decode (encode (JStr (str "null"))) ≠ JStr (str "null")
  ∧ decode (encode (JStr (str "{}"))) ≠ JStr (str "{}")
  ∧ decode (encode (JNonFinite NaN)) ≠ JNonFinite NaN
  ∧ (RedisClient.get ready_client (str "k")
       (RedisClient.set ready_client (str "k") (JStr (str "null")) None
          empty_store).2).1
    ≠ Ok (JStr (str "null")).
Proof.
  split; [by vm_compute; repeat constructor|].
  split; [by vm_compute|]. split; [by vm_compute|]. split; [by vm_compute|].
  destruct (set_get ready_client (str "k") (JStr (str "null")) empty_store)
    as (srv' & Hset & Hget); [done | done |].
  rewrite Hset. cbn [snd]. rewrite Hget. by vm_compute.
Qed.

(** C1 (amended): for a value [v] built from null, booleans, finite
    numbers, strings, arrays and objects, [decode (encode v)] is [v] exactly
    when [v] is not a string, or is a string that is not JSON text; on a
    ready store [get k] after [set k v] returns [decode (encode v)]. *)
Theorem set_get_round_trip v c k srv :
  js_value v → RedisClient.isReady c = true → link_up srv = true →
  (decode (encode v) = v ↔ survives v)
  ∧ ∃ srv', RedisClient.set c k v None srv = (Ok (), srv')
            ∧ RedisClient.get c k srv' = (Ok (decode (encode v)), srv').
Proof.
  intros Hv Hc Hs. split; [by apply decode_encode_iff | by apply set_get].
Qed.

Lemma set_get_round_trip_witness :
  let v := JArr [JNum 15 (-1); JStr (str "null"); JNull; JBool true] in
  (decode (encode v) = v ↔ survives v)
  ∧ ∃ srv', RedisClient.set ready_client (str "k") v None empty_store = (Ok (), srv')
            ∧ RedisClient.get ready_client (str "k") srv'
              = (Ok (decode (encode v)), srv').
Proof.
  apply (set_get_round_trip _ ready_client (str "k") empty_store).
  - vm_compute. repeat split; try lia. repeat constructor; vm_compute; lia.
  - reflexivity.
  - reflexivity.
Defined.

(** C3: while [isReady()] is false, [set] and [get] fail with the
    NotConnected error and send nothing to the store, so no error of the
    transport can reach the caller; [isReady()] is false on a new client,
    after the error handler ran and after a failed [connect()]. *)
Theorem not_ready_is_not_connected c key value expiresIn srv :
  RedisClient.isReady c = false →
  RedisClient.set c key value expiresIn srv = (Throw NotConnected, srv)
  ∧ RedisClient.get c key srv = (Throw NotConnected, srv)
  ∧ (∀ cfg, RedisClient.isReady (RedisClient.constructor cfg) = false)
  ∧ (∀ c', RedisClient.isReady (RedisClient.on_error c') = false)
  ∧ (∀ c' pkg s, (RedisClient.connect pkg s c').1 ≠ Ok () →
       RedisClient.isReady (RedisClient.connect pkg s c').2 = false).
Proof.
  intros Hc. unfold RedisClient.set, RedisClient.get. rewrite Hc.
  repeat split; try done.
  intros c' pkg s. unfold RedisClient.connect.
  destruct pkg; [|done]. by destruct (link_up s).
Qed.

Lemma not_ready_is_not_connected_witness :
  let c := RedisClient.constructor sample_config in
  RedisClient.set c (str "x") (JNum 1 0) (Some 30%Z) store_down
  = (Throw NotConnected, store_down)
  ∧ RedisClient.get c (str "x") store_down = (Throw NotConnected, store_down)
  ∧ (∀ cfg, RedisClient.isReady (RedisClient.constructor cfg) = false)
  ∧ (∀ c', RedisClient.isReady (RedisClient.on_error c') = false)
  ∧ (∀ c' pkg s, (RedisClient.connect pkg s c').1 ≠ Ok () →
       RedisClient.isReady (RedisClient.connect pkg s c').2 = false).
Proof.
  apply (not_ready_is_not_connected (RedisClient.constructor sample_config)).
  reflexivity.
Defined.

(** C9: on a ready store [get k] is [null] when [k] is absent, when the
    text stored under [k] is [null], and after the string ["null"] was
    set. *)
Theorem get_null_is_ambiguous c k srv :
  RedisClient.isReady c = true → link_up srv = true →
  (lookup_live srv k = None → (RedisClient.get c k srv).1 = Ok JNull)
  ∧ (∀ e, lookup_live srv k = Some e → e_text e = str "null" →
       (RedisClient.get c k srv).1 = Ok JNull)
  ∧ (RedisClient.get c k (RedisClient.set c k JNull None srv).2).1 = Ok JNull
  ∧ (RedisClient.get c k
       (RedisClient.set c k (JStr (str "null")) None srv).2).1 = Ok JNull.
Proof.
  intros Hc Hs. repeat split.
  - intros Hk. unfold RedisClient.get, NodeRedis.get. by rewrite Hc, Hs, Hk.
  - intros e Hk He. unfold RedisClient.get, NodeRedis.get.
    rewrite Hc, Hs, Hk. cbn. by rewrite He.
  - destruct (set_get c k JNull srv Hc Hs) as (srv' & Hset & Hget).
    rewrite Hset. cbn [snd]. by rewrite Hget.
  - destruct (set_get c k (JStr (str "null")) srv Hc Hs) as (srv' & Hset & Hget).
    rewrite Hset. cbn [snd]. by rewrite Hget.
Qed.

Lemma get_null_is_ambiguous_witness :
  let c := ready_client in
  let k := str "k" in
  let srv := empty_store in
  (lookup_live srv k = None → (RedisClient.get c k srv).1 = Ok JNull)
  ∧ (∀ e, lookup_live srv k = Some e → e_text e = str "null" →
       (RedisClient.get c k srv).1 = Ok JNull)
  ∧ (RedisClient.get c k (RedisClient.set c k JNull None srv).2).1 = Ok JNull
  ∧ (RedisClient.get c k
       (RedisClient.set c k (JStr (str "null")) None srv).2).1 = Ok JNull.
Proof.
  apply (get_null_is_ambiguous ready_client (str "k") empty_store); reflexivity.
Defined.

(** ** The reconnect strategy *)

Lemma reconnect_loop_from c fuel n :
  (Z.to_nat (RedisClient.maxRetries c - n + 1) < fuel)%nat →
  reconnect_loop fuel c n
  = Some (backoff <$> seqZ n (RedisClient.maxRetries c - n + 1)).
Proof.
  revert n. induction fuel as [|fuel IH]; intros n Hf; [lia|].
  cbn [reconnect_loop]. unfold RedisClient.reconnectStrategy.
  destruct (Z.ltb_spec (RedisClient.maxRetries c) n) as [Hgt|Hle].
  - by rewrite seqZ_nil by lia.
  - rewrite IH by lia. rewrite (seqZ_cons n) by lia.
    cbn [fmap list_fmap option_fmap option_map].
    replace (Z.pred (RedisClient.maxRetries c - n + 1))
      with (RedisClient.maxRetries c - (n + 1) + 1)%Z by lia.
    by replace (Z.succ n) with (n + 1)%Z by lia.
Qed.

(** C4: the strategy returns the delay [min (n * 50) 500] for every retry
    number [n] up to [maxRetries], 0 included, and the terminal error for
    every [n] beyond [maxRetries].  A socket that starts with the number
    [first] is therefore granted the attempts [first] .. [maxRetries]:
    started at 0, as by node-redis, that is [maxRetries + 1] reconnection
    attempts, the first after 0 ms, one more than [maxRetries]; started at
    1 it is [maxRetries]. *)
Theorem reconnect_grants_one_more c fuel :
  (0 ≤ RedisClient.maxRetries c)%Z →
  (Z.to_nat (RedisClient.maxRetries c) + 1 < fuel)%nat →
  (∀ n, (n ≤ RedisClient.maxRetries c)%Z →
     RedisClient.reconnectStrategy c n = RetryIn (Z.min (n * 50) 500))
  ∧ (∀ n, (RedisClient.maxRetries c < n)%Z →
       RedisClient.reconnectStrategy c n = GiveUp)
  ∧ (∀ first, (0 ≤ first ≤ RedisClient.maxRetries c + 1)%Z →
       ∃ delays,
         reconnect_loop fuel c first = Some delays
         ∧ delays = backoff <$> seqZ first (RedisClient.maxRetries c - first + 1)
         ∧ Z.of_nat (length delays) = (RedisClient.maxRetries c - first + 1)%Z)
  ∧ ∃ delays,
      reconnect_loop fuel c 0 = Some (0%Z :: delays)
      ∧ length (0%Z :: delays) = S (Z.to_nat (RedisClient.maxRetries c)).
Proof.
  intros Hm Hf.
  assert (∀ first, (0 ≤ first ≤ RedisClient.maxRetries c + 1)%Z →
            ∃ delays,
              reconnect_loop fuel c first = Some delays
              ∧ delays
                = backoff <$> seqZ first (RedisClient.maxRetries c - first + 1)
              ∧ Z.of_nat (length delays)
                = (RedisClient.maxRetries c - first + 1)%Z) as Hloop.
  { intros first Hfirst. eexists. split; [|split; [reflexivity|]].
    - apply reconnect_loop_from. lia.
    - rewrite length_fmap, length_seqZ. lia. }
  unfold RedisClient.reconnectStrategy. split; [|split; [|split]].
  - intros n Hn. by destruct (Z.ltb_spec (RedisClient.maxRetries c) n); [lia|].
  - intros n Hn. by destruct (Z.ltb_spec (RedisClient.maxRetries c) n); [|lia].
  - exact Hloop.
  - destruct (Hloop 0%Z) as (delays & Hl & Hd & Hlen); [lia|].
    rewrite seqZ_cons in Hd by lia. cbn [fmap list_fmap] in Hd.
    destruct delays as [|d delays]; [done|]. injection Hd as -> Hd.
    exists delays. split; [done|]. cbn [length] in *. lia.
Qed.

Lemma reconnect_grants_one_more_witness :
  let c := RedisClient.constructor sample_config in
  RedisClient.maxRetries c = 3%Z
  ∧ RedisClient.reconnectStrategy c 0 = RetryIn 0
  ∧ RedisClient.reconnectStrategy c 3 = RetryIn 150
  ∧ RedisClient.reconnectStrategy c 4 = GiveUp
  ∧ (∃ delays, reconnect_loop 10 c 1 = Some delays
               ∧ Z.of_nat (length delays) = 3%Z)
  ∧ ∃ delays, reconnect_loop 10 c 0 = Some (0%Z :: delays)
              ∧ length (0%Z :: delays) = 4%nat.
Proof.
  intros c.
  destruct (reconnect_grants_one_more c 10) as (Hle & Hgt & Hloop & Hzero);
    [vm_compute; discriminate | vm_compute; lia |].
  split; [reflexivity|].
  split; [apply (Hle 0%Z); vm_compute; discriminate|].
  split; [apply (Hle 3%Z); vm_compute; discriminate|].
  split; [apply (Hgt 4%Z); reflexivity|].
  split.
  - destruct (Hloop 1%Z) as (delays & Hl & _ & Hlen);
      [vm_compute; split; discriminate|].
    exists delays. split; [exact Hl | exact Hlen].
  - exact Hzero.
Defined.

(** C10: a configuration whose [maxRetries] is 0 or absent gives the client
    the cap 3: the strategy grants the retries numbered 0, 1, 2 and 3 and
    gives up at 4.  A socket that starts at 0, as node-redis does, makes
    four reconnection attempts, after 0, 50, 100 and 150 ms; one that
    starts at 1 makes three. *)
Theorem falsy_maxRetries_is_three cfg :
  cfg_maxRetries cfg = Some 0%Z ∨ cfg_maxRetries cfg = None →
  let c := RedisClient.constructor cfg in
  RedisClient.maxRetries c = 3%Z
  ∧ RedisClient.reconnectStrategy c 0 = RetryIn 0
  ∧ RedisClient.reconnectStrategy c 1 = RetryIn 50
  ∧ RedisClient.reconnectStrategy c 2 = RetryIn 100
  ∧ RedisClient.reconnectStrategy c 3 = RetryIn 150
  ∧ RedisClient.reconnectStrategy c 4 = GiveUp
  ∧ ∀ fuel, (4 < fuel)%nat →
      reconnect_loop fuel c 0 = Some [0; 50; 100; 150]%Z
      ∧ reconnect_loop fuel c 1 = Some [50; 100; 150]%Z.
Proof.
  intros H c.
  assert (RedisClient.maxRetries c = 3%Z) as Hm.
  { subst c. cbn [RedisClient.constructor RedisClient.maxRetries].
    by destruct H as [-> | ->]. }
  unfold RedisClient.reconnectStrategy. rewrite Hm. repeat split.
  - rewrite reconnect_loop_from; rewrite Hm; [done | lia].
  - rewrite reconnect_loop_from; rewrite Hm; [done | lia].
Qed.

Lemma falsy_maxRetries_is_three_witness :
  let cfg := {| host := str "localhost"; port := 6379; password := None;
                cfg_db := None; cfg_maxRetries := Some 0%Z;
                connectTimeout := None |} in
  let c := RedisClient.constructor cfg in
  RedisClient.maxRetries c = 3%Z
  ∧ RedisClient.reconnectStrategy c 0 = RetryIn 0
  ∧ RedisClient.reconnectStrategy c 1 = RetryIn 50
  ∧ RedisClient.reconnectStrategy c 2 = RetryIn 100
  ∧ RedisClient.reconnectStrategy c 3 = RetryIn 150
  ∧ RedisClient.reconnectStrategy c 4 = GiveUp
  ∧ ∀ fuel, (4 < fuel)%nat →
      reconnect_loop fuel c 0 = Some [0; 50; 100; 150]%Z
      ∧ reconnect_loop fuel c 1 = Some [50; 100; 150]%Z.
Proof.
  intros cfg. apply (falsy_maxRetries_is_three cfg). left. reflexivity.
Defined.

(** ** delete and exists *)

Lemma lookup_live_keys s k :
  is_Some (lookup_live s k) ↔ k ∈ live_keys (now s) (db s).
Proof.
  unfold lookup_live, live_keys. rewrite elem_of_dom.
  destruct (db s !! k) as [e|] eqn:E.
  - destruct (live (now s) e) eqn:L.
    + split; [|by eauto]. intros _. exists e. by apply map_lookup_filter_Some.
    + split; [by intros []|]. intros [e' [He' L']%map_lookup_filter_Some].
      cbn in L'. congruence.
  - split; [by intros []|]. intros [e' [He' _]%map_lookup_filter_Some]. congruence.
Qed.

Lemma live_keys_delete t k d : live_keys t (delete k d) = live_keys t d ∖ {[k]}.
Proof. unfold live_keys. by rewrite map_filter_delete, dom_delete_L. Qed.

#[local] Set Warnings "-clear-no-such-hyp".

Lemma size_inter_cons_in (A : gset jsstring) k B :
  k ∈ A → size (A ∩ ({[k]} ∪ B)) = S (size ((A ∖ {[k]}) ∩ B)).
Proof.
  intros Hk.
  replace (A ∩ ({[k]} ∪ B)) with ({[k]} ∪ (A ∖ {[k]}) ∩ B).
  - pose proof (size_union (C:=gset (list N))) as HU.
    rewrite HU by set_solver. by rewrite size_singleton.
  - apply set_eq. intros x. destruct (decide (x = k)) as [->|]; set_solver.
Qed.

Lemma size_inter_cons_out (A : gset jsstring) k B :
  k ∉ A → A ∩ ({[k]} ∪ B) = (A ∖ {[k]}) ∩ B.
Proof. set_solver. Qed.

#[local] Set Warnings "clear-no-such-hyp".

Lemma del_fold s ks n d :
  ∃ d', fold_left (NodeRedis.del_one s) ks (n, d)
        = ((n + Z.of_nat (size (live_keys (now s) d ∩ list_to_set ks)))%Z, d')
        ∧ ∀ k, d' !! k = if decide (k ∈ ks) then None else d !! k.
Proof.
  revert n d. induction ks as [|k ks IH]; intros n d; cbn [fold_left].
  { exists d. split.
    - cbn [list_to_set]. rewrite (right_absorb_L ∅ (∩)), size_empty.
      f_equal. simpl. lia.
    - intros k. by rewrite decide_False by apply not_elem_of_nil. }
  pose proof (lookup_live_keys (with_db s d) k) as Hlive.
  cbn [now db with_db] in Hlive.
  assert (∃ n', NodeRedis.del_one s (n, d) k = (n', delete k d)
                ∧ (n' + Z.of_nat (size (live_keys (now s) (delete k d)
                                          ∩ list_to_set ks)))%Z
                  = (n + Z.of_nat (size (live_keys (now s) d
                                           ∩ list_to_set (k :: ks))))%Z)
    as (n' & -> & <-).
  { unfold NodeRedis.del_one. cbn [fst snd list_to_set].
    rewrite live_keys_delete.
    destruct (lookup_live (with_db s d) k) as [e|] eqn:E; eexists; (split; [done|]).
    - rewrite size_inter_cons_in; [lia|]. apply Hlive. eauto.
    - rewrite size_inter_cons_out; [done|]. intros Hk. apply Hlive in Hk.
      by destruct Hk. }
  destruct (IH n' (delete k d)) as (d' & -> & Hd'). exists d'. split; [done|].
  intros k'. rewrite Hd'.
  destruct (decide (k' ∈ ks)) as [Hin|Hnin];
    destruct (decide (k' ∈ k :: ks)) as [Hin'|Hnin']; try done.
  - exfalso. apply Hnin'. by right.
  - apply elem_of_cons in Hin' as [->|?]; [|done]. apply lookup_delete_eq.
  - apply lookup_delete_ne. intros ->. apply Hnin'. by left.
Qed.

Lemma exists_after c k srv :
  RedisClient.isReady c = true → link_up srv = true →
  RedisClient.exists_ c k srv
  = (Ok (bool_decide (is_Some (lookup_live srv k))), srv).
Proof.
  intros Hc Hs. unfold RedisClient.exists_, NodeRedis.exists_. rewrite Hc, Hs.
  cbn [negb]. by destruct (lookup_live srv k).
Qed.

Lemma delete_array c ks srv :
  RedisClient.isReady c = true → link_up srv = true →
  ∃ srv',
    RedisClient.delete c (inr ks) srv
    = (Ok (Z.of_nat (size (live_keys (now srv) (db srv) ∩ list_to_set ks))), srv')
    ∧ (∀ k, k ∈ ks → RedisClient.exists_ c k srv' = (Ok false, srv'))
    ∧ (∀ k, k ∉ ks → lookup_live srv' k = lookup_live srv k).
Proof.
  intros Hc Hs.
  assert (∃ srv',
    RedisClient.delete c (inr ks) srv
    = (Ok (Z.of_nat (size (live_keys (now srv) (db srv) ∩ list_to_set ks))), srv')
    ∧ now srv' = now srv ∧ link_up srv' = true
    ∧ ∀ k, db srv' !! k = if decide (k ∈ ks) then None else db srv !! k)
    as (srv' & Hdel & Hnow & Hup & Hdb).
  { unfold RedisClient.delete. rewrite Hc. cbn [negb key_array].
    destruct (decide (length ks = 0%nat)) as [Hz|Hnz].
    - apply nil_length_inv in Hz. rewrite Hz. exists srv.
      cbn [list_to_set]. rewrite (right_absorb_L ∅ (∩)), size_empty.
      repeat split; try done; intros k;
        by rewrite decide_False by apply not_elem_of_nil.
    - unfold NodeRedis.del. rewrite Hs.
      destruct (del_fold srv ks 0 (db srv)) as (d' & -> & Hd').
      exists (with_db srv d'). cbn [fst snd]. rewrite Z.add_0_l. by repeat split. }
  exists srv'. split; [done|].
  assert (Hlook : ∀ k, lookup_live srv' k
                       = if decide (k ∈ ks) then None else lookup_live srv k).
  { intros k. unfold lookup_live. rewrite Hdb, Hnow. by destruct (decide _). }
  split.
  - intros k Hk. rewrite exists_after by done. rewrite Hlook.
    by rewrite decide_True.
  - intros k Hk. rewrite Hlook. by rewrite decide_False.
Qed.

Lemma delete_single c k srv :
  RedisClient.isReady c = true → link_up srv = true →
  ∃ srv',
    RedisClient.delete c (inl k) srv
    = (Ok (if bool_decide (is_Some (lookup_live srv k)) then 1 else 0)%Z, srv')
    ∧ RedisClient.exists_ c k srv' = (Ok false, srv')
    ∧ (∀ k', k' ≠ k → lookup_live srv' k' = lookup_live srv k').
Proof.
  intros Hc Hs.
  assert (RedisClient.delete c (inl k) srv = RedisClient.delete c (inr [k]) srv)
    as Hsame by done.
  destruct (delete_array c [k] srv Hc Hs) as (srv' & Hdel & Hex & Hother).
  exists srv'. rewrite Hsame, Hdel. split; [|split].
  - do 2 f_equal. cbn [list_to_set]. rewrite (right_id_L ∅ (∪)).
    pose proof (lookup_live_keys srv k) as Hk.
    destruct (bool_decide_reflect (is_Some (lookup_live srv k))) as [Hsome|Hnone].
    + replace (live_keys (now srv) (db srv) ∩ {[k]}) with ({[k]} : gset jsstring).
      * by rewrite size_singleton.
      * apply Hk in Hsome. apply set_eq. intros x.
        rewrite elem_of_intersection, elem_of_singleton.
        split; [by intros -> | by intros [_ ->]].
    + replace (live_keys (now srv) (db srv) ∩ {[k]}) with (∅ : gset jsstring).
      * by rewrite size_empty.
      * symmetry. apply set_eq. intros x.
        rewrite elem_of_intersection, elem_of_singleton.
        split; [|by intros ?%not_elem_of_empty].
        intros [Hx ->]. by apply Hk in Hx.
  - apply Hex. by left.
  - intros k' Hk'. apply Hother. by intros ->%list_elem_of_singleton.
Qed.

(** C8: on a ready store [delete] returns how many keys it removed.  For a
    single key that is 1 when the store held the key and 0 when it did not;
    for an array it is the number of keys of the array the store held (0
    when it held none of them, a key that comes twice counted once).
    Afterwards none of the named keys exists and every other key is as
    before.  [delete([k1, k2])] on a store that holds only [k1] returns 1
    and [exists(k1)] is then false. *)
Theorem delete_counts_removed c srv :
  RedisClient.isReady c = true → link_up srv = true →
  (∀ k, ∃ srv',
     RedisClient.delete c (inl k) srv
     = (Ok (if bool_decide (is_Some (lookup_live srv k)) then 1 else 0)%Z, srv')
     ∧ RedisClient.exists_ c k srv' = (Ok false, srv')
     ∧ (∀ k', k' ≠ k → lookup_live srv' k' = lookup_live srv k'))
  ∧ (∀ ks, ∃ srv',
       RedisClient.delete c (inr ks) srv
       = (Ok (Z.of_nat (size (live_keys (now srv) (db srv) ∩ list_to_set ks))),
          srv')
       ∧ (∀ k, k ∈ ks → RedisClient.exists_ c k srv' = (Ok false, srv'))
       ∧ (∀ k, k ∉ ks → lookup_live srv' k = lookup_live srv k)
       ∧ ((∀ k, k ∈ ks → lookup_live srv k = None) →
            RedisClient.delete c (inr ks) srv = (Ok 0%Z, srv')))
  ∧ (∀ k1 k2, live_keys (now srv) (db srv) = {[k1]} →
       ∃ srv', RedisClient.delete c (inr [k1; k2]) srv = (Ok 1%Z, srv')
               ∧ RedisClient.exists_ c k1 srv' = (Ok false, srv')).
Proof.
  intros Hc Hs. split; [|split].
  - intros k. by apply delete_single.
  - intros ks. destruct (delete_array c ks srv Hc Hs) as (srv' & Hdel & Hex & Hne).
    exists srv'. split; [done|]. split; [done|]. split; [done|].
    intros Hnone. rewrite Hdel. do 3 f_equal.
    replace (live_keys (now srv) (db srv) ∩ list_to_set ks)
      with (∅ : gset jsstring); [done|].
    symmetry. apply set_eq. intros k. split; [|by intros ?%not_elem_of_empty].
    intros [Hl Hk%elem_of_list_to_set]%elem_of_intersection.
    apply lookup_live_keys in Hl. rewrite (Hnone k Hk) in Hl. by destruct Hl.
  - intros k1 k2 Hlive.
    destruct (delete_array c [k1; k2] srv Hc Hs) as (srv' & Hdel & Hex & _).
    exists srv'. split; [|apply Hex; by left].
    rewrite Hdel, Hlive. cbn [list_to_set]. do 3 f_equal.
    replace ({[k1]} ∩ ({[k1]} ∪ ({[k2]} ∪ ∅))) with ({[k1]} : gset jsstring).
    + by rewrite size_singleton.
    + apply set_eq. intros k.
      rewrite elem_of_intersection, !elem_of_union, elem_of_singleton. tauto.
Qed.

Lemma delete_counts_removed_witness :
  let srv := (RedisClient.set ready_client (str "k1") (JNum 1 0) None empty_store).2 in
  (∃ srv', RedisClient.delete ready_client (inl (str "k1")) srv = (Ok 1%Z, srv')
           ∧ RedisClient.exists_ ready_client (str "k1") srv' = (Ok false, srv'))
  ∧ (∃ srv', RedisClient.delete ready_client (inl (str "k2")) srv = (Ok 0%Z, srv'))
  ∧ (∃ srv', RedisClient.delete ready_client (inr [str "k2"; str "k3"]) srv
             = (Ok 0%Z, srv'))
  ∧ (∃ srv', RedisClient.delete ready_client (inr [str "k1"; str "k2"]) srv
             = (Ok 1%Z, srv')
             ∧ RedisClient.exists_ ready_client (str "k1") srv' = (Ok false, srv')).
Proof.
  intros srv.
  destruct (delete_counts_removed ready_client srv) as (Hone & Harr & Htwo);
    [reflexivity | reflexivity |].
  split; [|split; [|split]].
  - destruct (Hone (str "k1")) as (srv' & Hdel & Hex & _).
    exists srv'. split; [exact Hdel | exact Hex].
  - destruct (Hone (str "k2")) as (srv' & Hdel & _). by exists srv'.
  - destruct (Harr [str "k2"; str "k3"]) as (srv' & _ & _ & _ & Hnone).
    exists srv'. apply Hnone. intros k Hk.
    apply elem_of_cons in Hk as [-> | Hk]; [reflexivity|].
    apply list_elem_of_singleton in Hk as ->. reflexivity.
  - apply Htwo. reflexivity.
Defined.

Example delete_single_key :
  let srv := (RedisClient.set ready_client (str "k1") (JNum 1 0) None empty_store).2 in
  let r := RedisClient.delete ready_client (inl (str "k1")) srv in
  r.1 = Ok 1%Z
  ∧ (RedisClient.exists_ ready_client (str "k1") r.2).1 = Ok false
  ∧ (RedisClient.delete ready_client (inl (str "k1")) r.2).1 = Ok 0%Z
  ∧ (RedisClient.delete ready_client (inl (str "k2")) srv).1 = Ok 0%Z.
Proof. by vm_compute. Qed.

Example delete_two_keys_one_present :
  let srv := (RedisClient.set ready_client (str "k1") (JNum 1 0) None empty_store).2 in
  let r := RedisClient.delete ready_client (inr [str "k1"; str "k2"]) srv in
  r.1 = Ok 1%Z
  ∧ (RedisClient.exists_ ready_client (str "k1") srv).1 = Ok true
  ∧ (RedisClient.exists_ ready_client (str "k1") r.2).1 = Ok false.
Proof. by vm_compute. Qed.

(** ** The handler: what it leaves alone *)

Section Keeps.

Context (R : world → world → Prop) `{!PreOrder R}.

Lemma keeps_ret {A} (a : A) : keeps R (ret a).
Proof. intros w. reflexivity. Qed.

Lemma keeps_bind {A B} (m : M A) (k : A → M B) :
  keeps R m → (∀ a, keeps R (k a)) → keeps R (bind m k).
Proof.
  intros Hm Hk w. unfold bind. specialize (Hm w).
  destruct (m w) as [[a|e] w1]; [|done].
  etrans; [exact Hm | apply Hk].
Qed.

Lemma keeps_when b (m : M unit) : keeps R m → keeps R (when b m).
Proof. destruct b; [done | intros _; apply keeps_ret]. Qed.

Lemma keeps_for_of {A} (l : list A) (body : A → M unit) :
  (∀ x, keeps R (body x)) → keeps R (for_of l body).
Proof.
  intros Hb. induction l as [|x l IH]; [apply keeps_ret|].
  apply keeps_bind; [apply Hb | done].
Qed.

Lemma keeps_catch_null {A} (m : M A) : keeps R m → keeps R (catch_null m).
Proof.
  intros Hm w. unfold catch_null. specialize (Hm w).
  by destruct (m w) as [[a|e] w1].
Qed.

Lemma keeps_on_event {A} (e : option A) (handler : A → M unit) :
  (∀ a, keeps R (handler a)) → keeps R (on_event e handler).
Proof. intros H. destruct e; [apply H | apply keeps_ret]. Qed.

End Keeps.

#[local] Instance same_preorder {B} (f : world → B) : PreOrder (same f).
Proof. split; [done|]. intros x y z H1 H2. unfold same in *. congruence. Qed.

Lemma keeps_emit {B} (f : world → B) e :
  (∀ w t, f {| handles := handles w; creds_file := creds_file w;
               redisClient := redisClient w; redis := redis w; trace := t |}
          = f w) →
  keeps (same f) (emit e).
Proof. intros Hf w. apply Hf. Qed.

Lemma keeps_await {B} (f : world → B) env h r :
  (∀ w t, f {| handles := handles w; creds_file := creds_file w;
               redisClient := redisClient w; redis := redis w; trace := t |}
          = f w) →
  keeps (same f) (await env h r).
Proof. intros Hf w. unfold await. destruct (env (trace w) r); apply Hf. Qed.

Lemma keeps_on_redis {A B} (f : world → B)
    (op : RedisClient.t → server → result A * server) :
  (∀ w s, f {| handles := handles w; creds_file := creds_file w;
               redisClient := redisClient w; redis := s; trace := trace w |}
          = f w) →
  keeps (same f) (on_redis op).
Proof.
  intros Hf w. unfold on_redis.
  destruct (op (redisClient w) (redis w)) as [r s']. apply Hf.
Qed.

(** Closes goals [keeps (same f) m] for the code of the handler, given how
    to treat the leaves. *)
Ltac keeps_step :=
  first
    [ apply keeps_ret; tc_solve
    | apply keeps_bind; [tc_solve | | intros ?]
    | apply keeps_when; [tc_solve|]
    | apply keeps_for_of; [tc_solve | intros ?]
    | apply keeps_catch_null
    | apply keeps_on_event; [tc_solve | intros ?]
    | apply keeps_emit; done
    | apply keeps_await; done
    | apply keeps_on_redis; done
    | progress unfold console_log, delay, print_event
    | match goal with |- keeps _ (match ?x with _ => _ end) => destruct x end
    | match goal with |- keeps _ (if ?x then _ else _) => destruct x end
    | match goal with |- keeps _ (let '_ := _ in _) => cbn zeta end ].

Ltac keeps_auto := repeat keeps_step.

Section HandlerKeeps.

Variable loggedOut : Z.
Variable isJidNewsletter : option jsstring → bool.
Variable doReplies usePairingCode : bool.
Variable phoneNumber : option jsstring.
Variable env : list effect → request → reply.

Local Abbreviation process :=
  (process loggedOut isJidNewsletter doReplies usePairingCode phoneNumber env).
Local Abbreviation on_connection_update :=
  (on_connection_update loggedOut usePairingCode phoneNumber env).

Lemma keeps_sendMessageWTyping {B} (f : world → B) h msg jid :
  (∀ w t, f {| handles := handles w; creds_file := creds_file w;
               redisClient := redisClient w; redis := redis w; trace := t |}
          = f w) →
  keeps (same f) (sendMessageWTyping env h msg jid).
Proof. intros Hf. unfold sendMessageWTyping. keeps_auto. Qed.

Lemma keeps_on_messages_upsert {B} (f : world → B) h upsert :
  (∀ w t, f {| handles := handles w; creds_file := creds_file w;
               redisClient := redisClient w; redis := redis w; trace := t |}
          = f w) →
  keeps (same f) (on_messages_upsert isJidNewsletter doReplies env h upsert).
Proof.
  intros Hf. unfold on_messages_upsert, on_message, reply_to.
  keeps_auto; by apply keeps_sendMessageWTyping.
Qed.

(** Everything after the connection branch, as one computation. *)
Lemma process_split h registered events :
  process h registered events
  = bind (on_event (connection_update events) (on_connection_update h registered))
      (λ _, process h registered
              {| connection_update := None; creds_update := creds_update events;
                 labels_association := labels_association events;
                 labels_edit := labels_edit events; call := call events;
                 messaging_history_set := messaging_history_set events;
                 messages_upsert := messages_upsert events;
                 messages_update := messages_update events;
                 message_receipt_update := message_receipt_update events;
                 messages_reaction := messages_reaction events;
                 presence_update := presence_update events;
                 chats_update := chats_update events;
                 contacts_update := contacts_update events;
                 chats_delete := chats_delete events |}).
Proof. reflexivity. Qed.

Lemma keeps_startSock {B} (f : world → B) :
  (∀ w n t, f {| handles := n; creds_file := creds_file w;
                 redisClient := redisClient w; redis := redis w; trace := t |}
            = f w) →
  keeps (same f) startSock.
Proof. intros Hf w. apply Hf. Qed.

Lemma keeps_write_creds {B} (f : world → B) c :
  (∀ w c, f {| handles := handles w; creds_file := c;
               redisClient := redisClient w; redis := redis w;
               trace := trace w |}
          = f w) →
  keeps (same f) (write_creds c).
Proof. intros Hf w. apply Hf. Qed.

(** No branch of the handler touches the fields of the Redis client:
    in particular none calls [connect()]. *)
Lemma process_keeps_client h registered events :
  keeps (same redisClient) (process h registered events).
Proof.
  unfold process, on_connection_update, on_creds_update, on_messages_update,
    on_contacts_update.
  keeps_auto;
    first [ by apply keeps_startSock
          | by apply keeps_write_creds
          | by apply keeps_on_messages_upsert ].
Qed.

Lemma process_rest_keeps_handles h registered events :
  connection_update events = None →
  keeps (same handles) (process h registered events).
Proof.
  intros Hc. unfold process, on_creds_update, on_messages_update,
    on_contacts_update. rewrite Hc.
  keeps_auto;
    first [ by apply keeps_write_creds
          | by apply keeps_on_messages_upsert ].
Qed.

Lemma process_keeps_creds h registered events :
  creds_update events = None →
  keeps (same creds_file) (process h registered events).
Proof.
  intros Hc. unfold process, on_connection_update, on_messages_update,
    on_contacts_update. rewrite Hc.
  keeps_auto;
    first [ by apply keeps_startSock
          | by apply keeps_on_messages_upsert ].
Qed.

Lemma bind_keeps_snd {A B C} (f : world → C) (m : M A) (k : A → M B) w :
  (∀ a, keeps (same f) (k a)) → f (bind m k w).2 = f (m w).2.
Proof.
  intros Hk. unfold bind. destruct (m w) as [[a|e] w1]; [|done]. apply Hk.
Qed.

Lemma on_connection_update_keeps_handles h registered u :
  connection u ≠ Some close →
  keeps (same handles) (on_connection_update h registered u).
Proof.
  intros Hc. unfold on_connection_update.
  rewrite (bool_decide_eq_false_2 (connection u = Some close)) by done.
  keeps_auto.
Qed.

Lemma on_connection_update_handles h registered u w :
  handles (on_connection_update h registered u w).2
  = (handles w
     + if bool_decide (connection u = Some close)
          && bool_decide (statusCode u ≠ Some loggedOut)
       then 1 else 0)%nat.
Proof.
  destruct (decide (connection u = Some close)) as [Hc|Hc].
  - unfold on_connection_update. rewrite Hc.
    rewrite (bool_decide_eq_true_2 (Some close = Some close)) by done.
    rewrite (bool_decide_eq_false_2 (Some close = None)) by done.
    rewrite (bool_decide_eq_false_2 (Some close = Some open)) by done.
    destruct (bool_decide (statusCode u ≠ Some loggedOut)); simpl; lia.
  - rewrite (bool_decide_eq_false_2 _ Hc). cbn [andb]. rewrite Nat.add_0_r.
    by apply on_connection_update_keeps_handles.
Qed.

Lemma process_handles h registered events w :
  handles (process h registered events w).2
  = (handles w + if is_restart loggedOut events then 1 else 0)%nat.
Proof.
  rewrite process_split.
  rewrite bind_keeps_snd by (intros _; by apply process_rest_keeps_handles).
  unfold is_restart. destruct (connection_update events) as [u|].
  - apply on_connection_update_handles.
  - simpl. lia.
Qed.

End HandlerKeeps.

(** ** The running program: restart, logout and the Redis client *)

Section ProgramProps.

Variable loggedOut : Z.
Variable isJidNewsletter : option jsstring → bool.
Variable doReplies usePairingCode : bool.
Variable phoneNumber : option jsstring.
Variable env : list effect → request → reply.

Local Abbreviation step_ :=
  (step loggedOut isJidNewsletter doReplies usePairingCode phoneNumber env).
Local Abbreviation deliver_ :=
  (deliver loggedOut isJidNewsletter doReplies usePairingCode phoneNumber env).

Lemma is_restart_close events :
  is_restart loggedOut events = true → is_close events = true.
Proof.
  unfold is_restart, is_close. destruct (connection_update events); [|done].
  by intros [? _]%andb_true_iff.
Qed.

Lemma deliver_handles h registered events sys :
  handles (sys_world (deliver_ h registered events sys))
  = (handles (sys_world sys) + if is_restart loggedOut events then 1 else 0)%nat.
Proof. apply process_handles. Qed.

Lemma deliver_live h registered events sys :
  live_handles (deliver_ h registered events sys)
  = (if is_close events
     then filter (λ x, x ≠ h) (live_handles sys)
     else live_handles sys)
    ++ (if is_restart loggedOut events then [handles (sys_world sys)] else []).
Proof.
  unfold deliver at 1. cbn [live_handles]. f_equal.
  unfold run_process. rewrite process_handles.
  destruct (is_restart loggedOut events).
  - by replace (handles (sys_world sys) + 1 - handles (sys_world sys))%nat
      with 1%nat by lia.
  - by replace (handles (sys_world sys) + 0 - handles (sys_world sys))%nat
      with 0%nat by lia.
Qed.

Lemma deliver_live_close h registered events sys :
  h ∈ live_handles sys → (length (live_handles sys) ≤ 1)%nat →
  is_close events = true →
  live_handles (deliver_ h registered events sys)
  = if is_restart loggedOut events then [handles (sys_world sys)] else [].
Proof.
  intros Hh Hlen Hclose. rewrite deliver_live, Hclose.
  destruct (live_handles sys) as [|x [|y l]]; [by apply elem_of_nil in Hh| |simpl in Hlen; lia].
  apply list_elem_of_singleton in Hh as ->.
  rewrite filter_cons_False by (intros H; by apply H). done.
Qed.

Lemma step_one_live sys sys' :
  step_ sys sys' → (length (live_handles sys) ≤ 1)%nat →
  (length (live_handles sys') ≤ 1)%nat.
Proof.
  intros [h registered events s Hh|s' s] Hlen; [|done].
  destruct (is_close events) eqn:Hclose.
  - rewrite deliver_live_close by done. destruct (is_restart _ _); simpl; lia.
  - rewrite deliver_live, Hclose.
    destruct (is_restart loggedOut events) eqn:Hr.
    + apply is_restart_close in Hr. congruence.
    + by rewrite app_nil_r.
Qed.

Lemma reachable_one_live cfg srv creds sys :
  rtc step_ (program_start cfg srv creds) sys →
  (length (live_handles sys) ≤ 1)%nat.
Proof.
  revert sys. apply rtc_ind_r; [done|]. intros y z _ Hstep IH.
  by eapply step_one_live.
Qed.

(** Without a live handle nothing is delivered any more: the count of
    session handles stays what it is. *)
Lemma terminated_forever sys sys' :
  live_handles sys = [] → rtc step_ sys sys' →
  live_handles sys' = []
  ∧ handles (sys_world sys') = handles (sys_world sys).
Proof.
  intros Hlive. revert sys'. apply rtc_ind_r; [done|].
  intros y z _ Hstep [IH1 IH2].
  destruct Hstep as [h registered events s Hh|s' s].
  - rewrite IH1 in Hh. by apply elem_of_nil in Hh.
  - done.
Qed.

(** The program never connects its Redis client. *)
Lemma reachable_client cfg srv creds sys :
  rtc step_ (program_start cfg srv creds) sys →
  redisClient (sys_world sys) = RedisClient.constructor cfg.
Proof.
  revert sys. apply rtc_ind_r; [done|]. intros y z _ Hstep IH.
  destruct Hstep as [h registered events s Hh|s' s]; [|done].
  cbn [deliver sys_world]. unfold run_process.
  by rewrite process_keeps_client.
Qed.

End ProgramProps.

(** C2: when a live handle reports [connection.update] with connection
    ['close'], a status code equal to the logged-out code leaves the program
    without a live handle and no session handle is made, then or ever after;
    any other status code, or none, makes one fresh handle, which is the
    live one, and leaves the persisted credentials as they are. *)
Theorem close_terminates_or_restarts
    loggedOut isJidNewsletter doReplies usePairingCode phoneNumber env
    cfg srv creds sys h registered events u :
  let step_ := step loggedOut isJidNewsletter doReplies usePairingCode
                 phoneNumber env in
  rtc step_ (program_start cfg srv creds) sys →
  h ∈ live_handles sys →
  connection_update events = Some u → connection u = Some close →
  let sys' := deliver loggedOut isJidNewsletter doReplies usePairingCode
                phoneNumber env h registered events sys in
  (statusCode u = Some loggedOut →
     handles (sys_world sys') = handles (sys_world sys)
     ∧ live_handles sys' = []
     ∧ ∀ sys'', rtc step_ sys' sys'' →
         handles (sys_world sys'') = handles (sys_world sys))
  ∧ (statusCode u ≠ Some loggedOut →
     handles (sys_world sys') = S (handles (sys_world sys))
     ∧ live_handles sys' = [handles (sys_world sys)]
     ∧ (creds_update events = None →
        creds_file (sys_world sys') = creds_file (sys_world sys))).
Proof.
  intros step_ Hreach Hh Hu Hclose sys'.
  pose proof (reachable_one_live _ _ _ _ _ _ _ _ _ _ Hreach) as Hone.
  assert (is_close events = true) as Hc.
  { unfold is_close. rewrite Hu. by apply bool_decide_eq_true. }
  assert (is_restart loggedOut events
          = bool_decide (statusCode u ≠ Some loggedOut)) as Hr.
  { unfold is_restart. rewrite Hu.
    by rewrite (bool_decide_eq_true_2 _ Hclose). }
  pose proof (deliver_handles loggedOut isJidNewsletter doReplies usePairingCode
                phoneNumber env h registered events sys) as Hhandles.
  pose proof (deliver_live_close loggedOut isJidNewsletter doReplies
                usePairingCode phoneNumber env h registered events sys
                Hh Hone Hc) as Hlive.
  fold sys' in Hhandles, Hlive. rewrite Hr in Hhandles, Hlive. split.
  - intros Hout.
    rewrite bool_decide_eq_false_2 in Hhandles, Hlive by (by intros []).
    rewrite Nat.add_0_r in Hhandles. repeat split; [done | done |].
    intros sys'' Hsteps.
    destruct (terminated_forever _ _ _ _ _ _ _ _ Hlive Hsteps) as [_ ->]. done.
  - intros Hother.
    rewrite bool_decide_eq_true_2 in Hhandles, Hlive by done.
    repeat split; [lia | done |].
    intros Hcreds. by apply process_keeps_creds.
Qed.

Lemma close_terminates_or_restarts_witness :
  let step_ := step 401%Z never_newsletter true false None env_resolves in
  let sys := program_start sample_config empty_store (str "creds") in
  let logout := {| connection := Some close; statusCode := Some 401%Z; qr := None |} in
  let lost := {| connection := Some close; statusCode := Some 408%Z; qr := None |} in
  let sys1 := deliver 401%Z never_newsletter true false None env_resolves
                0 true (connection_event logout) sys in
  let sys2 := deliver 401%Z never_newsletter true false None env_resolves
                0 true (connection_event lost) sys in
  (handles (sys_world sys1) = handles (sys_world sys)
   ∧ live_handles sys1 = []
   ∧ ∀ sys'', rtc step_ sys1 sys'' →
       handles (sys_world sys'') = handles (sys_world sys))
  ∧ (handles (sys_world sys2) = S (handles (sys_world sys))
     ∧ live_handles sys2 = [handles (sys_world sys)]
     ∧ creds_file (sys_world sys2) = creds_file (sys_world sys)).
Proof.
  intros step_ sys logout lost sys1 sys2. split.
  - apply (close_terminates_or_restarts 401%Z never_newsletter true false None
             env_resolves sample_config empty_store (str "creds") sys 0 true
             (connection_event logout) logout);
      [apply rtc_refl | vm_compute; left | reflexivity | reflexivity | reflexivity].
  - destruct (close_terminates_or_restarts 401%Z never_newsletter true false None
                env_resolves sample_config empty_store (str "creds") sys 0 true
                (connection_event lost) lost) as [_ H];
      [apply rtc_refl | vm_compute; left | reflexivity | reflexivity |].
    destruct H as (H1 & H2 & H3); [vm_compute; discriminate|].
    split; [exact H1|]. split; [exact H2|]. apply H3. reflexivity.
Defined.

(** ** The automatic reply *)

Lemma actions_since_app w w' X :
  trace w' = trace w ++ X → actions_since w w' = List.filter is_action X.
Proof. intros H. unfold actions_since. by rewrite H, drop_app_length. Qed.




Example auto_reply_completes :
  let msg := text_message "alice" "hi" in
  let w := sys_world (program_start sample_config empty_store (str "creds")) in
  let r := reply_to env_resolves 0 msg w in
  r.1 = Ok () ∧ actions_since w r.2 = choreography 0 msg.
Proof. by vm_compute. Qed.

(** ** Pairing codes *)

(** What the pairing branch would do on a connected client: each issuance
    writes the code under the key of the phone number with 300 seconds to
    live, the later issuance replacing the earlier code; 300 seconds later
    the key is gone. *)
Lemma pairing_code_on_ready_client c srv phone code1 code2 :
  RedisClient.isReady c = true → link_up srv = true →
  let s1 := (RedisClient.set c (pairing_key phone) (JStr code1) (Some (60 * 5)%Z) srv).2 in
  let s2 := (RedisClient.set c (pairing_key phone) (JStr code2) (Some (60 * 5)%Z) s1).2 in
  (NodeRedis.get (pairing_key phone) s2).1 = Ok (Some code2)
  ∧ (NodeRedis.ttl (pairing_key phone) s2).1 = Ok 300%Z
  ∧ (NodeRedis.get (pairing_key phone) (elapse 300 s2)).1 = Ok None.
Proof.
  intros Hc Hs s1 s2.
  assert (∀ s code, link_up s = true →
            RedisClient.set c (pairing_key phone) (JStr code) (Some (60 * 5)%Z) s
            = (Ok (), with_db s (<[pairing_key phone :=
                                    {| e_text := code;
                                       e_expiry := Some (now s + 300)%Z |}]> (db s))))
    as Hset.
  { intros s code Hl. unfold RedisClient.set, NodeRedis.setEx. by rewrite Hc, Hl. }
  subst s2 s1. rewrite (Hset srv) by done. cbn [snd]. rewrite Hset by done.
  cbn [snd]. unfold NodeRedis.get, NodeRedis.ttl, lookup_live, elapse.
  cbn [link_up db now with_db]. rewrite Hs, !lookup_insert_eq.
  unfold live. cbn [e_expiry e_text fst fmap option_fmap option_map].
  destruct (Z.ltb_spec (now srv) (now srv + 300)); [|lia].
  destruct (Z.ltb_spec (now srv + 300) (now srv + 300)); [lia|].
  split; [done|]. split; [|done]. cbn [e_expiry]. f_equal. lia.
Qed.

(** C6 on the program as written: the process-wide Redis client is made
    by [createRedisClient] and [connect()] is never called on it, so it is
    never ready: a pairing-code issuance obtains the code from the session
    handle, then [redisClient.set] throws NotConnected; nothing is written
    to the store and the handler ends there. *)
Theorem pairing_code_never_cached
    loggedOut isJidNewsletter doReplies phoneNumber env
    cfg srv creds sys h events u :
  rtc (step loggedOut isJidNewsletter doReplies true phoneNumber env)
    (program_start cfg srv creds) sys →
  connection_update events = Some u → connection u = None →
  let w := sys_world sys in
  let r := run_process loggedOut isJidNewsletter doReplies true phoneNumber env
             h false events w in
  RedisClient.isReady (redisClient w) = false
  ∧ redis r.2 = redis w
  ∧ r.1 ≠ Ok ()
  ∧ ∀ code,
      env (trace w ++ [Log log_connection_update]) (requestPairingCode phoneNumber)
      = Resolve code →
      r.1 = Throw NotConnected
      ∧ trace r.2 = trace w ++ [Log log_connection_update;
                                Call h (requestPairingCode phoneNumber)].
Proof.
  intros Hreach Hu Hconn w r.
  assert (RedisClient.isReady (redisClient w) = false) as Hready.
  { subst w. by rewrite (reachable_client _ _ _ _ _ _ _ _ _ _ Hreach). }
  split; [done|]. subst r. unfold run_process. rewrite process_split, Hu.
  cbn [on_event]. unfold on_connection_update. rewrite Hconn.
  rewrite (bool_decide_eq_false_2 (None = Some close)) by done.
  rewrite (bool_decide_eq_true_2 (None = None)) by done.
  rewrite (bool_decide_eq_false_2 (None = Some open)) by done.
  unfold bind, when, ret, console_log, emit, await, on_redis.
  cbn [trace fst snd redisClient redis negb andb]. fold w.
  destruct (env (trace w ++ [Log log_connection_update])
              (requestPairingCode phoneNumber)) as [code|] eqn:E.
  - cbn [trace fst snd redisClient redis handles creds_file].
    unfold RedisClient.set. rewrite Hready.
    cbn [negb trace fst snd redisClient redis handles creds_file].
    split; [done|]. split; [done|].
    intros code' [= <-]. split; [done|]. by rewrite <- app_assoc.
  - cbn [fst snd redis]. split; [done|]. split; [done|]. by intros code' [=].
Qed.

Lemma pairing_code_never_cached_witness :
  let sys := program_start sample_config empty_store (str "creds") in
  let u := {| connection := None; statusCode := None; qr := Some (str "2@qr") |} in
  let w := sys_world sys in
  let r := run_process 401%Z never_newsletter true true (Some (str "555")) env_pairing
             0 false (connection_event u) w in
  RedisClient.isReady (redisClient w) = false
  ∧ redis r.2 = redis w
  ∧ r.1 ≠ Ok ()
  ∧ r.1 = Throw NotConnected
  ∧ trace r.2 = trace w ++ [Log log_connection_update;
                            Call 0 (requestPairingCode (Some (str "555")))].
Proof.
  intros sys u w r.
  destruct (pairing_code_never_cached 401%Z never_newsletter true (Some (str "555"))
              env_pairing sample_config empty_store (str "creds") sys 0
              (connection_event u) u)
    as (H1 & H2 & H3 & H4).
  - apply rtc_refl.
  - reflexivity.
  - reflexivity.
  - split; [exact H1|]. split; [exact H2|]. split; [exact H3|].
    apply (H4 (str "ABCD1234")). reflexivity.
Defined.

(** ** Rejections during dispatch *)

(** A body that throws ends the loop: the elements after it are not
    visited. *)
Lemma for_of_throw {A} (x : A) l body w e w' :
  body x w = (Throw e, w') → for_of (x :: l) body w = (Throw e, w').
Proof. intros H. cbn [for_of]. unfold bind. by rewrite H. Qed.

(** A branch that throws ends the handler: what follows it is not run. *)
Lemma bind_throw {A B} (m : M A) (k : A → M B) w e w' :
  m w = (Throw e, w') → bind m k w = (Throw e, w').
Proof. intros H. unfold bind. by rewrite H. Qed.

(** C7 on the code: when [readMessages] rejects for the first message of a
    batch, the handler ends with that rejection; the second message gets no
    reply and the [contacts.update] part of the batch is not handled.  Only
    the rejection of [profilePictureUrl] is caught: with it the handler runs
    to its end. *)
Theorem rejected_read_halts_dispatch :
  let w := sys_world (program_start sample_config empty_store (str "creds")) in
  let r := process 401 never_newsletter true false None env_rejects_read
             0 true two_messages_batch w in
  let r' := process 401 never_newsletter true false None env_rejects_picture
              0 true two_messages_batch w in
  r.1 = Throw OperationFailed
  ∧ drop (length (trace w)) (trace r.2)
    = [Log log_recv_messages;
       Log (log_replying (Some (str "alice")));
       Call 0 (readMessages [key (text_message "alice" "hi")])]
  ∧ r'.1 = Ok ()
  ∧ actions_since w r'.2
    = choreography 0 (text_message "alice" "hi")
      ++ choreography 0 (text_message "bob" "hello")
      ++ [Call 0 (profilePictureUrl (str "carol"));
          Call 0 (profilePictureUrl (str "dave"))]
  ∧ last (trace r'.2) = Some (Log (log_profile_pic (str "dave") None)).
Proof. by vm_compute. Qed.

(** * More of RedisClient *)

(** ** The guard of every operation, connect and disconnect *)

(** X1: while [isReady()] is false every operation of the client other than
    [connect] and [disconnect] throws the NotConnected error without sending
    a command: the store stays as it is. *)
Theorem every_operation_guarded glob c key keys ks data seconds n pattern srv :
  RedisClient.isReady c = false →
  RedisClient.delete c keys srv = (Throw NotConnected, srv)
  ∧ RedisClient.exists_ c key srv = (Throw NotConnected, srv)
  ∧ RedisClient.ttl c key srv = (Throw NotConnected, srv)
  ∧ RedisClient.expire c key seconds srv = (Throw NotConnected, srv)
  ∧ RedisClient.flushAll c srv = (Throw NotConnected, srv)
  ∧ RedisClient.flushDb c srv = (Throw NotConnected, srv)
  ∧ RedisClient.keys glob c pattern srv = (Throw NotConnected, srv)
  ∧ RedisClient.mset c data srv = (Throw NotConnected, srv)
  ∧ RedisClient.mget c ks srv = (Throw NotConnected, srv)
  ∧ RedisClient.incr c key n srv = (Throw NotConnected, srv)
  ∧ RedisClient.decr c key n srv = (Throw NotConnected, srv).
Proof.
  intros Hc.
  unfold RedisClient.delete, RedisClient.exists_, RedisClient.ttl,
    RedisClient.expire, RedisClient.flushAll, RedisClient.flushDb,
    RedisClient.keys, RedisClient.mset, RedisClient.mget, RedisClient.incr,
    RedisClient.decr.
  rewrite Hc. repeat split.
Qed.

Lemma every_operation_guarded_witness :
  let c := createRedisClient sample_config in
  let srv := store_down in
  RedisClient.delete c (inl (str "k")) srv = (Throw NotConnected, srv)
  ∧ RedisClient.exists_ c (str "k") srv = (Throw NotConnected, srv)
  ∧ RedisClient.ttl c (str "k") srv = (Throw NotConnected, srv)
  ∧ RedisClient.expire c (str "k") 60 srv = (Throw NotConnected, srv)
  ∧ RedisClient.flushAll c srv = (Throw NotConnected, srv)
  ∧ RedisClient.flushDb c srv = (Throw NotConnected, srv)
  ∧ RedisClient.keys (λ _ _, true) c None srv = (Throw NotConnected, srv)
  ∧ RedisClient.mset c [(str "k", JNull)] srv = (Throw NotConnected, srv)
  ∧ RedisClient.mget c [str "k"] srv = (Throw NotConnected, srv)
  ∧ RedisClient.incr c (str "k") None srv = (Throw NotConnected, srv)
  ∧ RedisClient.decr c (str "k") None srv = (Throw NotConnected, srv).
Proof.
  intros c srv.
  apply (every_operation_guarded (λ _ _, true) c (str "k") (inl (str "k"))
           [str "k"] [(str "k", JNull)] 60 None None srv).
  reflexivity.
Defined.

(** X2: [disconnect()] does nothing on a client that is not ready; on a
    ready client it sends QUIT and the client is then not ready, with its
    other fields as they were, so a second [disconnect()] does nothing; when
    QUIT is rejected the error is thrown on and the client stays ready. *)
Theorem disconnect_once c srv :
  (RedisClient.isReady c = false → RedisClient.disconnect c srv = (Ok (), c))
  ∧ (RedisClient.isReady c = true → link_up srv = true →
     ∃ c', RedisClient.disconnect c srv = (Ok (), c')
           ∧ RedisClient.isReady c' = false
           ∧ RedisClient.client c' = RedisClient.client c
           ∧ RedisClient.config c' = RedisClient.config c
           ∧ RedisClient.maxRetries c' = RedisClient.maxRetries c
           ∧ ∀ srv', RedisClient.disconnect c' srv' = (Ok (), c'))
  ∧ (RedisClient.isReady c = true → link_up srv = false →
     RedisClient.disconnect c srv = (Throw TransportError, c)).
Proof.
  unfold RedisClient.disconnect, RedisClient.isReady, NodeRedis.quit.
  destruct c as [cfg cl conn rc mr]. cbn [RedisClient.client RedisClient.isConnected].
  repeat split.
  - rewrite andb_comm. by intros ->.
  - rewrite andb_comm. intros -> ->. eexists. split; [reflexivity|].
    cbn. repeat split. intros srv'. by rewrite andb_false_r.
  - rewrite andb_comm. by intros -> ->.
Qed.

Lemma disconnect_once_witness :
  RedisClient.disconnect (createRedisClient sample_config) empty_store
  = (Ok (), createRedisClient sample_config)
  ∧ (∃ c', RedisClient.disconnect ready_client empty_store = (Ok (), c')
           ∧ RedisClient.isReady c' = false
           ∧ RedisClient.client c' = RedisClient.client ready_client
           ∧ RedisClient.config c' = RedisClient.config ready_client
           ∧ RedisClient.maxRetries c' = RedisClient.maxRetries ready_client
           ∧ ∀ srv', RedisClient.disconnect c' srv' = (Ok (), c'))
  ∧ RedisClient.disconnect ready_client store_down
    = (Throw TransportError, ready_client).
Proof.
  split; [|split].
  - apply (disconnect_once (createRedisClient sample_config) empty_store).
    reflexivity.
  - apply (disconnect_once ready_client empty_store); reflexivity.
  - apply (disconnect_once ready_client store_down); reflexivity.
Defined.

(** X3: what was stored outlives the connection of the client: after
    [set], [disconnect()] and a new [connect()], [get] returns what it
    returned before, while between the two it throws NotConnected. *)
Theorem value_survives_reconnect c k v srv :
  RedisClient.isReady c = true → link_up srv = true →
  ∃ srv' c1 c2,
    RedisClient.set c k v None srv = (Ok (), srv')
    ∧ RedisClient.disconnect c srv' = (Ok (), c1)
    ∧ RedisClient.get c1 k srv' = (Throw NotConnected, srv')
    ∧ RedisClient.connect true srv' c1 = (Ok (), c2)
    ∧ RedisClient.get c2 k srv' = RedisClient.get c k srv'
    ∧ RedisClient.get c2 k srv' = (Ok (decode (encode v)), srv').
Proof.
  intros Hc Hs. destruct (set_get c k v srv Hc Hs) as (srv' & Hset & Hget).
  assert (link_up srv' = true) as Hs'.
  { unfold RedisClient.set, NodeRedis.set in Hset. rewrite Hc, Hs in Hset.
    cbn in Hset. by injection Hset as <-. }
  assert (∃ c1, RedisClient.disconnect c srv' = (Ok (), c1)
                ∧ RedisClient.isReady c1 = false) as (c1 & Hdis & Hnr).
  { unfold RedisClient.disconnect, NodeRedis.quit.
    pose proof Hc as Hc'. unfold RedisClient.isReady in Hc'.
    rewrite andb_comm in Hc'. rewrite Hc', Hs'.
    eexists. split; [reflexivity|]. unfold RedisClient.isReady. cbn.
    done. }
  exists srv', c1, (RedisClient.connect true srv' c1).2.
  split; [done|]. split; [done|]. split.
  { unfold RedisClient.get. by rewrite Hnr. }
  assert (RedisClient.connect true srv' c1
          = (Ok (), (RedisClient.connect true srv' c1).2)
          ∧ RedisClient.isReady (RedisClient.connect true srv' c1).2 = true)
    as [Hcon Hr2].
  { unfold RedisClient.connect. by rewrite Hs'. }
  split; [done|].
  assert (RedisClient.get (RedisClient.connect true srv' c1).2 k srv'
          = RedisClient.get c k srv') as Heq.
  { unfold RedisClient.get. by rewrite Hr2, Hc. }
  split; [done|]. by rewrite Heq.
Qed.

Lemma value_survives_reconnect_witness :
  let c := ready_client in
  let k := str "user:name" in
  let v := JStr (str "John Doe") in
  ∃ srv' c1 c2,
    RedisClient.set c k v None empty_store = (Ok (), srv')
    ∧ RedisClient.disconnect c srv' = (Ok (), c1)
    ∧ RedisClient.get c1 k srv' = (Throw NotConnected, srv')
    ∧ RedisClient.connect true srv' c1 = (Ok (), c2)
    ∧ RedisClient.get c2 k srv' = RedisClient.get c k srv'
    ∧ RedisClient.get c2 k srv' = (Ok (decode (encode v)), srv').
Proof.
  intros c k v.
  apply (value_survives_reconnect c k v empty_store); reflexivity.
Defined.

(** ** Expiry *)

Lemma lookup_live_insert s d k e :
  lookup_live (with_db s (<[k := e]> d)) k = if live (now s) e then Some e else None.
Proof. unfold lookup_live, with_db. cbn. by rewrite lookup_insert_eq. Qed.

Lemma lookup_live_insert_ne s d k k' e :
  k ≠ k' → lookup_live (with_db s (<[k := e]> d)) k' = lookup_live (with_db s d) k'.
Proof. intros. unfold lookup_live, with_db. cbn. by rewrite lookup_insert_ne. Qed.

Lemma lookup_live_with_db s k : lookup_live (with_db s (db s)) k = lookup_live s k.
Proof. done. Qed.

Lemma lookup_live_elapse s d k :
  lookup_live (elapse d s) k
  = match db s !! k with
    | Some e => if live (now s + d) e then Some e else None
    | None => None
    end.
Proof. done. Qed.

(** What [get], [exists] and [ttl] of a ready client return is read off the
    live entry of the key. *)
Lemma reads_of_ready c k srv :
  RedisClient.isReady c = true → link_up srv = true →
  RedisClient.get c k srv
  = (Ok match lookup_live srv k with
        | Some e => decode (e_text e)
        | None => JNull
        end, srv)
  ∧ RedisClient.exists_ c k srv = (Ok (bool_decide (is_Some (lookup_live srv k))), srv)
  ∧ RedisClient.ttl c k srv
    = (Ok match lookup_live srv k with
          | None => (-2)%Z
          | Some e => match e_expiry e with
                      | None => (-1)%Z
                      | Some x => (x - now srv)%Z
                      end
          end, srv).
Proof.
  intros Hc Hs.
  unfold RedisClient.get, RedisClient.exists_, RedisClient.ttl,
    NodeRedis.get, NodeRedis.exists_, NodeRedis.ttl.
  rewrite Hc, Hs. cbn [negb]. by destruct (lookup_live srv k).
Qed.

(** X4: [set(key, value, t)] with [t > 0] stores the value with [t] seconds
    to live: [ttl] is [t] at once and [t - d] after [d < t] seconds, during
    which [get] returns the stored value and [exists] is true; once [t]
    seconds have passed [get] returns null, [exists] is false and [ttl] is
    -2. *)
Theorem set_with_expiry c k v t srv :
  RedisClient.isReady c = true → link_up srv = true → (0 < t)%Z →
  ∃ srv', RedisClient.set c k v (Some t) srv = (Ok (), srv')
    ∧ ∀ d, (0 ≤ d)%Z →
        let later := elapse d srv' in
        ((d < t)%Z →
           RedisClient.get c k later = (Ok (decode (encode v)), later)
           ∧ RedisClient.exists_ c k later = (Ok true, later)
           ∧ RedisClient.ttl c k later = (Ok (t - d)%Z, later))
        ∧ ((t ≤ d)%Z →
           RedisClient.get c k later = (Ok JNull, later)
           ∧ RedisClient.exists_ c k later = (Ok false, later)
           ∧ RedisClient.ttl c k later = (Ok (-2)%Z, later)).
Proof.
  intros Hc Hs Ht. eexists. split.
  { unfold RedisClient.set, RedisClient.truthy, NodeRedis.setEx.
    rewrite Hc, Hs. cbn [negb andb].
    destruct (Z.eqb_spec t 0) as [?|_]; [lia|].
    destruct (Z.ltb_spec 0 t) as [_|?]; [|lia]. reflexivity. }
  intros d Hd later.
  destruct (reads_of_ready c k later Hc Hs) as (Hget & Hex & Httl).
  rewrite Hget, Hex, Httl. clear Hget Hex Httl.
  subst later. rewrite lookup_live_elapse. cbn [db with_db now].
  rewrite lookup_insert_eq. unfold live. cbn [e_expiry e_text].
  split; intros Hdt.
  - destruct (Z.ltb_spec (now srv + d) (now srv + t)) as [_|?]; [|lia].
    split; [done|]. split; [done|]. cbn [e_expiry now elapse with_db].
    by replace (now srv + t - (now srv + d))%Z with (t - d)%Z by lia.
  - destruct (Z.ltb_spec (now srv + d) (now srv + t)) as [?|_]; [lia|].
    done.
Qed.

Lemma set_with_expiry_witness :
  ∃ srv', RedisClient.set ready_client (str "session:abc") (JStr (str "active"))
            (Some 10%Z) empty_store = (Ok (), srv')
    ∧ ∀ d, (0 ≤ d)%Z →
        let later := elapse d srv' in
        ((d < 10)%Z →
           RedisClient.get ready_client (str "session:abc") later
           = (Ok (decode (encode (JStr (str "active")))), later)
           ∧ RedisClient.exists_ ready_client (str "session:abc") later
             = (Ok true, later)
           ∧ RedisClient.ttl ready_client (str "session:abc") later
             = (Ok (10 - d)%Z, later))
        ∧ ((10 ≤ d)%Z →
           RedisClient.get ready_client (str "session:abc") later = (Ok JNull, later)
           ∧ RedisClient.exists_ ready_client (str "session:abc") later
             = (Ok false, later)
           ∧ RedisClient.ttl ready_client (str "session:abc") later
             = (Ok (-2)%Z, later)).
Proof.
  apply (set_with_expiry ready_client (str "session:abc") (JStr (str "active"))
           10 empty_store); [reflexivity | reflexivity | lia].
Defined.

(** X5: the expiry argument of [set] is tested for truthiness: without it,
    or with 0, the plain SET is sent, which also drops an expiry the key
    had: [ttl] is -1 and the value is there after any number of seconds.
    A negative expiry is sent with SETEX, which the store refuses: [set]
    throws and nothing is stored. *)
Theorem set_expiry_edge_cases c k v srv :
  RedisClient.isReady c = true → link_up srv = true →
  (∀ expiresIn, expiresIn = None ∨ expiresIn = Some 0%Z →
     ∃ srv', RedisClient.set c k v expiresIn srv = (Ok (), srv')
       ∧ ∀ d, (0 ≤ d)%Z →
           RedisClient.ttl c k (elapse d srv') = (Ok (-1)%Z, elapse d srv')
           ∧ RedisClient.get c k (elapse d srv')
             = (Ok (decode (encode v)), elapse d srv'))
  ∧ (∀ t, (t < 0)%Z →
       RedisClient.set c k v (Some t) srv = (Throw TransportError, srv)).
Proof.
  intros Hc Hs. split.
  - intros expiresIn He. eexists. split.
    { unfold RedisClient.set, NodeRedis.set. rewrite Hc, Hs. cbn [negb].
      destruct He as [-> | ->]; reflexivity. }
    intros d Hd.
    destruct (reads_of_ready c k (elapse d (with_db srv
                (<[k:={| e_text := encode v; e_expiry := None |}]> (db srv))))
                Hc Hs) as (Hget & _ & Httl).
    rewrite Hget, Httl, lookup_live_elapse. cbn [db with_db].
    by rewrite lookup_insert_eq.
  - intros t Ht. unfold RedisClient.set, RedisClient.truthy, NodeRedis.setEx.
    rewrite Hc, Hs. cbn [negb andb].
    destruct (Z.eqb_spec t 0) as [?|_]; [lia|].
    by destruct (Z.ltb_spec 0 t) as [?|_]; [lia|].
Qed.

Lemma set_expiry_edge_cases_witness :
  (∀ expiresIn, expiresIn = None ∨ expiresIn = Some 0%Z →
     ∃ srv', RedisClient.set ready_client (str "k") (JBool true) expiresIn
               empty_store = (Ok (), srv')
       ∧ ∀ d, (0 ≤ d)%Z →
           RedisClient.ttl ready_client (str "k") (elapse d srv')
           = (Ok (-1)%Z, elapse d srv')
           ∧ RedisClient.get ready_client (str "k") (elapse d srv')
             = (Ok (decode (encode (JBool true))), elapse d srv'))
  ∧ (∀ t, (t < 0)%Z →
       RedisClient.set ready_client (str "k") (JBool true) (Some t) empty_store
       = (Throw TransportError, empty_store)).
Proof.
  apply (set_expiry_edge_cases ready_client (str "k") (JBool true) empty_store);
    reflexivity.
Defined.

(** X6: [expire] answers false for a key the store does not hold and
    changes nothing; for a key it holds and a positive number of seconds it
    answers true, [ttl] is then that number, and [get] returns what it
    returned before, as it does for every other key; for a number of
    seconds that is not positive it answers true and the key is gone. *)
Theorem expire_sets_ttl c k seconds srv :
  RedisClient.isReady c = true → link_up srv = true →
  (lookup_live srv k = None →
     RedisClient.expire c k seconds srv = (Ok false, srv))
  ∧ (is_Some (lookup_live srv k) → (0 < seconds)%Z →
     ∃ srv', RedisClient.expire c k seconds srv = (Ok true, srv')
       ∧ RedisClient.ttl c k srv' = (Ok seconds, srv')
       ∧ (∀ k', (RedisClient.get c k' srv').1 = (RedisClient.get c k' srv).1)
       ∧ ∀ k', k' ≠ k →
           (RedisClient.ttl c k' srv').1 = (RedisClient.ttl c k' srv).1)
  ∧ (is_Some (lookup_live srv k) → (seconds ≤ 0)%Z →
     ∃ srv', RedisClient.expire c k seconds srv = (Ok true, srv')
       ∧ RedisClient.exists_ c k srv' = (Ok false, srv')).
Proof.
  intros Hc Hs. split; [|split].
  - intros Hk. unfold RedisClient.expire, NodeRedis.expire.
    by rewrite Hc, Hs, Hk.
  - intros [e He] Hpos. eexists. split.
    { unfold RedisClient.expire, NodeRedis.expire. rewrite Hc, Hs, He.
      cbn [negb]. destruct (Z.ltb_spec 0 seconds) as [_|?]; [|lia].
      reflexivity. }
    set (srv' := with_db srv _).
    assert (link_up srv' = true) as Hs' by done.
    assert (lookup_live srv' k
            = Some {| e_text := e_text e; e_expiry := Some (now srv + seconds)%Z |})
      as Hk.
    { subst srv'. rewrite lookup_live_insert. unfold live. cbn [e_expiry].
      by destruct (Z.ltb_spec (now srv) (now srv + seconds)) as [_|?]; [|lia]. }
    assert (∀ k', k' ≠ k → lookup_live srv' k' = lookup_live srv k') as Hne.
    { intros k' Hk'. subst srv'. by rewrite lookup_live_insert_ne. }
    split; [|split].
    + destruct (reads_of_ready c k srv' Hc Hs') as (_ & _ & ->).
      rewrite Hk. cbn [e_expiry].
      by replace (now srv + seconds - now srv')%Z with seconds
        by (subst srv'; cbn; lia).
    + intros k'.
      destruct (reads_of_ready c k' srv' Hc Hs') as (-> & _ & _).
      destruct (reads_of_ready c k' srv Hc Hs) as (-> & _ & _).
      cbn [fst]. destruct (decide (k' = k)) as [->|Hk'].
      * by rewrite Hk, He.
      * by rewrite Hne.
    + intros k' Hk'.
      destruct (reads_of_ready c k' srv' Hc Hs') as (_ & _ & ->).
      destruct (reads_of_ready c k' srv Hc Hs) as (_ & _ & ->).
      cbn [fst]. by rewrite Hne.
  - intros [e He] Hneg. eexists. split.
    { unfold RedisClient.expire, NodeRedis.expire. rewrite Hc, Hs, He.
      cbn [negb]. destruct (Z.ltb_spec 0 seconds) as [?|_]; [lia|].
      reflexivity. }
    unfold RedisClient.exists_, NodeRedis.exists_. rewrite Hc.
    cbn [negb with_db link_up]. rewrite Hs. unfold lookup_live.
    cbn [db with_db]. by rewrite lookup_delete_eq.
Qed.

Lemma expire_sets_ttl_witness :
  let srv := (RedisClient.set ready_client (str "k") (JStr (str "v")) None
                empty_store).2 in
  (lookup_live srv (str "other") = None →
     RedisClient.expire ready_client (str "other") 600 srv = (Ok false, srv))
  ∧ (∃ srv', RedisClient.expire ready_client (str "k") 600 srv = (Ok true, srv')
       ∧ RedisClient.ttl ready_client (str "k") srv' = (Ok 600%Z, srv')
       ∧ (∀ k', (RedisClient.get ready_client k' srv').1
                = (RedisClient.get ready_client k' srv).1)
       ∧ ∀ k', k' ≠ str "k" →
           (RedisClient.ttl ready_client k' srv').1
           = (RedisClient.ttl ready_client k' srv).1)
  ∧ ∃ srv', RedisClient.expire ready_client (str "k") 0 srv = (Ok true, srv')
       ∧ RedisClient.exists_ ready_client (str "k") srv' = (Ok false, srv').
Proof.
  intros srv.
  destruct (expire_sets_ttl ready_client (str "k") 600 srv) as (_ & H & _);
    [reflexivity | reflexivity |].
  destruct (expire_sets_ttl ready_client (str "k") 0 srv) as (_ & _ & H0);
    [reflexivity | reflexivity |].
  split; [|split].
  - apply (expire_sets_ttl ready_client (str "other") 600 srv); reflexivity.
  - apply H; [by eexists | lia].
  - apply H0; [by eexists | lia].
Defined.

(** ** Several keys at once *)

Lemma pairs_entries (data : list (jsstring * json)) :
  NodeRedis.pairs (flat_map (λ kv, [kv.1; encode kv.2]) data)
  = Some ((λ kv, (kv.1, encode kv.2)) <$> data).
Proof.
  induction data as [|kv data IH]; [done|].
  cbn [flat_map app NodeRedis.pairs fmap list_fmap]. by rewrite IH.
Qed.

Lemma mSet_entries data s :
  link_up s = true → data ≠ [] →
  NodeRedis.mSet (flat_map (λ kv, [kv.1; encode kv.2]) data) s
  = (Ok (), with_db s (fold_left NodeRedis.put
                         ((λ kv, (kv.1, encode kv.2)) <$> data) (db s))).
Proof.
  intros Hs Hd. pose proof (pairs_entries data) as Hp.
  unfold NodeRedis.mSet. rewrite Hs.
  destruct data as [|kv data]; [done|].
  cbn [flat_map app] in *. by rewrite Hp.
Qed.

Lemma fold_put_lookup_ne (kvs : list (jsstring * jsstring)) d k :
  k ∉ kvs.*1 → fold_left NodeRedis.put kvs d !! k = d !! k.
Proof.
  revert d. induction kvs as [|[k' t] kvs IH]; intros d Hk; [done|].
  cbn [fmap list_fmap fst] in Hk. apply not_elem_of_cons in Hk as [Hne Hk].
  cbn [fold_left]. rewrite IH by done. unfold NodeRedis.put. cbn [fst snd].
  by rewrite lookup_insert_ne.
Qed.

Lemma fold_put_lookup (kvs : list (jsstring * jsstring)) d k t :
  NoDup kvs.*1 → (k, t) ∈ kvs →
  fold_left NodeRedis.put kvs d !! k = Some {| e_text := t; e_expiry := None |}.
Proof.
  revert d. induction kvs as [|[k' t'] kvs IH]; intros d Hnd Hin.
  { by apply elem_of_nil in Hin. }
  cbn [fmap list_fmap fst] in Hnd. apply NoDup_cons in Hnd as [Hk' Hnd].
  cbn [fold_left]. apply elem_of_cons in Hin as [Heq | Hin].
  - injection Heq as -> ->. rewrite fold_put_lookup_ne by done.
    unfold NodeRedis.put. cbn [fst snd]. by rewrite lookup_insert_eq.
  - by apply IH.
Qed.

Lemma mGet_reply ks s :
  link_up s = true → ks ≠ [] →
  NodeRedis.mGet ks s = (Ok ((λ k, e_text <$> lookup_live s k) <$> ks), s).
Proof. intros Hs Hks. unfold NodeRedis.mGet. rewrite Hs. by destruct ks. Qed.

(** X7: [mset] of the entries of a non-empty object (the keys of an object
    are distinct) stores every value as [set] without expiry does: [get]
    of each key returns its value through the codec, [ttl] is -1, [mget]
    of the keys returns the values in the order of the entries, and the
    keys that are not in the object are as they were. *)
Theorem mset_then_read c (data : list (jsstring * json)) srv :
  RedisClient.isReady c = true → link_up srv = true →
  data ≠ [] → NoDup data.*1 →
  ∃ srv', RedisClient.mset c data srv = (Ok (), srv')
    ∧ (∀ k v, (k, v) ∈ data →
         RedisClient.get c k srv' = (Ok (decode (encode v)), srv')
         ∧ RedisClient.ttl c k srv' = (Ok (-1)%Z, srv'))
    ∧ RedisClient.mget c data.*1 srv'
      = (Ok ((λ kv, decode (encode kv.2)) <$> data), srv')
    ∧ ∀ k, k ∉ data.*1 → lookup_live srv' k = lookup_live srv k.
Proof.
  intros Hc Hs Hne Hnd. eexists. split.
  { unfold RedisClient.mset. rewrite Hc. cbn [negb]. by apply mSet_entries. }
  set (kvs := (λ kv, (kv.1, encode kv.2)) <$> data).
  set (srv' := with_db srv _).
  assert (kvs.*1 = data.*1) as Hkeys.
  { subst kvs. rewrite <- list_fmap_compose. by apply list_fmap_ext. }
  assert (∀ k v, (k, v) ∈ data →
            lookup_live srv' k = Some {| e_text := encode v; e_expiry := None |})
    as Hin.
  { intros k v Hkv. unfold lookup_live. subst srv'. cbn [db with_db].
    rewrite (fold_put_lookup kvs (db srv) k (encode v)); [done | by rewrite Hkeys |].
    subst kvs. apply list_elem_of_fmap. by exists (k, v). }
  split; [|split].
  - intros k v Hkv.
    destruct (reads_of_ready c k srv' Hc Hs) as (-> & _ & ->).
    by rewrite (Hin k v Hkv).
  - unfold RedisClient.mget. rewrite Hc. cbn [negb].
    rewrite mGet_reply; [|done|by destruct data]. do 2 f_equal.
    rewrite <- !list_fmap_compose. apply list_fmap_ext.
    intros i [k v] Hi. cbn [compose fst snd].
    rewrite (Hin k v); [done|]. by eapply list_elem_of_lookup_2.
  - intros k Hk. unfold lookup_live. subst srv'. cbn [db with_db].
    rewrite fold_put_lookup_ne; [done | by rewrite Hkeys].
Qed.

Lemma mset_then_read_witness :
  let data := [(str "key1", JStr (str "value1")); (str "key2", JNum 42 0);
               (str "key3", JObj [(str "nested", JBool true)])] in
  ∃ srv', RedisClient.mset ready_client data empty_store = (Ok (), srv')
    ∧ (∀ k v, (k, v) ∈ data →
         RedisClient.get ready_client k srv' = (Ok (decode (encode v)), srv')
         ∧ RedisClient.ttl ready_client k srv' = (Ok (-1)%Z, srv'))
    ∧ RedisClient.mget ready_client data.*1 srv'
      = (Ok ((λ kv, decode (encode kv.2)) <$> data), srv')
    ∧ ∀ k, k ∉ data.*1 → lookup_live srv' k = lookup_live empty_store k.
Proof.
  intros data.
  apply (mset_then_read ready_client data empty_store);
    [reflexivity | reflexivity | discriminate |].
  apply (bool_decide_unpack _). vm_compute. reflexivity.
Defined.

(** X8: [mset] of a non-empty object changes the store as the [set]s of
    its entries without expiry, one after the other, do. *)
Theorem mset_as_sets c (data : list (jsstring * json)) srv :
  RedisClient.isReady c = true → link_up srv = true → data ≠ [] →
  RedisClient.mset c data srv
  = (Ok (), fold_left (λ s kv, (RedisClient.set c kv.1 kv.2 None s).2) data srv).
Proof.
  intros Hc Hs Hne. unfold RedisClient.mset. rewrite Hc. cbn [negb].
  rewrite mSet_entries by done. f_equal. clear Hne.
  revert srv Hs. induction data as [|kv data IH]; intros srv Hs.
  { by destruct srv. }
  cbn [fold_left fmap list_fmap].
  assert ((RedisClient.set c kv.1 kv.2 None srv).2
          = with_db srv (NodeRedis.put (db srv) (kv.1, encode kv.2))) as ->.
  { unfold RedisClient.set, NodeRedis.set. by rewrite Hc, Hs. }
  by rewrite <- IH.
Qed.

Lemma mset_as_sets_witness :
  let data := [(str "a", JNum 1 0); (str "b", JArr [JNull])] in
  RedisClient.mset ready_client data empty_store
  = (Ok (), fold_left (λ s kv, (RedisClient.set ready_client kv.1 kv.2 None s).2)
              data empty_store).
Proof.
  intros data.
  apply (mset_as_sets ready_client data empty_store);
    [reflexivity | reflexivity | discriminate].
Defined.

(** X9: [mget] of a non-empty array of keys leaves the store as it is and
    returns one value per key, in the order of the keys: the value [get]
    returns for that key, null for a key the store does not hold. *)
Theorem mget_as_gets c ks srv :
  RedisClient.isReady c = true → link_up srv = true → ks ≠ [] →
  ∃ values, RedisClient.mget c ks srv = (Ok values, srv)
    ∧ Forall2 (λ k v, RedisClient.get c k srv = (Ok v, srv)) ks values.
Proof.
  intros Hc Hs Hks. eexists. split.
  { unfold RedisClient.mget. rewrite Hc. cbn [negb].
    by rewrite mGet_reply. }
  rewrite <- list_fmap_compose. apply Forall2_fmap_r, Forall_Forall2_diag.
  apply Forall_forall. intros k _.
  destruct (reads_of_ready c k srv Hc Hs) as (-> & _ & _).
  cbn [compose]. by destruct (lookup_live srv k).
Qed.

Lemma mget_as_gets_witness :
  let srv := (RedisClient.set ready_client (str "key1") (JNum 42 0) None
                empty_store).2 in
  ∃ values,
    RedisClient.mget ready_client [str "key1"; str "nonexistent"] srv
    = (Ok values, srv)
    ∧ Forall2 (λ k v, RedisClient.get ready_client k srv = (Ok v, srv))
        [str "key1"; str "nonexistent"] values.
Proof.
  intros srv.
  apply (mget_as_gets ready_client [str "key1"; str "nonexistent"] srv);
    [reflexivity | reflexivity | discriminate].
Defined.

(** X10: [delete] of an empty array answers 0 without sending a command,
    also while the link is down; [mset] of an empty object and [mget] of
    an empty array have no such test: the command goes out without
    arguments, the store refuses it and the call throws. *)
Theorem empty_batches c srv :
  RedisClient.isReady c = true →
  RedisClient.delete c (inr []) srv = (Ok 0%Z, srv)
  ∧ RedisClient.mset c [] srv = (Throw TransportError, srv)
  ∧ RedisClient.mget c [] srv = (Throw TransportError, srv).
Proof.
  intros Hc.
  unfold RedisClient.delete, RedisClient.mset, RedisClient.mget,
    NodeRedis.mSet, NodeRedis.mGet.
  rewrite Hc. cbn. by destruct (link_up srv).
Qed.

Lemma empty_batches_witness :
  RedisClient.delete ready_client (inr []) store_down = (Ok 0%Z, store_down)
  ∧ RedisClient.mset ready_client [] empty_store
    = (Throw TransportError, empty_store)
  ∧ RedisClient.mget ready_client [] empty_store
    = (Throw TransportError, empty_store).
Proof.
  split; [|split].
  - apply (empty_batches ready_client store_down). reflexivity.
  - apply (empty_batches ready_client empty_store). reflexivity.
  - apply (empty_batches ready_client empty_store). reflexivity.
Defined.

(** X11: [get], [exists], [ttl], [mget] and [keys] never change the store,
    whatever the state of the client and of the link. *)
Theorem reads_leave_store glob c k ks pattern srv :
  (RedisClient.get c k srv).2 = srv
  ∧ (RedisClient.exists_ c k srv).2 = srv
  ∧ (RedisClient.ttl c k srv).2 = srv
  ∧ (RedisClient.mget c ks srv).2 = srv
  ∧ (RedisClient.keys glob c pattern srv).2 = srv.
Proof.
  unfold RedisClient.get, RedisClient.exists_, RedisClient.ttl,
    RedisClient.mget, RedisClient.keys, NodeRedis.get, NodeRedis.exists_,
    NodeRedis.ttl, NodeRedis.mGet, NodeRedis.keys.
  destruct (RedisClient.isReady c), (link_up srv); cbn [negb];
    repeat split; try done.
  - by destruct (lookup_live srv k).
  - by destruct ks.
Qed.

(** ** Flushing and listing *)

(** X12: [keys] leaves the store as it is and returns, each once, exactly
    the keys the store holds at that time that the matcher of the store
    accepts for the pattern; without a pattern the pattern is "*". *)
Theorem keys_exact glob c pattern srv :
  RedisClient.isReady c = true → link_up srv = true →
  ∃ l, RedisClient.keys glob c pattern srv = (Ok l, srv)
    ∧ NoDup l
    ∧ ∀ k, k ∈ l ↔ is_Some (lookup_live srv k)
                    ∧ glob (default (str "*") pattern) k = true.
Proof.
  intros Hc Hs. eexists. split.
  { unfold RedisClient.keys, NodeRedis.keys. by rewrite Hc, Hs. }
  split.
  - apply NoDup_fmap_fst.
    + intros k e1 e2 H1 H2.
      apply list_elem_of_filter in H1 as [_ H1], H2 as [_ H2].
      apply elem_of_map_to_list in H1, H2. congruence.
    + apply NoDup_filter, NoDup_map_to_list.
  - intros k. rewrite list_elem_of_fmap. split.
    + intros ([k' e] & -> & Hin). apply list_elem_of_filter in Hin as [Hp Hin].
      apply elem_of_map_to_list in Hin. cbn [fst snd] in *.
      apply andb_prop_elim in Hp as [Hl Hg]. apply Is_true_true in Hl, Hg.
      unfold lookup_live. rewrite Hin, Hl. by split.
    + intros [[e He] Hg]. unfold lookup_live in He.
      destruct (db srv !! k) as [e'|] eqn:Hk; [|done].
      destruct (live (now srv) e') eqn:Hl; [|done].
      exists (k, e'). split; [done|]. apply list_elem_of_filter. split.
      * cbn [fst snd]. by rewrite Hl, Hg.
      * by apply elem_of_map_to_list.
Qed.

Lemma keys_exact_witness :
  let glob := λ p k : jsstring, bool_decide (p = str "*") in
  let srv := (RedisClient.set ready_client (str "k") JNull None empty_store).2 in
  ∃ l, RedisClient.keys glob ready_client None srv = (Ok l, srv)
    ∧ NoDup l
    ∧ ∀ k, k ∈ l ↔ is_Some (lookup_live srv k)
                    ∧ glob (default (str "*") None) k = true.
Proof.
  intros glob srv.
  apply (keys_exact glob ready_client None srv); reflexivity.
Defined.

(** X13: after [flushDb] or [flushAll] the store holds no key: [get]
    returns null and [exists] false for every key, [keys] returns the
    empty list for every pattern, and [delete] removes nothing. *)
Theorem flush_empties glob c srv :
  RedisClient.isReady c = true → link_up srv = true →
  RedisClient.flushAll c srv = RedisClient.flushDb c srv
  ∧ ∃ srv', RedisClient.flushDb c srv = (Ok (), srv')
    ∧ (∀ k, RedisClient.get c k srv' = (Ok JNull, srv')
            ∧ RedisClient.exists_ c k srv' = (Ok false, srv')
            ∧ RedisClient.ttl c k srv' = (Ok (-2)%Z, srv'))
    ∧ (∀ pattern, RedisClient.keys glob c pattern srv' = (Ok [], srv')).
Proof.
  intros Hc Hs. split; [done|]. eexists. split.
  { unfold RedisClient.flushDb, NodeRedis.flushDb. by rewrite Hc, Hs. }
  split.
  - intros k.
    destruct (reads_of_ready c k (with_db srv ∅) Hc Hs) as (-> & -> & ->).
    unfold lookup_live. cbn [db with_db]. by rewrite lookup_empty.
  - intros pattern. unfold RedisClient.keys, NodeRedis.keys.
    rewrite Hc. cbn [negb link_up with_db db]. rewrite Hs.
    by rewrite map_to_list_empty.
Qed.

Lemma flush_empties_witness :
  let glob := λ p k : jsstring, true in
  let srv := (RedisClient.set ready_client (str "k") JNull None empty_store).2 in
  RedisClient.flushAll ready_client srv = RedisClient.flushDb ready_client srv
  ∧ ∃ srv', RedisClient.flushDb ready_client srv = (Ok (), srv')
    ∧ (∀ k, RedisClient.get ready_client k srv' = (Ok JNull, srv')
            ∧ RedisClient.exists_ ready_client k srv' = (Ok false, srv')
            ∧ RedisClient.ttl ready_client k srv' = (Ok (-2)%Z, srv'))
    ∧ (∀ pattern, RedisClient.keys glob ready_client pattern srv' = (Ok [], srv')).
Proof.
  intros glob srv.
  apply (flush_empties glob ready_client srv); reflexivity.
Defined.

(** ** Counters *)

Lemma val_rev_cons d l : val (rev (d :: l)) = d + 10 * val (rev l).
Proof. cbn [rev]. rewrite val_snoc. lia. Qed.

Lemma val_rev_zero l :
  last l ≠ Some 0 → val (rev l) = 0 → l = [].
Proof.
  induction l as [|d l IH]; [done|]. intros Hl Hv.
  rewrite val_rev_cons in Hv.
  assert (d = 0 ∧ val (rev l) = 0) as [-> Hv'] by lia.
  destruct l as [|d' l]; [done|]. rewrite last_cons_cons in Hl.
  by specialize (IH Hl Hv').
Qed.

Lemma val_rev_inj l1 l2 :
  Forall (λ d, d < 10) l1 → Forall (λ d, d < 10) l2 →
  last l1 ≠ Some 0 → last l2 ≠ Some 0 →
  val (rev l1) = val (rev l2) → l1 = l2.
Proof.
  revert l2. induction l1 as [|d1 l1 IH]; intros l2 H1 H2 Hl1 Hl2 Hv.
  - symmetry. by apply val_rev_zero.
  - destruct l2 as [|d2 l2]; [by apply val_rev_zero|].
    apply Forall_cons in H1 as [Hd1 H1], H2 as [Hd2 H2].
    rewrite !val_rev_cons in Hv.
    assert (d1 = d2 ∧ val (rev l1) = val (rev l2)) as [-> Hv'] by lia.
    f_equal. apply IH; try done.
    + destruct l1; [done|]. by rewrite last_cons_cons in Hl1.
    + destruct l2; [done|]. by rewrite last_cons_cons in Hl2.
Qed.

Lemma val_head_pos d r : d ≠ 0 → val (d :: r) ≠ 0.
Proof.
  intros Hd. change (d :: r) with ([d] ++ r). rewrite val_app.
  assert (val [d] = d) as -> by (unfold val; simpl; lia).
  pose proof (N.pow_nonzero 10 (N.of_nat (length r))). nia.
Qed.

(** The digits of a number are the only digit sequence without leading zero
    that has its value. *)
Lemma digits_val d r :
  Forall (λ x, x < 10) (d :: r) → d ≠ 0 → digits (val (d :: r)) = d :: r.
Proof.
  intros Hds Hd. pose proof (val_head_pos d r Hd) as Hv.
  pose proof (val_digits (val (d :: r))) as Hvd.
  unfold digits in *. destruct (N.eqb_spec (val (d :: r)) 0) as [?|_]; [done|].
  set (l := digits_le _ _) in *.
  rewrite <- (rev_involutive (d :: r)). f_equal.
  apply val_rev_inj.
  - apply digits_le_lt.
  - by apply Forall_rev.
  - intros Hl. eapply digits_le_last; [|exact Hl|done].
    rewrite N2Nat.id. apply N.size_gt.
  - cbn [rev]. rewrite last_snoc. congruence.
  - by rewrite rev_involutive.
Qed.

Lemma take_digits_all r ds :
  take_digits r = (ds, []) → r = chars ds ∧ Forall (λ d, d < 10) ds.
Proof.
  revert ds. induction r as [|c r IH]; intros ds; cbn [take_digits].
  { by intros [= <-]. }
  destruct (is_digit c) eqn:Hc; [|done].
  destruct (take_digits r) as [ds' r'] eqn:E. intros [= <- ->].
  destruct (IH ds' eq_refl) as [-> Hds].
  unfold is_digit in Hc. apply andb_prop in Hc as [H1 H2].
  apply N.leb_le in H1, H2. split.
  - cbn [chars map]. f_equal. lia.
  - constructor; [lia | done].
Qed.

Lemma chars_digit_head d : d < 10 → (48 + d =? Ch.minus) = false.
Proof. intros. apply N.eqb_neq. unfold Ch.minus. lia. Qed.

Lemma parse_ll_show_int z :
  NodeRedis.in_int64 z = true → NodeRedis.parse_ll (NodeRedis.show_int z) = Some z.
Proof.
  intros Hz. unfold NodeRedis.show_int, NodeRedis.parse_ll.
  pose proof (digits_lt (Z.abs_N z)) as Hlt.
  destruct (Z.eq_dec z 0%Z) as [->|Hnz]; [done|].
  destruct (digits_head (Z.abs_N z)) as (d & r & Hd & Hd0); [lia|].
  pose proof (val_digits (Z.abs_N z)) as Hv.
  rewrite Hd in *. apply Forall_cons in Hlt as [Hd10 Hr].
  assert (take_digits (chars (d :: r)) = (d :: r, [])) as Ht.
  { rewrite <- (app_nil_r (chars _)). apply take_digits_chars; [|done].
    by constructor. }
  destruct (Z.ltb_spec z 0) as [Hneg|Hpos].
  - cbn [app]. rewrite N.eqb_refl, Ht.
    destruct (N.eqb_spec d 0) as [?|_]; [done|]. rewrite Hv.
    replace (- Z.of_N (Z.abs_N z))%Z with z by lia. by rewrite Hz.
  - cbn [app]. change (chars (d :: r)) with ((48 + d) :: chars r) in *.
    cbv beta iota. rewrite chars_digit_head by done. rewrite Ht.
    destruct (N.eqb_spec d 0) as [?|_]; [done|]. rewrite Hv.
    replace (Z.of_N (Z.abs_N z))%Z with z by lia. by rewrite Hz.
Qed.

(** The store reads as an integer only the text it would write for it. *)
Lemma parse_ll_canonical t z :
  NodeRedis.parse_ll t = Some z → t = NodeRedis.show_int z ∧ NodeRedis.in_int64 z = true.
Proof.
  unfold NodeRedis.parse_ll, NodeRedis.show_int.
  set (p := match t with
            | c :: r => if c =? Ch.minus then (true, r) else (false, t)
            | [] => (false, [])
            end).
  assert (t = (if p.1 then [Ch.minus] else []) ++ p.2) as Ht.
  { subst p. destruct t as [|c r]; [done|].
    by destruct (N.eqb_spec c Ch.minus) as [->|_]. }
  destruct p as [neg r]. cbn [fst snd] in Ht.
  destruct (take_digits r) as [[|d ds] [|x rest]] eqn:E; try done.
  apply take_digits_all in E as [-> Hds].
  destruct (N.eqb_spec d 0) as [->|Hd].
  - destruct neg, ds; try done. by intros [= <-].
  - pose proof (val_head_pos d ds Hd) as Hv.
    destruct (NodeRedis.in_int64 _) eqn:Hin; [|done]. intros [= <-].
    split; [|done]. rewrite Ht. destruct neg.
    + destruct (Z.ltb_spec (- Z.of_N (val (d :: ds))) 0) as [_|?]; [|lia].
      replace (Z.abs_N (- Z.of_N (val (d :: ds)))) with (val (d :: ds)) by lia.
      by rewrite digits_val.
    + destruct (Z.ltb_spec (Z.of_N (val (d :: ds))) 0) as [?|_]; [lia|].
      replace (Z.abs_N (Z.of_N (val (d :: ds)))) with (val (d :: ds)) by lia.
      by rewrite digits_val.
Qed.

Lemma in_int64_spec z :
  NodeRedis.in_int64 z = true ↔ (- 2 ^ 63 ≤ z < 2 ^ 63)%Z.
Proof.
  unfold NodeRedis.in_int64. rewrite andb_true_iff, Z.leb_le, Z.ltb_lt. done.
Qed.

Lemma incrBy_reply k n srv z0 expiry :
  link_up srv = true → NodeRedis.in_int64 n = true →
  NodeRedis.counter_state srv k = Some (z0, expiry) →
  NodeRedis.in_int64 (z0 + n) = true →
  NodeRedis.incrBy k n srv
  = (Ok (z0 + n)%Z,
     with_db srv (<[k := {| e_text := NodeRedis.show_int (z0 + n);
                            e_expiry := expiry |}]> (db srv))).
Proof.
  intros Hs Hn Hst Hz. unfold NodeRedis.incrBy in *.
  rewrite Hs, Hn. cbn [andb]. rewrite Hst. by rewrite Hz.
Qed.

Lemma counter_state_after k srv z expiry :
  NodeRedis.in_int64 z = true →
  (∀ e, lookup_live srv k = Some e → e_expiry e = expiry) →
  (lookup_live srv k = None → expiry = None) →
  NodeRedis.counter_state
    (with_db srv (<[k := {| e_text := NodeRedis.show_int z;
                            e_expiry := expiry |}]> (db srv))) k
  = Some (z, expiry).
Proof.
  intros Hz Hsome Hnone. unfold NodeRedis.counter_state. rewrite lookup_live_insert.
  assert (live (now srv) {| e_text := NodeRedis.show_int z; e_expiry := expiry |}
          = true) as ->.
  { unfold lookup_live in *. destruct (db srv !! k) as [e|]; [|by rewrite Hnone].
    destruct (live (now srv) e) eqn:Hl; [|by rewrite Hnone].
    rewrite <- (Hsome e eq_refl). by destruct e. }
  cbn [e_text e_expiry]. by rewrite parse_ll_show_int.
Qed.

Lemma incrBy_inv k n srv z srv' :
  NodeRedis.incrBy k n srv = (Ok z, srv') →
  link_up srv = true ∧ NodeRedis.in_int64 n = true ∧ NodeRedis.in_int64 z = true
  ∧ ∃ z0 expiry, NodeRedis.counter_state srv k = Some (z0, expiry) ∧ z = (z0 + n)%Z
      ∧ srv' = with_db srv (<[k := {| e_text := NodeRedis.show_int z;
                                      e_expiry := expiry |}]> (db srv)).
Proof.
  unfold NodeRedis.incrBy.
  destruct (link_up srv); [|done]. destruct (NodeRedis.in_int64 n); [|done].
  cbn [andb].
  destruct (NodeRedis.counter_state srv k) as [[z0 expiry]|]; [|done].
  destruct (NodeRedis.in_int64 (z0 + n)) eqn:Hz; [|done].
  intros [= <- <-]. repeat split; try done. by exists z0, expiry.
Qed.

Lemma counter_state_expiry srv k z0 expiry :
  NodeRedis.counter_state srv k = Some (z0, expiry) →
  (∀ e, lookup_live srv k = Some e → e_expiry e = expiry)
  ∧ (lookup_live srv k = None → expiry = None).
Proof.
  unfold NodeRedis.counter_state. destruct (lookup_live srv k) as [e|].
  - destruct (NodeRedis.parse_ll (e_text e)); [|done].
    intros [= <- <-]. split; [by intros ? [= <-] | done].
  - intros [= <- <-]. done.
Qed.

(** X14: for [incr] and [decr] a key the store does not hold counts from 0:
    for a safe integer [n], [incr(key, n)] answers [n] and [decr(key, n)]
    answers [-n], and 1 and -1 when [n] is left out; the key is then there
    without expiry. *)
Theorem counter_starts_at_zero c k n srv :
  RedisClient.isReady c = true → link_up srv = true →
  lookup_live srv k = None → safe_integer n →
  (∃ srv', RedisClient.incr c k (Some n) srv = (Ok n, srv')
           ∧ RedisClient.ttl c k srv' = (Ok (-1)%Z, srv'))
  ∧ (∃ srv', RedisClient.decr c k (Some n) srv = (Ok (- n)%Z, srv')
             ∧ RedisClient.ttl c k srv' = (Ok (-1)%Z, srv'))
  ∧ (RedisClient.incr c k None srv).1 = Ok 1%Z
  ∧ (RedisClient.decr c k None srv).1 = Ok (-1)%Z.
Proof.
  intros Hc Hs Hk Hn. unfold safe_integer in Hn.
  assert (NodeRedis.counter_state srv k = Some (0%Z, None)) as Hst.
  { unfold NodeRedis.counter_state. by rewrite Hk. }
  assert (∀ m, (- 2 ^ 63 ≤ m < 2 ^ 63)%Z →
            ∃ srv', NodeRedis.incrBy k m srv = (Ok m, srv')
                    ∧ RedisClient.ttl c k srv' = (Ok (-1)%Z, srv')) as Hincr.
  { intros m Hm. apply in_int64_spec in Hm. eexists. split.
    { rewrite (incrBy_reply k m srv 0 None); try done. }
    set (srv' := with_db srv _).
    destruct (reads_of_ready c k srv' Hc Hs) as (_ & _ & ->).
    subst srv'. by rewrite lookup_live_insert. }
  unfold RedisClient.incr, RedisClient.decr, NodeRedis.decrBy.
  rewrite Hc. cbn [negb].
  change (default 1%Z (Some n)) with n. change (default 1%Z None) with 1%Z.
  destruct (Z.eqb_spec n (- 2 ^ 63)) as [?|_]; [lia|].
  split; [|split; [|split]].
  - apply Hincr. lia.
  - apply Hincr. lia.
  - destruct (Hincr 1%Z) as (? & -> & _); [lia | done].
  - change (1 =? - 2 ^ 63)%Z with false. cbv iota.
    change (- (1))%Z with (-1)%Z.
    destruct (Hincr (-1)%Z) as (? & -> & _); [lia | done].
Qed.

Lemma counter_starts_at_zero_witness :
  (∃ srv', RedisClient.incr ready_client (str "counter") (Some 5%Z) empty_store
           = (Ok 5%Z, srv')
           ∧ RedisClient.ttl ready_client (str "counter") srv' = (Ok (-1)%Z, srv'))
  ∧ (∃ srv', RedisClient.decr ready_client (str "counter") (Some 5%Z) empty_store
             = (Ok (- 5)%Z, srv')
             ∧ RedisClient.ttl ready_client (str "counter") srv' = (Ok (-1)%Z, srv'))
  ∧ (RedisClient.incr ready_client (str "counter") None empty_store).1 = Ok 1%Z
  ∧ (RedisClient.decr ready_client (str "counter") None empty_store).1
    = Ok (-1)%Z.
Proof.
  apply (counter_starts_at_zero ready_client (str "counter") 5 empty_store);
    [reflexivity | reflexivity | reflexivity | unfold safe_integer; lia].
Defined.

(** X15: counting goes on from the last answer: after an [incr] that
    answered the safe integer [z], [incr(key, n)] answers [z + n], for safe
    integers [n] and [z + n]; it keeps the time to live of the key and
    leaves the other keys alone. *)
Theorem incr_accumulates c k a n z srv srv1 :
  RedisClient.incr c k a srv = (Ok z, srv1) →
  safe_integer z → safe_integer n → safe_integer (z + n) →
  ∃ srv2, RedisClient.incr c k (Some n) srv1 = (Ok (z + n)%Z, srv2)
    ∧ (RedisClient.ttl c k srv2).1 = (RedisClient.ttl c k srv1).1
    ∧ ∀ k', k' ≠ k → lookup_live srv2 k' = lookup_live srv1 k'.
Proof.
  intros Hincr _ Hn Hzn.
  assert (NodeRedis.in_int64 n = true ∧ NodeRedis.in_int64 (z + n) = true)
    as [Hn' Hzn'] by (unfold safe_integer in *; split; apply in_int64_spec; lia).
  clear Hn Hzn.
  unfold RedisClient.incr in *.
  destruct (RedisClient.isReady c) eqn:Hc; [|done]. cbn [negb] in *.
  change (default 1%Z (Some n)) with n.
  apply incrBy_inv in Hincr as (Hs & _ & Hz & z0 & expiry & Hst & -> & ->).
  apply counter_state_expiry in Hst as [Hsome Hnone].
  set (srv1 := with_db srv _).
  pose proof (counter_state_after k srv (z0 + default 1%Z a) expiry Hz Hsome Hnone)
    as Hst1. fold srv1 in Hst1.
  assert (link_up srv1 = true) as Hs1 by done.
  eexists. split; [by apply incrBy_reply|]. split.
  - set (srv2 := with_db srv1 _).
    destruct (reads_of_ready c k srv2 Hc Hs) as (_ & _ & ->).
    destruct (reads_of_ready c k srv1 Hc Hs) as (_ & _ & ->).
    cbn [fst]. f_equal. subst srv2 srv1. rewrite !lookup_live_insert.
    unfold live. cbn [e_expiry db with_db now].
    destruct expiry as [x|]; [|done]. by destruct (now srv <? x)%Z.
  - intros k' Hk'. by rewrite lookup_live_insert_ne.
Qed.

Lemma incr_accumulates_witness :
  let srv1 := (RedisClient.incr ready_client (str "counter") None empty_store).2 in
  ∃ srv2, RedisClient.incr ready_client (str "counter") (Some 5%Z) srv1
          = (Ok (1 + 5)%Z, srv2)
    ∧ (RedisClient.ttl ready_client (str "counter") srv2).1
      = (RedisClient.ttl ready_client (str "counter") srv1).1
    ∧ ∀ k', k' ≠ str "counter" → lookup_live srv2 k' = lookup_live srv1 k'.
Proof.
  intros srv1.
  apply (incr_accumulates ready_client (str "counter") None 5 1 empty_store srv1);
    [reflexivity | unfold safe_integer; lia | unfold safe_integer; lia
    | unfold safe_integer; lia].
Defined.

(** X16: [decr] undoes [incr]: when the key is there, [incr(key, n)]
    followed by [decr(key, n)] answers the number the key stood for (a safe
    integer, as [n] is) and the store is again exactly as it was before the
    two calls. *)
Theorem incr_then_decr_restores c k n z srv srv1 :
  is_Some (lookup_live srv k) →
  RedisClient.incr c k (Some n) srv = (Ok z, srv1) →
  safe_integer n → safe_integer (z - n) →
  RedisClient.decr c k (Some n) srv1 = (Ok (z - n)%Z, srv).
Proof.
  intros [e He] Hincr Hn _. unfold safe_integer in Hn.
  unfold RedisClient.incr, RedisClient.decr in *.
  destruct (RedisClient.isReady c) eqn:Hc; [|done]. cbn [negb] in *.
  change (default 1%Z (Some n)) with n in *.
  apply incrBy_inv in Hincr as (Hs & Hn64 & Hz & z0 & expiry & Hst & -> & ->).
  pose proof Hst as Hst0. apply counter_state_expiry in Hst as [Hsome Hnone].
  unfold NodeRedis.counter_state in Hst0. rewrite He in Hst0.
  destruct (NodeRedis.parse_ll (e_text e)) as [z0'|] eqn:Hp; [|done].
  injection Hst0 as -> Hexp. apply parse_ll_canonical in Hp as [Htext Hz0].
  set (srv1 := with_db srv _).
  pose proof (counter_state_after k srv (z0 + n) expiry Hz Hsome Hnone) as Hst1.
  fold srv1 in Hst1. unfold NodeRedis.decrBy.
  destruct (Z.eqb_spec n (- 2 ^ 63)) as [?|_]; [lia|].
  apply in_int64_spec in Hn64. pose proof Hz0 as Hz0'.
  apply in_int64_spec in Hz0'.
  rewrite (incrBy_reply k (- n) srv1 (z0 + n) expiry); try done.
  - replace (z0 + n + - n)%Z with z0 by lia.
    replace (z0 + n - n)%Z with z0 by lia. f_equal.
    subst srv1. unfold with_db. cbn [db now link_up].
    rewrite insert_insert_eq, <- Htext, <- Hexp.
    unfold lookup_live in He. destruct (db srv !! k) as [e'|] eqn:Hk; [|done].
    destruct (live (now srv) e'); [|done]. injection He as ->.
    rewrite insert_id; [by destruct srv | by destruct e].
  - apply in_int64_spec. lia.
  - apply in_int64_spec. lia.
Qed.

Lemma incr_then_decr_restores_witness :
  let srv := (RedisClient.set ready_client (str "counter") (JNum 1 1) (Some 60%Z)
                empty_store).2 in
  let r := RedisClient.incr ready_client (str "counter") (Some 5%Z) srv in
  r.1 = Ok 15%Z
  ∧ RedisClient.decr ready_client (str "counter") (Some 5%Z) r.2
    = (Ok (15 - 5)%Z, srv).
Proof.
  intros srv r. split; [reflexivity|].
  apply (incr_then_decr_restores ready_client (str "counter") 5 15 srv r.2);
    [by eexists | reflexivity | unfold safe_integer; lia
    | unfold safe_integer; lia].
Defined.

Lemma val_zeros n : val (replicate n 0) = 0.
Proof. rewrite <- (app_nil_r (replicate n 0)). by rewrite val_replicate_0. Qed.

Lemma val_lower_bound d r : d ≠ 0 → 10 ^ N.of_nat (length r) ≤ val (d :: r).
Proof.
  intros Hd. change (d :: r) with ([d] ++ r). rewrite val_app.
  assert (val [d] = d) as -> by (unfold val; simpl; lia).
  pose proof (N.pow_nonzero 10 (N.of_nat (length r))). nia.
Qed.

(** For an integer within 64 bits Number::toString prints the plain decimal
    text, which is the text the store writes for it. *)
Lemma show_number_int m e :
  normal_number m e → (0 ≤ e)%Z → NodeRedis.in_int64 (m * 10 ^ e) = true →
  show_number m e = NodeRedis.show_int (m * 10 ^ e).
Proof.
  intros Hn He Hz. apply in_int64_spec in Hz.
  unfold normal_number, show_number, NodeRedis.show_int in *.
  destruct (Z.eqb_spec m 0) as [->|Hm]; [by subst e|].
  pose proof (digits_lt (Z.abs_N m)) as Hlt.
  pose proof (val_digits (Z.abs_N m)) as Hv.
  destruct (digits_head (Z.abs_N m)) as (d & r & Hd & Hd0); [lia|].
  set (ds := digits (Z.abs_N m)) in *.
  set (z := (m * 10 ^ e)%Z) in *.
  assert (0 < 10 ^ e)%Z as Hpow by (apply Z.pow_pos_nonneg; lia).
  assert (Z.abs_N z = val (ds ++ replicate (Z.to_nat e) 0)) as Habs.
  { rewrite val_app, val_zeros, length_replicate, Hv. apply N2Z.inj.
    rewrite N2Z.inj_abs_N, N2Z.inj_add, N2Z.inj_mul, N2Z.inj_pow, N2Z.inj_abs_N.
    subst z. rewrite Z.abs_mul, (Z.abs_eq (10 ^ e)) by lia.
    replace (Z.of_N (N.of_nat (Z.to_nat e))) with e by lia.
    change (Z.of_N 10) with 10%Z. change (Z.of_N 0) with 0%Z. lia. }
  assert (digits (Z.abs_N z) = ds ++ replicate (Z.to_nat e) 0) as Hdz.
  { rewrite Habs, Hd. cbn [app]. apply digits_val; [|done].
    rewrite app_comm_cons, <- Hd. apply Forall_app. split; [done|].
    apply Forall_replicate. lia. }
  assert (Z.of_nat (length ds) + e ≤ 21)%Z as Hlen.
  { pose proof (val_lower_bound d (r ++ replicate (Z.to_nat e) 0) Hd0) as Hb.
    rewrite app_comm_cons, <- Hd, <- Habs, length_app, length_replicate in Hb.
    rewrite Hd. cbn [length].
    destruct (Z_le_gt_dec (Z.of_nat (length r) + e) 18) as [?|Hbig]; [lia|].
    assert (10 ^ 19 ≤ 10 ^ N.of_nat (length r + Z.to_nat e)) as Hmono.
    { apply N.pow_le_mono_r; lia. }
    assert (Z.of_N (Z.abs_N z) < 2 ^ 63)%Z as Hzb by lia.
    assert (10 ^ 19 ≤ Z.abs_N z) as Hge by lia.
    apply N2Z.inj_le in Hge. change (Z.of_N (10 ^ 19)) with (10 ^ 19)%Z in Hge.
    lia. }
  assert ((z <? 0)%Z = (m <? 0)%Z) as ->.
  { subst z. destruct (Z.ltb_spec m 0), (Z.ltb_spec (m * 10 ^ e) 0); try done; nia. }
  f_equal.
  destruct (Z.leb_spec (Z.of_nat (length ds)) (Z.of_nat (length ds) + e)) as [_|?];
    [|lia].
  destruct (Z.leb_spec (Z.of_nat (length ds) + e) 21) as [_|?]; [|lia].
  cbn [andb]. rewrite Hdz, chars_app, chars_replicate. do 2 f_equal. lia.
Qed.

(** X17: a number that is a safe integer, stored with [set], is a counter:
    [incr(key, n)] answers the sum, and [get] then returns the sum as a
    number, as long as the sum is a safe integer. *)
Theorem counter_of_number c k m e n m' e' srv :
  RedisClient.isReady c = true → link_up srv = true →
  normal_number m e → (0 ≤ e)%Z → safe_integer (m * 10 ^ e) →
  safe_integer n →
  normal_number m' e' → (0 ≤ e')%Z → safe_integer (m' * 10 ^ e') →
  (m' * 10 ^ e' = m * 10 ^ e + n)%Z →
  ∃ srv1 srv2,
    RedisClient.set c k (JNum m e) None srv = (Ok (), srv1)
    ∧ RedisClient.incr c k (Some n) srv1 = (Ok (m * 10 ^ e + n)%Z, srv2)
    ∧ RedisClient.get c k srv2 = (Ok (JNum m' e'), srv2).
Proof.
  intros Hc Hs Hn He Hz Hn64 Hn' He' Hz' Hsum. unfold safe_integer in *.
  assert (NodeRedis.in_int64 (m * 10 ^ e) = true) by (apply in_int64_spec; lia).
  assert (NodeRedis.in_int64 n = true) by (apply in_int64_spec; lia).
  assert (NodeRedis.in_int64 (m' * 10 ^ e') = true) by (apply in_int64_spec; lia).
  clear Hz Hn64 Hz'.
  eexists _, _. split; [|split].
  - unfold RedisClient.set, NodeRedis.set. rewrite Hc, Hs. reflexivity.
  - unfold RedisClient.incr. rewrite Hc. cbn [negb].
    change (default 1%Z (Some n)) with n.
    apply incrBy_reply; try done; [|by rewrite <- Hsum].
    unfold NodeRedis.counter_state. rewrite lookup_live_insert.
    cbn [live e_expiry e_text encode stringify].
    rewrite show_number_int by done. by rewrite parse_ll_show_int.
  - set (srv2 := with_db _ _).
    destruct (reads_of_ready c k srv2 Hc Hs) as (-> & _ & _).
    subst srv2. rewrite lookup_live_insert. cbn [live e_expiry e_text].
    rewrite <- Hsum, <- show_number_int by done.
    change (show_number m' e') with (encode (JNum m' e')).
    by rewrite decode_encode_structured.
Qed.

Lemma counter_of_number_witness :
  ∃ srv1 srv2,
    RedisClient.set ready_client (str "counter") (JNum 1 1) None empty_store
    = (Ok (), srv1)
    ∧ RedisClient.incr ready_client (str "counter") (Some 5%Z) srv1
      = (Ok (1 * 10 ^ 1 + 5)%Z, srv2)
    ∧ RedisClient.get ready_client (str "counter") srv2 = (Ok (JNum 15 0), srv2).
Proof.
  apply (counter_of_number ready_client (str "counter") 1 1 5 15 0 empty_store);
    try reflexivity; try (unfold safe_integer; lia); try done.
Defined.

(** * More of the handler *)

(** ** The effects of a batch *)

#[local] Instance adds_preorder P : PreOrder (adds P).
Proof.
  split.
  - intros w. exists []. by rewrite app_nil_r.
  - intros x y z (n1 & H1 & F1) (n2 & H2 & F2). exists (n1 ++ n2).
    rewrite H2, H1, app_assoc. split; [done|]. by apply Forall_app.
Qed.

Lemma adds_emit P e : P e → keeps (adds P) (emit e).
Proof. intros He w. exists [e]. split; [done|]. by constructor. Qed.

Lemma adds_await P env h r : P (Call h r) → keeps (adds P) (await env h r).
Proof.
  intros He w. exists [Call h r]. unfold await.
  destruct (env (trace w) r); (split; [done|]); by constructor.
Qed.

Lemma adds_on_redis {A} P (op : RedisClient.t → server → result A * server) :
  keeps (adds P) (on_redis op).
Proof.
  intros w. exists []. unfold on_redis.
  destruct (op (redisClient w) (redis w)). by rewrite app_nil_r.
Qed.

Lemma adds_write_creds P c : keeps (adds P) (write_creds c).
Proof. intros w. exists []. by rewrite app_nil_r. Qed.

Lemma adds_startSock P :
  P (Log log_using_version) → (∀ n, P (MakeSocket n)) → keeps (adds P) startSock.
Proof.
  intros H1 H2 w. eexists. split; [done|]. constructor; [done|].
  constructor; [apply H2 | constructor].
Qed.

(** Closes goals [keeps (adds P) m] for the code of the handler; [side]
    shows that an effect satisfies [P].  The body of the loop over the
    messages is left to the caller unless it is unfolded. *)
Ltac adds_step side :=
  lazymatch goal with
  | |- keeps _ (on_message _ _ _ _ _ _) => fail
  | |- _ => idtac
  end;
  first
    [ apply keeps_ret; tc_solve
    | match goal with |- keeps _ (when false _) => apply keeps_ret; tc_solve end
    | apply keeps_bind; [tc_solve | | intros ?]
    | apply keeps_when; [tc_solve|]
    | apply keeps_for_of; [tc_solve | intros ?]
    | apply keeps_catch_null
    | apply keeps_on_event; [tc_solve | intros ?]
    | apply adds_emit; side
    | apply adds_await; side
    | apply adds_on_redis
    | apply adds_write_creds
    | apply adds_startSock; [side | intros ?; side]
    | progress unfold console_log, delay, print_event
    | match goal with |- keeps _ (match ?x with _ => _ end) => destruct x end
    | match goal with |- keeps _ (if ?x then _ else _) => destruct x end
    | match goal with |- keeps _ (let '_ := _ in _) => cbn zeta end ].

Ltac adds_auto side := repeat adds_step side.

(** X19: requests go to the session handle that delivered the batch: every
    command the handler sends while it works on a batch of the handle [h],
    it sends on [h], also after it has made a new handle in the same
    batch. *)
Theorem requests_on_delivering_handle
    loggedOut isJidNewsletter doReplies usePairingCode phoneNumber env
    h registered events w :
  adds (λ e, ∀ h' r, e = Call h' r → h' = h) w
    (process loggedOut isJidNewsletter doReplies usePairingCode phoneNumber env
       h registered events w).2.
Proof.
  revert w.
  change (keeps (adds (λ e, ∀ h' r, e = Call h' r → h' = h))
            (process loggedOut isJidNewsletter doReplies usePairingCode
               phoneNumber env h registered events)).
  unfold process, on_connection_update, on_creds_update, on_messages_upsert,
    on_message, reply_to, sendMessageWTyping, on_messages_update,
    on_contacts_update.
  adds_auto ltac:(by intros ? ? [= <- _]).
Qed.

Lemma on_message_no_reply isJidNewsletter doReplies env h upsert msg :
  negb (fromMe (key msg)) && doReplies
    && negb (isJidNewsletter (remoteJid (key msg))) = false
  ∨ truthy_str (conversation msg) || truthy_str (extendedText msg) = false →
  keeps (adds (λ e, is_reply_effect e = false))
    (on_message isJidNewsletter doReplies env h upsert msg).
Proof.
  intros H. unfold on_message. destruct H as [-> | ->].
  - adds_auto ltac:(done).
  - apply keeps_ret; tc_solve.
Qed.

(** X20: the automatic reply is sent only where it is asked for: with
    [doReplies] off no batch makes the handler send a read receipt, a
    presence command or a message, or wait; with it on, a message that
    comes from the account itself, from a newsletter, or has no text, gets
    none of them either. *)
Theorem no_reply_unless_asked
    loggedOut isJidNewsletter doReplies usePairingCode phoneNumber env h :
  (doReplies = false → ∀ registered events w,
     adds (λ e, is_reply_effect e = false) w
       (process loggedOut isJidNewsletter doReplies usePairingCode phoneNumber
          env h registered events w).2)
  ∧ (∀ upsert msg w,
       fromMe (key msg) = true
       ∨ isJidNewsletter (remoteJid (key msg)) = true
       ∨ truthy_str (conversation msg) || truthy_str (extendedText msg) = false →
       adds (λ e, is_reply_effect e = false) w
         (on_message isJidNewsletter doReplies env h upsert msg w).2).
Proof.
  split.
  - intros -> registered events.
    change (keeps (adds (λ e, is_reply_effect e = false))
              (process loggedOut isJidNewsletter false usePairingCode
                 phoneNumber env h registered events)).
    unfold process, on_connection_update, on_creds_update, on_messages_upsert,
      on_messages_update, on_contacts_update.
    adds_auto ltac:(done).
    apply on_message_no_reply. left. by rewrite andb_false_r.
  - intros upsert msg w H. revert w.
    apply on_message_no_reply. destruct H as [-> | [-> | ->]].
    + by left.
    + left. by rewrite andb_false_r.
    + by right.
Qed.

Lemma no_reply_unless_asked_witness :
  let w := init_world sample_config empty_store (str "creds") in
  let own := {| key := {| remoteJid := Some (str "alice"); fromMe := true;
                          id := str "1" |};
                conversation := Some (str "hi"); extendedText := None;
                messageTimestamp := 0 |} in
  adds (λ e, is_reply_effect e = false) w
    (process 401 never_newsletter false false None env_resolves 0 true
       two_messages_batch w).2
  ∧ adds (λ e, is_reply_effect e = false) w
      (on_message never_newsletter true env_resolves 0
         {| upsert_kind := notify; messages := [own]; requestId := None |}
         own w).2.
Proof.
  intros w own. split.
  - apply (no_reply_unless_asked 401 never_newsletter false false None
             env_resolves 0). reflexivity.
  - apply (no_reply_unless_asked 401 never_newsletter true false None
             env_resolves 0). left. reflexivity.
Defined.

(** ** Batches that only print, the pairing-code branch, completion *)

Section Completes.

Lemma completes_ret {A} (a : A) : completes (ret a).
Proof. intros w. by exists a. Qed.

Lemma completes_bind {A B} (m : M A) (k : A → M B) :
  completes m → (∀ a, completes (k a)) → completes (bind m k).
Proof.
  intros Hm Hk w. unfold bind. destruct (Hm w) as [a Ha].
  destruct (m w) as [[a'|e] w1]; [|done]. apply Hk.
Qed.

Lemma completes_when b (m : M unit) : completes m → completes (when b m).
Proof. destruct b; [done | intros _; apply completes_ret]. Qed.

Lemma completes_for_of {A} (l : list A) (body : A → M unit) :
  (∀ x, completes (body x)) → completes (for_of l body).
Proof.
  intros Hb. induction l as [|x l IH]; [apply completes_ret|].
  apply completes_bind; [apply Hb | done].
Qed.

Lemma completes_catch_null {A} (m : M A) : completes (catch_null m).
Proof.
  intros w. unfold catch_null. destruct (m w) as [[a|e] w1]; by eexists.
Qed.

Lemma completes_on_event {A} (e : option A) (handler : A → M unit) :
  (∀ a, completes (handler a)) → completes (on_event e handler).
Proof. intros H. destruct e; [apply H | apply completes_ret]. Qed.

Lemma completes_emit e : completes (emit e).
Proof. intros w. by exists (). Qed.

Lemma completes_write_creds c : completes (write_creds c).
Proof. intros w. by exists (). Qed.

Lemma completes_startSock : completes startSock.
Proof. intros w. by eexists. Qed.

Lemma completes_await env h r :
  (∀ t q, env t q ≠ Reject) → completes (await env h r).
Proof.
  intros Henv w. unfold await. specialize (Henv (trace w) r).
  destruct (env (trace w) r) as [v|]; [by exists v | done].
Qed.

Lemma completes_unit (m : M unit) w : completes m → (m w).1 = Ok ().
Proof. intros H. by destruct (H w) as [[] ->]. Qed.

End Completes.

Ltac completes_step :=
  first
    [ apply completes_ret
    | match goal with |- completes (when false _) => apply completes_ret end
    | apply completes_bind; [| intros ?]
    | apply completes_when
    | apply completes_for_of; intros ?
    | apply completes_catch_null
    | apply completes_on_event; intros ?
    | apply completes_emit
    | apply completes_write_creds
    | apply completes_startSock
    | apply completes_await; assumption
    | progress unfold console_log, delay, print_event
    | match goal with |- completes (match ?x with _ => _ end) => destruct x end
    | match goal with |- completes (if ?x then _ else _) => destruct x end ].

(** X21: a batch without [connection.update], [creds.update] and
    [contacts.update], whose [messages.upsert] if any is not of type
    [notify], only prints: the handler ends without throwing, sends no
    request, waits for nothing, and leaves the session handles, the
    credentials and the store as they are. *)
Theorem print_only_batch
    loggedOut isJidNewsletter doReplies usePairingCode phoneNumber env
    h registered events w :
  connection_update events = None → creds_update events = None →
  contacts_update events = None →
  (∀ u, messages_upsert events = Some u → upsert_kind u = append) →
  let r := process loggedOut isJidNewsletter doReplies usePairingCode phoneNumber
             env h registered events w in
  r.1 = Ok ()
  ∧ adds (λ e, is_log e = true) w r.2
  ∧ handles r.2 = handles w ∧ creds_file r.2 = creds_file w
  ∧ redisClient r.2 = redisClient w ∧ redis r.2 = redis w.
Proof.
  intros Hc Hcr Hco Hup r. subst r. revert w.
  assert (completes (process loggedOut isJidNewsletter doReplies usePairingCode
                       phoneNumber env h registered events)
          ∧ keeps (adds (λ e, is_log e = true))
              (process loggedOut isJidNewsletter doReplies usePairingCode
                 phoneNumber env h registered events)
          ∧ keeps (same (λ w, (handles w, creds_file w, redisClient w, redis w)))
              (process loggedOut isJidNewsletter doReplies usePairingCode
                 phoneNumber env h registered events)) as (H1 & H2 & H3).
  { unfold process, on_messages_upsert, on_messages_update.
    rewrite Hc, Hcr, Hco.
    destruct (messages_upsert events) as [u|];
      [pose proof (Hup u eq_refl) as Hk; cbn [on_event]; rewrite Hk|].
    - split; [|split].
      + repeat completes_step.
      + adds_auto ltac:(done).
      + keeps_auto.
    - split; [|split].
      + repeat completes_step.
      + adds_auto ltac:(done).
      + keeps_auto. }
  intros w. split; [by apply completes_unit|]. split; [apply H2|].
  specialize (H3 w). unfold same in H3. by injection H3 as -> -> -> ->.
Qed.

Lemma print_only_batch_witness :
  let w := init_world sample_config empty_store (str "creds") in
  let events :=
    {| connection_update := None; creds_update := None; labels_association := None;
       labels_edit := None; call := Some (str "offer");
       messaging_history_set := None;
       messages_upsert :=
         Some {| upsert_kind := append; messages := [text_message "alice" "hi"];
                 requestId := None |};
       messages_update := None; message_receipt_update := None;
       messages_reaction := None; presence_update := Some (str "available");
       chats_update := None; contacts_update := None; chats_delete := None |} in
  let r := process 401 never_newsletter true true None env_rejects_read 0 false
             events w in
  r.1 = Ok ()
  ∧ adds (λ e, is_log e = true) w r.2
  ∧ handles r.2 = handles w ∧ creds_file r.2 = creds_file w
  ∧ redisClient r.2 = redisClient w ∧ redis r.2 = redis w.
Proof.
  intros w events.
  apply (print_only_batch 401 never_newsletter true true None env_rejects_read
           0 false events w); try reflexivity.
  intros u [= <-]. reflexivity.
Defined.

(** X22: the handler asks for a pairing code, and turns to the Redis
    store, only in the pairing-code branch: unless the batch reports a
    connection update whose connection is undefined, on a session that is
    not registered, with [usePairingCode] on, no [requestPairingCode] is
    sent and the store is left as it is. *)
Theorem pairing_only_when_due
    loggedOut isJidNewsletter doReplies usePairingCode phoneNumber env
    h registered events w :
  pairing_due usePairingCode registered events = false →
  let r := process loggedOut isJidNewsletter doReplies usePairingCode phoneNumber
             env h registered events w in
  adds (λ e, ∀ h' phone, e ≠ Call h' (requestPairingCode phone)) w r.2
  ∧ redis r.2 = redis w.
Proof.
  intros Hdue r. subst r. revert w.
  assert (keeps (adds (λ e, ∀ h' phone, e ≠ Call h' (requestPairingCode phone)))
            (process loggedOut isJidNewsletter doReplies usePairingCode
               phoneNumber env h registered events)
          ∧ keeps (same redis)
              (process loggedOut isJidNewsletter doReplies usePairingCode
                 phoneNumber env h registered events)) as [H1 H2].
  { unfold process, on_connection_update, on_creds_update, on_messages_upsert,
      on_message, reply_to, sendMessageWTyping, on_messages_update,
      on_contacts_update, pairing_due in *.
    destruct (connection_update events) as [u|]; cbn [on_event].
    - revert Hdue.
      destruct (bool_decide (connection u = None)), registered, usePairingCode;
        try discriminate; intros _; cbn [andb negb when]; split;
        first [ by adds_auto ltac:(done)
              | keeps_auto; first [ by apply keeps_startSock
                                  | by apply keeps_write_creds ] ].
    - split.
      + adds_auto ltac:(done).
      + keeps_auto; by apply keeps_write_creds. }
  intros w. split; [apply H1 | apply H2].
Qed.

Lemma pairing_only_when_due_witness :
  let w := init_world sample_config empty_store (str "creds") in
  let events := connection_event {| connection := None; statusCode := None;
                                    qr := Some (str "2@abc") |} in
  let r := process 401 never_newsletter true true (Some (str "555")) env_resolves
             0 true events w in
  adds (λ e, ∀ h' phone, e ≠ Call h' (requestPairingCode phone)) w r.2
  ∧ redis r.2 = redis w.
Proof.
  intros w events.
  apply (pairing_only_when_due 401 never_newsletter true true (Some (str "555"))
           env_resolves 0 true events w).
  reflexivity.
Defined.

(** X23: the handler throws only when something it awaits fails: when no
    request is rejected and the batch does not lead into the pairing-code
    branch, the handler ends without throwing, whatever the events. *)
Theorem handler_completes
    loggedOut isJidNewsletter doReplies usePairingCode phoneNumber env
    h registered events w :
  (∀ t q, env t q ≠ Reject) →
  pairing_due usePairingCode registered events = false →
  (process loggedOut isJidNewsletter doReplies usePairingCode phoneNumber env
     h registered events w).1 = Ok ().
Proof.
  intros Henv Hdue. apply completes_unit.
  unfold process, on_connection_update, on_creds_update, on_messages_upsert,
    on_message, reply_to, sendMessageWTyping, on_messages_update,
    on_contacts_update, pairing_due in *.
  destruct (connection_update events) as [u|]; cbn [on_event].
  - revert Hdue.
    destruct (bool_decide (connection u = None)), registered, usePairingCode;
      try discriminate; intros _; cbn [andb negb when]; repeat completes_step.
  - repeat completes_step.
Qed.

Lemma handler_completes_witness :
  (process 401 never_newsletter true false None env_resolves 0 true
     two_messages_batch (init_world sample_config empty_store (str "creds"))).1
  = Ok ().
Proof.
  apply (handler_completes 401 never_newsletter true false None env_resolves 0
           true two_messages_batch); [done | reflexivity].
Defined.

Lemma for_of_actions {A} (body : A → M unit) (f : A → list effect) l w :
  (∀ x w, (body x w).1 = Ok ()
          ∧ ∃ new, trace (body x w).2 = trace w ++ new
                   ∧ List.filter is_action new = f x) →
  (for_of l body w).1 = Ok ()
  ∧ ∃ new, trace (for_of l body w).2 = trace w ++ new
           ∧ List.filter is_action new = flat_map f l.
Proof.
  intros Hb. revert w. induction l as [|x l IH]; intros w.
  { split; [done|]. exists []. by rewrite app_nil_r. }
  cbn [for_of flat_map]. unfold bind.
  destruct (Hb x w) as (Hok & n1 & Ht1 & Hf1).
  destruct (body x w) as [[[]|e] w1]; [|done]. cbn [fst snd] in *.
  destruct (IH w1) as (Hok2 & n2 & Ht2 & Hf2). split; [done|].
  exists (n1 ++ n2). rewrite Ht2, Ht1, app_assoc. split; [done|].
  by rewrite List.filter_app, Hf1, Hf2.
Qed.

(** X24: the [contacts.update] branch never throws: a rejected
    [profilePictureUrl] is turned into null.  It sends one request for each
    contact whose picture changed, in the order of the contacts, and none
    for the others. *)
Theorem contacts_update_contained env h l w :
  let r := on_contacts_update env h l w in
  r.1 = Ok ()
  ∧ actions_since w r.2
    = flat_map (λ contact,
                  match imgUrl contact with
                  | img_changed => [Call h (profilePictureUrl (contact_id contact))]
                  | _ => []
                  end) l.
Proof.
  cbv zeta. unfold on_contacts_update.
  match goal with
  | |- (for_of l ?body w).1 = _ ∧ _ = flat_map ?f l =>
      destruct (for_of_actions body f l w) as (Hok & new & Htr & Hact)
  end.
  { intros c w'. destruct (imgUrl c).
    - split; [done|]. exists []. by rewrite app_nil_r.
    - split; [done|]. by exists [Log (log_profile_pic (contact_id c) None)].
    - unfold bind, catch_null, await, console_log, emit. cbn [trace].
      destruct (env (trace w') (profilePictureUrl (contact_id c)));
        (split; [done|]); eexists [_; _]; cbn [trace fst snd];
        by rewrite <- app_assoc. }
  split; [done|]. by rewrite (actions_since_app _ _ new).
Qed.

(** ** The running program *)

Lemma guard_keeps_store k v t :
  keeps (same (λ w, (redisClient w,
                     if RedisClient.isReady (redisClient w) then None
                     else Some (redis w))))
    (on_redis (λ c, RedisClient.set c k v t)).
Proof.
  intros w. unfold same, on_redis, RedisClient.set.
  destruct (RedisClient.isReady (redisClient w)) eqn:Hc; cbn [negb].
  - destruct (match RedisClient.truthy t with
              | Some seconds => _
              | None => _
              end) as [r s']. cbn. by rewrite Hc.
  - cbn. by rewrite Hc.
Qed.

(** While the client is not ready no batch changes the store. *)
Lemma process_keeps_store
    loggedOut isJidNewsletter doReplies usePairingCode phoneNumber env
    h registered events w :
  RedisClient.isReady (redisClient w) = false →
  redis (process loggedOut isJidNewsletter doReplies usePairingCode phoneNumber
           env h registered events w).2 = redis w.
Proof.
  intros Hc.
  assert (keeps (same (λ w, (redisClient w,
                             if RedisClient.isReady (redisClient w) then None
                             else Some (redis w))))
            (process loggedOut isJidNewsletter doReplies usePairingCode
               phoneNumber env h registered events)) as H.
  { unfold process, on_connection_update, on_creds_update, on_messages_upsert,
      on_message, reply_to, sendMessageWTyping, on_messages_update,
      on_contacts_update.
    keeps_auto;
      first [ by apply keeps_startSock
            | by apply keeps_write_creds
            | apply guard_keeps_store ]. }
  specialize (H w). unfold same in H. injection H as H1 H2.
  rewrite H1, Hc in H2. by injection H2.
Qed.

(** X25: the program never writes to the Redis store: in every state it
    can reach its client is not ready, and whatever batch a handle
    delivers, the store is afterwards as it was before. *)
Theorem program_never_writes_store
    loggedOut isJidNewsletter doReplies usePairingCode phoneNumber env
    cfg srv creds sys h registered events :
  rtc (step loggedOut isJidNewsletter doReplies usePairingCode phoneNumber env)
    (program_start cfg srv creds) sys →
  RedisClient.isReady (redisClient (sys_world sys)) = false
  ∧ redis (sys_world (deliver loggedOut isJidNewsletter doReplies usePairingCode
                        phoneNumber env h registered events sys))
    = redis (sys_world sys).
Proof.
  intros Hreach.
  assert (RedisClient.isReady (redisClient (sys_world sys)) = false) as Hc.
  { by rewrite (reachable_client _ _ _ _ _ _ _ _ _ _ Hreach). }
  split; [done|]. cbn [deliver sys_world]. unfold run_process.
  by apply process_keeps_store.
Qed.

Lemma program_never_writes_store_witness :
  let sys := program_start sample_config empty_store (str "creds") in
  let events := connection_event {| connection := None; statusCode := None;
                                    qr := None |} in
  RedisClient.isReady (redisClient (sys_world sys)) = false
  ∧ redis (sys_world (deliver 401 never_newsletter true true (Some (str "555"))
                        env_pairing 0 false events sys))
    = redis (sys_world sys).
Proof.
  intros sys events.
  apply (program_never_writes_store 401 never_newsletter true true
           (Some (str "555")) env_pairing sample_config empty_store (str "creds")
           sys 0 false events).
  apply rtc_refl.
Defined.

(** X26: the program holds at most one live session, the newest: in every
    state it can reach either no handle is live, or the live handle is the
    one made last. *)
Theorem live_session_is_newest
    loggedOut isJidNewsletter doReplies usePairingCode phoneNumber env
    cfg srv creds sys :
  rtc (step loggedOut isJidNewsletter doReplies usePairingCode phoneNumber env)
    (program_start cfg srv creds) sys →
  (1 ≤ handles (sys_world sys))%nat
  ∧ (live_handles sys = []
     ∨ live_handles sys = [(handles (sys_world sys) - 1)%nat]).
Proof.
  revert sys. apply rtc_ind_r.
  { split; [cbn; lia | by right]. }
  intros sys sys' _ Hstep [Hn Hlive].
  destruct Hstep as [h registered events sys Hh|s sys]; [|done].
  rewrite deliver_handles, deliver_live.
  destruct (is_restart loggedOut events) eqn:Hr.
  - rewrite (is_restart_close _ _ Hr). split; [lia|]. right.
    destruct Hlive as [Hl|Hl]; rewrite Hl in *; [by apply elem_of_nil in Hh|].
    apply list_elem_of_singleton in Hh as ->.
    rewrite filter_cons_False by (intros H; by apply H).
    rewrite filter_nil. cbn [app]. f_equal. lia.
  - rewrite Nat.add_0_r, app_nil_r. split; [done|].
    destruct (is_close events); [|done].
    destruct Hlive as [Hl|Hl]; rewrite Hl in *; [by apply elem_of_nil in Hh|].
    apply list_elem_of_singleton in Hh as ->. left.
    by rewrite filter_cons_False by (intros H; by apply H).
Qed.

Lemma live_session_is_newest_witness :
  let sys := deliver 401 never_newsletter false false None env_resolves 0 true
               (connection_event {| connection := Some close;
                                    statusCode := Some 500%Z; qr := None |})
               (program_start sample_config empty_store (str "creds")) in
  (1 ≤ handles (sys_world sys))%nat
  ∧ (live_handles sys = []
     ∨ live_handles sys = [(handles (sys_world sys) - 1)%nat]).
Proof.
  intros sys.
  apply (live_session_is_newest 401 never_newsletter false false None env_resolves
           sample_config empty_store (str "creds") sys).
  apply rtc_once. apply step_deliver. by left.
Defined.
